(** * Round-robin scheduler (Scheduler.py): shallow embedding and properties

    The Python program keeps every team as a mutable object.  Teams are
    hashed and compared by object identity, so a team is identified here by
    its position in the list [teams]; the heap of team objects is that list
    and in-place updates are [alter] at the team's position.  The functions
    of the module [random] that the program calls ([random.shuffle],
    [random.choice]) are an interface with the laws the program relies on.
    The scheduler proper is modelled without its output; the interactive
    part ([validatePosIntInput], [preMain], [metaWrapper]) and [main] with
    its output and its globals are modelled on top of it, over a console of
    input lines and written strings. *)

From stdpp Require Import base gmap sets list strings pretty.

#[local] Set Warnings "-clear-no-such-hyp".

(** ** Data model *)

(** The exceptions the modelled statements can raise. *)
Inductive exn :=
  | IndexError | KeyError | ValueError | ZeroDivisionError | UnboundLocalError.

#[global] Instance exn_eq_dec : EqDecision exn.
Proof. solve_decision. Defined.

(** [class Team]: [name], [schedule] (opponent names, one per week) and
    [already_played_set] (identities of the opponents of the current pass). *)
Module Team.
Record t := mk {
  name : string;
  schedule : list string;
  already_played_set : gset nat
}.
(** [Team.__init__] *)
Definition new (owner : string) : t :=
  {| name := owner; schedule := []; already_played_set := ∅ |}.
End Team.

(** [class WeeklySchedule] *)
Module WeeklySchedule.
Record t := mk {
  schedule : list string;
  next_index : nat
}.
Definition new : t := {| schedule := []; next_index := 0 |}.
End WeeklySchedule.

#[global] Instance Team_inhabited : Inhabited Team.t := populate (Team.new "").

(** Attribute reads through a team identity. *)
Definition name_of (teams : list Team.t) (a : nat) : string :=
  Team.name (teams !!! a).
Definition schedule_of (teams : list Team.t) (a : nat) : list string :=
  Team.schedule (teams !!! a).
Definition played (teams : list Team.t) (a : nat) : gset nat :=
  Team.already_played_set (teams !!! a).

(** ** The interface of Python's [random] module *)

(** [shuffle] returns the new generator state and the reordered list;
    [choice] returns [None] where Python raises [IndexError] (empty list). *)
Class RandomGen (G : Type) := {
  shuffle : G → list nat → G * list nat;
  choice : G → list nat → G * option nat;
  shuffle_Permutation g l : (shuffle g l).2 ≡ₚ l;
  choice_elem_of g l x : (choice g l).2 = Some x → x ∈ l;
  choice_None g l : (choice g l).2 = None ↔ l = []
}.

(** ** Pure helpers of the program *)

(** [testMatch]'s loop over [test_set]; the iteration order of a Python set
    is arbitrary, here it is the order of [elements]. *)
Fixpoint testMatch_loop (teams : list Team.t) (test_set : gset nat)
    (l : list nat) : bool :=
  match l with
  | [] => true
  | team :: l' =>
      let set1 := played teams team ∪ {[team]} in
      if decide (test_set ⊆ set1) then false
      else testMatch_loop teams test_set l'
  end.

(** [testMatch(match, unscheduled_teams)]; [inr KeyError] when
    [test_set.remove(match)] does not find [match]. *)
Definition testMatch (teams : list Team.t) (match_ : nat)
    (unscheduled_teams : list nat) : bool + exn :=
  let test_set : gset nat := list_to_set unscheduled_teams in
  if decide (match_ ∈ test_set) then
    let test_set := test_set ∖ {[match_]} in
    inl (testMatch_loop teams test_set (elements test_set))
  else inr KeyError.

(** [setIsUnique(a_set, teams)] *)
Fixpoint setIsUnique (teams : list Team.t) (a_set : gset nat)
    (ts : list nat) : bool :=
  match ts with
  | [] => true
  | team :: ts' =>
      if decide (played teams team = a_set) then false
      else setIsUnique teams a_set ts'
  end.

Definition append_schedule (nm : string) (t : Team.t) : Team.t :=
  {| Team.name := Team.name t;
     Team.schedule := Team.schedule t ++ [nm];
     Team.already_played_set := Team.already_played_set t |}.

Definition add_played (a : nat) (t : Team.t) : Team.t :=
  {| Team.name := Team.name t;
     Team.schedule := Team.schedule t;
     Team.already_played_set := Team.already_played_set t ∪ {[a]} |}.

(** [setMatchForTeam(team1, team2)], statement by statement. *)
Definition setMatchForTeam (teams : list Team.t) (team1 team2 : nat)
    : list Team.t :=
  let teams := alter (append_schedule (name_of teams team2)) team1 teams in
  let teams := alter (append_schedule (name_of teams team1)) team2 teams in
  let teams := alter (add_played team2) team1 teams in
  alter (add_played team1) team2 teams.

(** The string [chr(10)] that ends a line of the weekly schedule. *)
Definition newline : string := String (Ascii.ascii_of_nat 10) EmptyString.

(** [list.pop()]: last element and the rest; [None] on the empty list. *)
Definition pop {A} (l : list A) : option (A * list A) :=
  match reverse l with
  | [] => None
  | x :: r => Some (x, reverse r)
  end.

(** [list.remove(x)]: drops the first occurrence; [None] when there is none
    (Python's [ValueError]). *)
Fixpoint remove_first (x : nat) (l : list nat) : option (list nat) :=
  match l with
  | [] => None
  | y :: l' =>
      if decide (x = y) then Some l'
      else cons y <$> remove_first x l'
  end.

(** The list comprehension [[a for a in matches if testMatch(a, unscheduled)]];
    an exception of [testMatch] leaves the comprehension. *)
Fixpoint refine (teams : list Team.t) (unscheduled_teams : list nat)
    (matches : list nat) : list nat + exn :=
  match matches with
  | [] => inl []
  | a :: r =>
      match testMatch teams a unscheduled_teams with
      | inr e => inr e
      | inl b =>
          match refine teams unscheduled_teams r with
          | inr e => inr e
          | inl r' => inl (if b then a :: r' else r')
          end
      end
  end.

(** The test of lines 356-359 for one candidate [temp]. *)
Definition preferred (teams : list Team.t) (next_team : nat)
    (scheduled_teams : list nat) (temp : nat) : bool :=
  let set1 := played teams next_team ∪ {[temp]} in
  let set2 := played teams temp ∪ {[next_team]} in
  setIsUnique teams set1 scheduled_teams && setIsUnique teams set2 scheduled_teams.

(** The guard of line 338, with [already_played_or_self_size = w+1]. *)
Definition viability_guard (unscheduled_teams : list nat) (w : nat) : bool :=
  bool_decide (length unscheduled_teams - 1 ≤ w + 1).

(** [ceil(weeks / num_unique_matchups)] for a positive divisor.  Python
    divides in floating point; the ceiling of its quotient is this exact one
    for [a] below 2^53, the bound under which the number of passes of
    [main] is stated. *)
Definition ceil_div (a b : nat) : nat :=
  a / b + (if decide (a mod b = 0) then 0 else 1).

(** ** The stateful part *)

Section scheduler.
Context {G : Type} `{!RandomGen G}.

(** The objects the scheduler mutates: the generator of [random], the team
    objects and the [WeeklySchedule]. *)
Record Sched := mkSched {
  rng : G;
  teams : list Team.t;
  s : WeeklySchedule.t
}.

(** A statement either completes with a value or raises; both leave a
    state. *)
Inductive outcome (A : Type) :=
  | Done (a : A) (st : Sched)
  | Raise (e : exn) (st : Sched).
Arguments Done {A} a st.
Arguments Raise {A} e st.

Definition M (A : Type) : Type := Sched → outcome A.

#[local] Instance M_ret : MRet M := λ A a st, Done a st.
#[local] Instance M_bind : MBind M := λ A B f m st,
  match m st with
  | Done a st' => f a st'
  | Raise e st' => Raise e st'
  end.

Definition raise {A} (e : exn) : M A := λ st, Raise e st.
Definition get : M Sched := λ st, Done st st.
Definition lift {A} (r : A + exn) : M A :=
  match r with inl a => mret a | inr e => raise e end.

(** [random.shuffle(l)] (in place, here the reordered list is returned) *)
Definition random_shuffle (l : list nat) : M (list nat) := λ st,
  let '(g, l') := shuffle (rng st) l in
  Done l' {| rng := g; teams := teams st; s := s st |}.

(** [random.choice(l)] *)
Definition random_choice (l : list nat) : M nat := λ st,
  let '(g, o) := choice (rng st) l in
  let st' := {| rng := g; teams := teams st; s := s st |} in
  match o with
  | Some x => Done x st'
  | None => Raise IndexError st'
  end.

(** Lines 327-372: the opponent of [next_team].  [unscheduled_teams] is
    the list after [pop], [scheduled_teams] already holds [next_team]. *)
Definition select_match (w i next_team : nat)
    (unscheduled_teams scheduled_teams : list nat) : M nat :=
  st ← get;
  let matches :=
    filter (λ a, a ∉ played (teams st) next_team) unscheduled_teams in
  if decide (length unscheduled_teams = 1) then
    match unscheduled_teams with
    | x :: _ => mret x
    | [] => raise IndexError
    end
  else
    matches ←
      (if viability_guard unscheduled_teams w
       then lift (refine (teams st) unscheduled_teams matches)
       else mret matches);
    if decide (i = 0) then random_choice matches
    else
      match List.find (preferred (teams st) next_team scheduled_teams) matches with
      | Some temp => mret temp
      | None => random_choice matches
      end.

(** Lines 378-381: the tasks once a match has been determined. *)
Definition commit (next_team match_ : nat) (unscheduled_teams : list nat)
    : M (list nat) := λ st,
  match remove_first match_ unscheduled_teams with
  | None => Raise ValueError st
  | Some unscheduled_teams =>
      let teams' := setMatchForTeam (teams st) next_team match_ in
      let ws := s st in
      let st' := {| rng := rng st; teams := teams'; s := ws |} in
      let idx := WeeklySchedule.next_index ws in
      match WeeklySchedule.schedule ws !! idx with
      | None => Raise IndexError st'
      | Some line =>
          let line := line +:+ name_of teams' next_team +:+ " vs. "
                           +:+ name_of teams' match_ +:+ newline in
          Done unscheduled_teams
            {| rng := rng st; teams := teams';
               s := {| WeeklySchedule.schedule :=
                         <[idx := line]> (WeeklySchedule.schedule ws);
                       WeeklySchedule.next_index := idx |} |}
      end
  end.

(** One turn of the matchup loop (lines 323-381); the value is the pair of
    the loop's lists [(unscheduled_teams, scheduled_teams)]. *)
Definition matchup (w i : nat) (lists : list nat * list nat)
    : M (list nat * list nat) :=
  let '(unscheduled_teams, scheduled_teams) := lists in
  shuffled ← random_shuffle unscheduled_teams;
  match pop shuffled with
  | None => raise IndexError
  | Some (next_team, unscheduled_teams) =>
      let scheduled_teams := scheduled_teams ++ [next_team] in
      match_ ← select_match w i next_team unscheduled_teams scheduled_teams;
      unscheduled_teams ← commit next_team match_ unscheduled_teams;
      mret (unscheduled_teams, scheduled_teams ++ [match_])
  end.

(** [for i in range(...)] over [matchup], from turn [i] on. *)
Fixpoint matchups (w : nat) (turns : list nat) (lists : list nat * list nat)
    : M (list nat * list nat) :=
  match turns with
  | [] => mret lists
  | i :: turns' => lists ← matchup w i lists; matchups w turns' lists
  end.

(** Lines 313-315: the tasks for starting a new week. *)
Definition start_week : M (list nat * list nat) := λ st,
  let ws := s st in
  Done (seq 0 (length (teams st)), [])
    {| rng := rng st; teams := teams st;
       s := {| WeeklySchedule.schedule := WeeklySchedule.schedule ws ++ [""];
               WeeklySchedule.next_index := WeeklySchedule.next_index ws |} |}.

(** Line 384 *)
Definition end_week : M unit := λ st,
  let ws := s st in
  Done ()
    {| rng := rng st; teams := teams st;
       s := {| WeeklySchedule.schedule := WeeklySchedule.schedule ws;
               WeeklySchedule.next_index := S (WeeklySchedule.next_index ws) |} |}.

(** The body of the week loop. *)
Definition week (w : nat) : M unit :=
  st ← get;
  let iter_per_week := length (teams st) / 2 in
  lists ← start_week;
  _ ← matchups w (seq 0 iter_per_week) lists;
  end_week.

Fixpoint week_loop (ws : list nat) : M unit :=
  match ws with
  | [] => mret ()
  | w :: ws' => _ ← week w; week_loop ws'
  end.

(** [runScheduler(teams, weeks, weekly_schedule)]: [IndexError] is caught
    and turned into [False]; any other exception leaves the function. *)
Definition runScheduler (weeks : nat) : M bool := λ st,
  match week_loop (seq 0 weeks) st with
  | Done _ st' => Done true st'
  | Raise IndexError st' => Done false st'
  | Raise e st' => Raise e st'
  end.

(** Line 271: [team.already_played_set = set()] for one team, and the state
    once the loop over the teams is through. *)
Definition clear_played (t : Team.t) : Team.t :=
  {| Team.name := Team.name t;
     Team.schedule := Team.schedule t;
     Team.already_played_set := ∅ |}.

Definition reset (st : Sched) : Sched :=
  {| rng := rng st; teams := clear_played <$> teams st; s := s st |}.

Definition reset_sets : M unit := λ st, Done () (reset st).

(** The number of weeks [main] asks of [runScheduler] in pass [i]
    (lines 273-283). *)
Definition pass_weeks (weeks num_unique_matchups num_passes i : nat) : nat :=
  if decide (i < num_passes - 1) then num_unique_matchups
  else if decide (weeks mod num_unique_matchups = 0) then num_unique_matchups
  else weeks mod num_unique_matchups.

(** The [for i in range(num_passes)] loop of [main]; the value is the
    pair [(retVal, retry)], [retVal] being [None] while unbound. *)
Fixpoint passes (weeks num_unique_matchups num_passes : nat)
    (turns : list nat) (retVal : option bool) (retry : bool)
    : M (option bool * bool) :=
  match turns with
  | [] => mret (retVal, retry)
  | i :: turns' =>
      _ ← reset_sets;
      r ← runScheduler (pass_weeks weeks num_unique_matchups num_passes i);
      if decide (i < num_passes - 1) then
        if (r : bool)
        then passes weeks num_unique_matchups num_passes turns' (Some r) retry
        else mret (Some r, retry)
      else
        passes weeks num_unique_matchups num_passes turns' (Some r)
          (if (r : bool) then false else retry)
  end.

(** What [main] leaves behind. *)
Inductive main_result :=
  | Success (teams : list Team.t) (s : WeeklySchedule.t)
      (retries_needed : nat) (data : list nat) (g : G)
  | Crashed (e : exn)
  | OutOfFuel.

(** The [while retry] loop of [main]; [fuel] bounds the number of
    attempts, the loop itself has no bound. *)
Fixpoint main_loop (fuel : nat) (names : list string)
    (weeks num_unique_matchups num_passes : nat)
    (st : Sched) (retries_needed : nat) (data : list nat) : main_result :=
  match fuel with
  | 0 => OutOfFuel
  | S fuel' =>
      match passes weeks num_unique_matchups num_passes
              (seq 0 num_passes) None true st with
      | Raise e _ => Crashed e
      | Done (None, _) _ => Crashed UnboundLocalError
      | Done (Some retVal, retry) st' =>
          let '(st', retries_needed) :=
            if retVal then (st', retries_needed)
            else ({| rng := rng st'; teams := Team.new <$> names;
                     s := WeeklySchedule.new |}, S retries_needed) in
          if retry then
            main_loop fuel' names weeks num_unique_matchups num_passes
              st' retries_needed data
          else
            Success (teams st') (s st') retries_needed
              (data ++ [retries_needed]) (rng st')
      end
  end.

(** [main(names, weeks, debug_mode)].  [ambient] is the state of the
    module's generator when [main] is entered, [entropy] the state that
    [random.seed()] installs from the operating system; [retries_needed]
    and [data] are the module's globals.  Without a team
    [num_unique_matchups] is -1 in Python, [num_passes] is not positive, no
    pass runs and line 286 reads [retVal] unbound; with one team line 262
    divides by zero. *)
Definition main (fuel : nat) (ambient entropy : G) (names : list string)
    (weeks : nat) (retries_needed : nat) (data : list nat) : main_result :=
  let g := entropy in
  let teams := Team.new <$> names in
  let num_unique_matchups := length teams - 1 in
  let s := WeeklySchedule.new in
  if decide (length teams = 0) then Crashed UnboundLocalError
  else if decide (num_unique_matchups = 0) then Crashed ZeroDivisionError
  else
    let num_passes := ceil_div weeks num_unique_matchups in
    main_loop fuel names weeks num_unique_matchups num_passes
      {| rng := g; teams := teams; s := s |} retries_needed data.

End scheduler.

Arguments Done {G A} a st.
Arguments Raise {G A} e st.
Arguments Sched G : clear implicits.
Arguments outcome G A : clear implicits.
Arguments main_result G : clear implicits.

(** ** The utility [getTeamByName] *)

(** [getTeamByName(name, allTeams)]: the comprehension keeps the teams named
    [name] in the order of [allTeams] and [pop] takes the last of them;
    [inr IndexError] is the [pop] from an empty list. *)
Definition getTeamByName (teams : list Team.t) (name : string)
    (allTeams : list nat) : nat + exn :=
  match pop (filter (λ a, name_of teams a = name) allTeams) with
  | Some (a, _) => inl a
  | None => inr IndexError
  end.

(** ** The console and the built-ins of the interactive part *)

(** The built-in functions on strings that the interactive part calls:
    [int(s)] ([None] where Python raises [ValueError]), [s.strip()],
    [s.split()], and [str(mean(data))] of the module [statistics] for a
    list that is not empty. *)
Class Builtins := {
  int_of_str : string → option Z;
  str_strip : string → string;
  str_split : string → list string;
  str_mean : list nat → string
}.

(** The exceptions of the interactive part: the end of the input, the
    [StatisticsError] of [mean], and the exceptions of the scheduler. *)
Inductive io_exn :=
  | EOFError | StatisticsError | Py (e : exn).

(** The lines still to be read from the standard input and the strings
    written to the standard output so far. *)
Record console := Console {
  stdin : list string;
  stdout : list string
}.

(** A call returns, raises, or runs out of the fuel of its loops. *)
Inductive io (A : Type) :=
  | Ret (a : A) (c : console)
  | Exc (e : io_exn) (c : console)
  | Diverged.
Arguments Ret {A} a c.
Arguments Exc {A} e c.
Arguments Diverged {A}.

Definition IO (A : Type) : Type := console → io A.

#[global] Instance IO_ret : MRet IO := λ A a c, Ret a c.
#[global] Instance IO_bind : MBind IO := λ A B f m c,
  match m c with
  | Ret a c' => f a c'
  | Exc e c' => Exc e c'
  | Diverged => Diverged
  end.

Definition io_raise {A} (e : io_exn) : IO A := λ c, Exc e c.

(** The text that [print(a, b, ..., end=end_)] writes: the arguments
    separated by blanks, then [end_]. *)
Definition printed (args : list string) (end_ : string) : string :=
  String.concat " " args +:+ end_.

Definition print_end (args : list string) (end_ : string) : IO unit := λ c,
  Ret () {| stdin := stdin c; stdout := stdout c ++ [printed args end_] |}.

Definition print (args : list string) : IO unit := print_end args newline.

(** [input(prompt)]: the prompt is written, then a line is read;
    [EOFError] at the end of the input. *)
Definition input (prompt : string) : IO string := λ c,
  let out := stdout c ++ [prompt] in
  match stdin c with
  | [] => Exc EOFError {| stdin := []; stdout := out |}
  | line :: rest => Ret line {| stdin := rest; stdout := out |}
  end.

(** [for x in l: body(x)] *)
Fixpoint for_each {A} (l : list A) (body : A → IO unit) : IO unit :=
  match l with
  | [] => mret ()
  | x :: l' => _ ← body x; for_each l' body
  end.

(** [WeeklySchedule.printSchedule] *)
Definition WeeklySchedule_printSchedule (ws : WeeklySchedule.t) : IO unit :=
  for_each (seq 0 (length (WeeklySchedule.schedule ws)))
    (λ i, _ ← print ["Week " +:+ pretty (i + 1) +:+ newline +:+ "-------------"];
          print [WeeklySchedule.schedule ws !!! i; newline]).

Section interactive.
Context `{!Builtins}.

(** [int(val)] *)
Definition int (val : string) : IO Z :=
  match int_of_str val with
  | Some v => mret v
  | None => io_raise (Py ValueError)
  end.

(** The loop of lines 180-183; [fuel] bounds its turns. *)
Fixpoint reenter (fuel : nat) (val : Z) : IO Z :=
  if decide (val < 1)%Z then
    match fuel with
    | 0 => λ _, Diverged
    | S fuel' =>
        _ ← print ["The number must be greater than 0, or there is no point."%string];
        line ← input "Re-enter number --> ";
        val ← int (str_strip line);
        reenter fuel' val
    end
  else mret val.

(** [validatePosIntInput(val)]; [fuel] bounds the turns of the outer loop.
    A [ValueError] of the [try] block is handled as in lines 185-187, any
    other exception leaves the function. *)
Fixpoint validatePosIntInput (fuel : nat) (val : string) : IO Z :=
  match fuel with
  | 0 => λ _, Diverged
  | S fuel' => λ c,
      match (val ← int val; reenter fuel' val) c with
      | Ret val c' => Ret val c'
      | Exc (Py ValueError) c' =>
          (_ ← print ["Please enter a valid number greater than 0."%string];
           line ← input "Re-enter number --> ";
           validatePosIntInput fuel' (str_strip line)) c'
      | Exc e c' => Exc e c'
      | Diverged => Diverged
      end
  end.

(** The loop of lines 222-224; [fuel] bounds its turns. *)
Fixpoint reenter_names (fuel : nat) (names : list string) : IO (list string) :=
  if decide (length names mod 2 ≠ 0 ∨ length names = 0) then
    match fuel with
    | 0 => λ _, Diverged
    | S fuel' =>
        _ ← print ["There must be a positive even number of teams! Please re-enter names."%string];
        line ← input "--> ";
        reenter_names fuel' (str_split (str_strip line))
    end
  else mret names.

(** [mean(data)] as [print] shows it; [StatisticsError] without data. *)
Definition mean_of (data : list nat) : IO string :=
  match data with
  | [] => io_raise StatisticsError
  | _ => mret (str_mean data)
  end.

(** [max(data)] and [min(data)]; [ValueError] without data. *)
Definition max_of (data : list nat) : IO nat :=
  match data with
  | [] => io_raise (Py ValueError)
  | x :: l => mret (foldl Nat.max x l)
  end.

Definition min_of (data : list nat) : IO nat :=
  match data with
  | [] => io_raise (Py ValueError)
  | x :: l => mret (foldl Nat.min x l)
  end.

(** Lines 236-239: the statistics of a debug round. *)
Definition print_statistics (data : list nat) : IO unit :=
  m ← mean_of data;
  _ ← print ["MEAN:"%string; m];
  mx ← max_of data;
  _ ← print ["MAX:"%string; pretty mx; "(count="%string;
             pretty (length (filter (λ x, x = mx) data)); ")"%string];
  mn ← min_of data;
  _ ← print ["MIN:"%string; pretty mn; "(count="%string;
             pretty (length (filter (λ x, x = mn) data)); ")"%string];
  print ["1 or 0 (count="%string;
         pretty (length (filter (λ x, x = 1 ∨ x = 0) data)); ")"%string].

End interactive.

(** ** The program state of the interactive part *)

Section program.
Context {G : Type} `{!RandomGen G}.

(** The console, the generator of the module [random] with the number of
    calls of [random.seed()] so far, and the globals [retries_needed] and
    [data]. *)
Record world := World {
  con : console;
  gen : G;
  seeded : nat;
  retries_needed : nat;
  data : list nat
}.

Inductive wres (A : Type) :=
  | WRet (a : A) (w : world)
  | WExc (e : io_exn) (w : world)
  | WDiverged.
Arguments WRet {A} a w.
Arguments WExc {A} e w.
Arguments WDiverged {A}.

Definition W (A : Type) : Type := world → wres A.

#[global] Instance W_ret : MRet W := λ A a w, WRet a w.
#[global] Instance W_bind : MBind W := λ A B f m w,
  match m w with
  | WRet a w' => f a w'
  | WExc e w' => WExc e w'
  | WDiverged => WDiverged
  end.

Definition w_raise {A} (e : io_exn) : W A := λ w, WExc e w.

Definition set_con (c : console) (w : world) : world :=
  {| con := c; gen := gen w; seeded := seeded w;
     retries_needed := retries_needed w; data := data w |}.

Definition set_gen (g : G) : W unit := λ w,
  WRet () {| con := con w; gen := g; seeded := seeded w;
             retries_needed := retries_needed w; data := data w |}.

Definition set_retries_needed (r : nat) : W unit := λ w,
  WRet () {| con := con w; gen := gen w; seeded := seeded w;
             retries_needed := r; data := data w |}.

Definition set_data (d : list nat) : W unit := λ w,
  WRet () {| con := con w; gen := gen w; seeded := seeded w;
             retries_needed := retries_needed w; data := d |}.

Definition get_world : W world := λ w, WRet w w.

(** An action on the console as an action on the program state. *)
Definition lift_io {A} (m : IO A) : W A := λ w,
  match m (con w) with
  | Ret a c => WRet a (set_con c w)
  | Exc e c => WExc e (set_con c w)
  | Diverged => WDiverged
  end.

(** [random.seed()]: the generator takes the state that the operating
    system provides at this call. *)
Definition random_seed (entropy : nat → G) : W unit := λ w,
  WRet () {| con := con w; gen := entropy (seeded w); seeded := S (seeded w);
             retries_needed := retries_needed w; data := data w |}.

(** The [while retry] loop of [main] (lines 266-290) with what it prints
    and with the global [retries_needed]; the value is the scheduler state
    in which the loop ends. *)
Fixpoint main_attempts (debug_mode : bool) (fuel : nat) (names : list string)
    (weeks num_unique_matchups num_passes : nat) (st : Sched G)
    : W (Sched G) :=
  match fuel with
  | 0 => λ _, WDiverged
  | S fuel' =>
      match passes weeks num_unique_matchups num_passes
              (seq 0 num_passes) None true st with
      | Raise e st' => _ ← set_gen (rng st'); w_raise (Py e)
      | Done (None, _) st' =>
          _ ← set_gen (rng st'); w_raise (Py UnboundLocalError)
      | Done (Some retVal, retry) st' =>
          st' ←
            (if retVal then mret st'
             else
               _ ← (if debug_mode then mret ()
                    else lift_io (print ["dead end, retrying"%string]));
               w ← get_world;
               _ ← set_retries_needed (S (retries_needed w));
               mret {| rng := rng st'; teams := Team.new <$> names;
                       s := WeeklySchedule.new |});
          if retry then
            main_attempts debug_mode fuel' names weeks num_unique_matchups
              num_passes st'
          else mret st'
      end
  end.

(** [main(names, weeks, debug_mode)] with the globals and the output. *)
Definition main_w (entropy : nat → G) (fuel : nat) (names : list string)
    (weeks : nat) (debug_mode : bool) : W unit :=
  _ ← random_seed entropy;
  w ← get_world;
  let teams := Team.new <$> names in
  let num_unique_matchups := length teams - 1 in
  if decide (length teams = 0) then w_raise (Py UnboundLocalError)
  else if decide (num_unique_matchups = 0) then w_raise (Py ZeroDivisionError)
  else
    let num_passes := ceil_div weeks num_unique_matchups in
    st ← main_attempts debug_mode fuel names weeks num_unique_matchups
           num_passes
           {| rng := gen w; teams := teams; s := WeeklySchedule.new |};
    _ ← set_gen (rng st);
    w ← get_world;
    _ ← set_data (data w ++ [retries_needed w]);
    if debug_mode then mret ()
    else
      _ ← lift_io (print [newline +:+ "Success:" +:+ newline]);
      lift_io (WeeklySchedule_printSchedule (s st)).

Context `{!Builtins} (entropy : nat → G).

(** Lines 232-235: the trials of a debug round. *)
Fixpoint run_trials (fuel trials : nat) (names : list string) (weeks : nat)
    (debug_mode : bool) : W unit :=
  match trials with
  | 0 => mret ()
  | S trials' =>
      _ ← set_retries_needed 0;
      _ ← main_w entropy fuel names weeks debug_mode;
      run_trials fuel trials' names weeks debug_mode
  end.

(** [preMain()]; [fuel] bounds the turns of every loop without a bound. *)
Definition preMain (fuel : nat) : W bool :=
  _ ← set_data [];
  _ ← lift_io (print [newline +:+ "Welcome to the Fantasy Football Scheduler!"]);
  line ← lift_io (input "How many weeks should be scheduled? --> ");
  let weeks := str_strip line in
  let debug_mode := bool_decide (weeks = "debug"%string) in
  weeks ←
    (if debug_mode then
       _ ← lift_io (print ["[DEBUG MODE ACTIVATED]"%string]);
       line ← lift_io (input "How many weeks should be scheduled? --> ");
       mret (str_strip line)
     else mret weeks);
  weeks ← lift_io (validatePosIntInput fuel weeks);
  _ ← lift_io (print ["Enter names of teams, space-separated."%string]);
  line ← lift_io (input "--> ");
  names ← lift_io (reenter_names fuel (str_split (str_strip line)));
  if debug_mode then
    line ← lift_io (input "[DEBUG] How many trials should be performed? --> ");
    trials ← lift_io (validatePosIntInput fuel (str_strip line));
    _ ← run_trials fuel (Z.to_nat trials) names (Z.to_nat weeks) debug_mode;
    w ← get_world;
    _ ← lift_io (print_statistics (data w));
    line ← lift_io (input "Run again? [Y/N] --> ");
    mret (bool_decide (str_strip line = "Y"%string))
  else
    _ ← main_w entropy fuel names (Z.to_nat weeks) debug_mode;
    mret false.

(** The loop of line 197. *)
Fixpoint run_again (fuel : nat) (retVal : bool) : W unit :=
  if retVal then
    match fuel with
    | 0 => λ _, WDiverged
    | S fuel' => retVal ← preMain fuel; run_again fuel' retVal
    end
  else mret ().

(** [metaWrapper()] *)
Definition metaWrapper (fuel : nat) : W unit :=
  retVal ← preMain fuel;
  _ ← run_again fuel retVal;
  temp ← lift_io (input "Press any key to end");
  lift_io (print [newline +:+ "Goodbye."]).

End program.

Arguments world G : clear implicits.
Arguments wres G A : clear implicits.
Arguments W G A : clear implicits.
Arguments WRet {G A} a w.
Arguments WExc {G A} e w.
Arguments WDiverged {G A}.

(** ** A generator driven by a tape of draws

    Every draw takes the next number of the tape (0 once the tape is used
    up) modulo the number of alternatives.  [shuffle] builds its result by
    drawing the elements one after the other, so every order can be
    obtained from some tape. *)

Fixpoint tape_shuffle (n : nat) (g : list nat) (l : list nat)
    : list nat * list nat :=
  match n with
  | 0 => (g, [])
  | S n' =>
      let k := hd 0 g `mod` length l in
      match l !! k with
      | None => (g, [])
      | Some x =>
          let '(g', r) := tape_shuffle n' (tl g) (delete k l) in
          (g', x :: r)
      end
  end.

Definition tape_choice (g : list nat) (l : list nat) : list nat * option nat :=
  (tl g, l !! (hd 0 g `mod` length l)).

(** ** Specification: the checkers in the words of their contracts *)

(** The condition of the viability check in the words of its contract:
    with [R = U ∖ {c}], some [t ∈ R] has [R ⊆ t.already_played_set ∪ {t}]. *)
Definition strands (teams : list Team.t) (c : nat) (U : gset nat) : Prop :=
  let R := U ∖ {[c]} in
  set_Exists (λ t, R ⊆ played teams t ∪ {[t]}) R.

#[global] Instance strands_dec teams c U : Decision (strands teams c U).
Proof. unfold strands. apply _. Defined.


(** The preference of a candidate [c] for the picker [p] in the words of
    its contract: neither [p.already_played_set ∪ {c}] nor
    [c.already_played_set ∪ {p}] is the set of a team paired this week. *)
Definition prefers (teams : list Team.t) (p : nat) (paired : list nat)
    (c : nat) : Prop :=
  Forall (λ t, played teams t ≠ played teams p ∪ {[c]} ∧
               played teams t ≠ played teams c ∪ {[p]}) paired.

#[global] Instance prefers_dec teams p paired c :
  Decision (prefers teams p paired c).
Proof. unfold prefers. apply _. Defined.

(** The value of the variable [matches] when the opponent is selected
    (line 345), as the program computes it. *)
Definition surviving (teams : list Team.t) (w p : nat) (U2 : list nat)
    : list nat + exn :=
  let matches := filter (λ a, a ∉ played teams p) U2 in
  if decide (length U2 = 1) then inl matches
  else if viability_guard U2 w then refine teams U2 matches
  else inl matches.

(** The same list, with the comprehension written as a filter. *)
Definition candidates (teams : list Team.t) (w p : nat) (U2 : list nat)
    : list nat :=
  let matches := filter (λ a, a ∉ played teams p) U2 in
  if decide (length U2 = 1) then matches
  else if viability_guard U2 w
       then filter (λ a, ¬ strands teams a (list_to_set U2)) matches
       else matches.

(** The cycles of a schedule of [W] weeks for [N] participants, in the words
    of the orchestrator's contract. *)
Definition cycle_lengths (W N : nat) : list nat :=
  replicate (ceil_div W (N - 1) - 1) (N - 1)
  ++ [if decide (W mod (N - 1) = 0) then N - 1 else W mod (N - 1)].

(** The guard of the viability check as the claim words it: the pool
    size minus one against the weeks completed. *)
Definition guard_as_claimed (pool_size w : nat) : bool :=
  bool_decide (pool_size - 1 ≤ w).

(** The sets hold teams of the list only, nobody has played itself, and
    the relation is symmetric. *)
Definition played_ok (n : nat) (teams : list Team.t) : Prop :=
  ∀ x y, y ∈ played teams x → x < n ∧ y < n ∧ x ≠ y ∧ x ∈ played teams y.

(** Team [x] has [base + k] history entries, and the entries after the
    first [base] are the names of the teams of its set, each once. *)
Definition cycle_ok (base k : nat) (teams : list Team.t) (x : nat) : Prop :=
  length (schedule_of teams x) = base + k ∧
  drop base (schedule_of teams x) ≡ₚ name_of teams <$> elements (played teams x).

(** In week [j] the teams [x] and [y] have each other as opponent. *)
Definition paired_at (teams : list Team.t) (j x y : nat) : Prop :=
  schedule_of teams x !! j = Some (name_of teams y) ∧
  schedule_of teams y !! j = Some (name_of teams x).

(** In each of the first [k] weeks every team is paired with another. *)
Definition weeks_sym (n k : nat) (teams : list Team.t) : Prop :=
  ∀ j x, j < k → x < n → ∃ y, y < n ∧ y ≠ x ∧ paired_at teams j x y.

(** Histories are only appended to. *)
Definition grows (teams0 teams : list Team.t) : Prop :=
  ∀ x, schedule_of teams0 x `prefix_of` schedule_of teams x.

(** The state at the top of the matchup loop in week [w] of a pass that
    started after [base] weeks: [U] are the unscheduled, [S] the scheduled
    teams. *)
Record week_inv (names : list string) (teams0 : list Team.t) (base w : nat)
    (U S : list nat) (teams : list Team.t) (ws : WeeklySchedule.t) : Prop := {
  wi_names : Team.name <$> teams = names;
  wi_lists : U ++ S ≡ₚ seq 0 (length names);
  wi_played : played_ok (length names) teams;
  wi_unsched : ∀ x, x ∈ U → cycle_ok base w teams x;
  wi_sched : ∀ x, x ∈ S → cycle_ok base (1 + w) teams x;
  wi_sym : weeks_sym (length names) (base + w) teams;
  wi_paired : ∀ x, x ∈ S → ∃ y, y ∈ S ∧ y ≠ x ∧ paired_at teams (base + w) x y;
  wi_last : length U = 2 → ∀ x y, x ∈ U → y ∈ U → y ∉ played teams x;
  wi_index : 1 + WeeklySchedule.next_index ws = length (WeeklySchedule.schedule ws);
  wi_grows : grows teams0 teams
}.

(** The state between two weeks of a pass, [w] weeks of it being done. *)
Record pass_inv (names : list string) (teams0 : list Team.t) (base w : nat)
    (teams : list Team.t) (ws : WeeklySchedule.t) : Prop := {
  pi_names : Team.name <$> teams = names;
  pi_played : played_ok (length names) teams;
  pi_cycle : ∀ x, x < length names → cycle_ok base w teams x;
  pi_sym : weeks_sym (length names) (base + w) teams;
  pi_index : WeeklySchedule.next_index ws = length (WeeklySchedule.schedule ws);
  pi_grows : grows teams0 teams
}.

(** The state between two passes of an attempt, [total] weeks being
    scheduled; [d] is the length of a full pass. *)
Record attempt_inv (names : list string) (d total : nat)
    (teams : list Team.t) (ws : WeeklySchedule.t) : Prop := {
  ai_names : Team.name <$> teams = names;
  ai_length : ∀ x, x < length names → length (schedule_of teams x) = total;
  ai_sym : weeks_sym (length names) total teams;
  ai_index : WeeklySchedule.next_index ws = length (WeeklySchedule.schedule ws);
  ai_blocks : NoDup names → ∀ x c, x < length names →
    NoDup (take d (drop (c * d) (schedule_of teams x)))
}.

(** ** Specification: the states a run passes through *)

Section reachable.
Context {G : Type} `{!RandomGen G}.

(** The state after [random.shuffle(unscheduled_teams)]. *)
Definition shuffled (st : Sched G) (U : list nat) : Sched G :=
  {| rng := (shuffle (rng st) U).1; teams := teams st; s := s st |}.

(** The orchestrator in the words of its contract: one cycle after the
    other, each after clearing the sets, until a cycle fails. *)
Fixpoint run_cycles (lens : list nat) (st : Sched G) : outcome G bool :=
  match lens with
  | [] => Done true st
  | len :: rest =>
      match runScheduler len (reset st) with
      | Done true st' => run_cycles rest st'
      | Done false st' => Done false st'
      | Raise e st' => Raise e st'
      end
  end.

(** The retry loop in the words of the orchestrator's contract: every
    attempt starts with fresh participants and an empty schedule at the
    first cycle and runs the cycles [lens]; a dead end discards what the
    attempt built, adds one to the retry counter and starts the next
    attempt; on success the schedule and the counter are handed over.
    [fuel] bounds the number of attempts. *)
Fixpoint orchestrate (fuel : nat) (names : list string) (lens : list nat)
    (g : G) (retries : nat) (data : list nat) : main_result G :=
  match fuel with
  | 0 => OutOfFuel
  | S fuel' =>
      match run_cycles lens {| rng := g; teams := Team.new <$> names;
                               s := WeeklySchedule.new |} with
      | Done true st' =>
          Success (teams st') (s st') retries (data ++ [retries]) (rng st')
      | Done false st' =>
          orchestrate fuel' names lens (rng st') (S retries) data
      | Raise e _ => Crashed e
      end
  end.

(** The states in which [main] starts pass [i] of an attempt that began in
    [st0] (before the sets are cleared). *)
Inductive pass_entry (names : list string) (weeks : nat) (st0 : Sched G)
    : nat → Sched G → Prop :=
  | entry_first :
      teams st0 = Team.new <$> names →
      s st0 = WeeklySchedule.new →
      0 < ceil_div weeks (length names - 1) →
      pass_entry names weeks st0 0 st0
  | entry_next i st st' :
      pass_entry names weeks st0 i st →
      S i < ceil_div weeks (length names - 1) →
      runScheduler
        (pass_weeks weeks (length names - 1)
           (ceil_div weeks (length names - 1)) i) (reset st) = Done true st' →
      pass_entry names weeks st0 (S i) st'.

(** The states at the top of the matchup loop: turn [k] of week [w] of
    pass [i]; the lists are [(unscheduled_teams, scheduled_teams)]. *)
Inductive turn_entry (names : list string) (weeks : nat) (st0 : Sched G)
    : nat → nat → nat → list nat * list nat → Sched G → Prop :=
  | turn_first i w st st1 lists st2 :
      pass_entry names weeks st0 i st →
      w < pass_weeks weeks (length names - 1)
            (ceil_div weeks (length names - 1)) i →
      week_loop (seq 0 w) (reset st) = Done () st1 →
      0 < length names / 2 →
      start_week st1 = Done lists st2 →
      turn_entry names weeks st0 i w 0 lists st2
  | turn_next i w k lists st lists' st' :
      turn_entry names weeks st0 i w k lists st →
      S k < length names / 2 →
      matchup w k lists st = Done lists' st' →
      turn_entry names weeks st0 i w (S k) lists' st'.

End reachable.

(** ** Specification: runs that differ in the generator only *)

Section related.
Context {G1 G2 : Type} (R : G1 → G2 → Prop).

(** States, outcomes and results of [main] that agree up to a relation [R]
    between the generator states. *)
Definition state_R (st1 : Sched G1) (st2 : Sched G2) : Prop :=
  R (rng st1) (rng st2) ∧ teams st1 = teams st2 ∧ s st1 = s st2.

Definition outcome_R {A} (o1 : outcome G1 A) (o2 : outcome G2 A) : Prop :=
  match o1, o2 with
  | Done a1 st1, Done a2 st2 => a1 = a2 ∧ state_R st1 st2
  | Raise e1 st1, Raise e2 st2 => e1 = e2 ∧ state_R st1 st2
  | _, _ => False
  end.

Definition result_R (r1 : main_result G1) (r2 : main_result G2) : Prop :=
  match r1, r2 with
  | Success ts1 ws1 n1 d1 g1, Success ts2 ws2 n2 d2 g2 =>
      ts1 = ts2 ∧ ws1 = ws2 ∧ n1 = n2 ∧ d1 = d2 ∧ R g1 g2
  | Crashed e1, Crashed e2 => e1 = e2
  | OutOfFuel, OutOfFuel => True
  | _, _ => False
  end.
End related.

(** ** Specification: the weekly schedule and the schedules of the teams *)

(** The line that line 381 appends for the pair [(next_team, match)]. *)
Definition line_of (teams : list Team.t) (pm : nat * nat) : string :=
  name_of teams pm.1 +:+ " vs. " +:+ name_of teams pm.2 +:+ newline.

(** The text of a week whose pairs were committed in the order [pairs]. *)
Definition week_text (teams : list Team.t) (pairs : list (nat * nat)) : string :=
  foldl (λ text pm, text +:+ line_of teams pm) ""%string pairs.

(** The teams of a week's pairs, in the order of [scheduled_teams]. *)
Definition paired_teams (pairs : list (nat * nat)) : list nat :=
  pairs ≫= λ pm, [pm.1; pm.2].

(** The weekly schedule lists [total] weeks: week [j] is the text of pairs
    that cover the [n] teams, and each pair is the week-[j] entry of the
    schedules of both its teams. *)
Definition weekly_ok (n total : nat) (teams : list Team.t)
    (ws : WeeklySchedule.t) : Prop :=
  WeeklySchedule.next_index ws = total ∧
  ∃ weeks_pairs : list (list (nat * nat)),
    length weeks_pairs = total ∧
    WeeklySchedule.schedule ws = week_text teams <$> weeks_pairs ∧
    ∀ j pairs, weeks_pairs !! j = Some pairs →
      paired_teams pairs ≡ₚ seq 0 n ∧
      ∀ pm, pm ∈ pairs → paired_at teams j pm.1 pm.2.

(** The weekly schedule inside week [j]: the weeks before are the texts
    [old], and the text of the current week lists the pairs of
    [scheduled_teams], each pair being entry [j] of both schedules. *)
Definition turn_text (teams : list Team.t) (ws : WeeklySchedule.t) (j : nat)
    (old : list string) (scheduled_teams : list nat) : Prop :=
  length old = j ∧ WeeklySchedule.next_index ws = j ∧
  ∃ cur, WeeklySchedule.schedule ws = old ++ [week_text teams cur] ∧
         paired_teams cur = scheduled_teams ∧
         ∀ pm, pm ∈ cur → paired_at teams j pm.1 pm.2.

(** ** Specification: the interactive part *)

Section asking.
Context `{!Builtins}.

(** The value of an entry that is accepted: an integer of at least 1. *)
Definition valid (val : string) : option Z :=
  v ← int_of_str val; if decide (1 ≤ v)%Z then Some v else None.

(** The message that answers a rejected entry. *)
Definition complaint (val : string) : string :=
  match int_of_str val with
  | Some _ =>
      printed ["The number must be greater than 0, or there is no point."%string]
        newline
  | None => printed ["Please enter a valid number greater than 0."%string] newline
  end.

(** One entry after the other is examined, the first one being [val] and
    the next ones the stripped lines of the input; every rejected entry is
    answered by its message and the prompt for the next. *)
Fixpoint ask_until_valid (val : string) (lines out : list string) : io Z :=
  match valid val with
  | Some v => Ret v {| stdin := lines; stdout := out |}
  | None =>
      let out := out ++ [complaint val; "Re-enter number --> "%string] in
      match lines with
      | [] => Exc EOFError {| stdin := []; stdout := out |}
      | line :: rest => ask_until_valid (str_strip line) rest out
      end
  end.

(** Every number entered is below 2^53, so that the quotient of line 262,
    which Python computes in floating point, is exact. *)
Definition small_entries (c : console) : Prop :=
  Forall (λ line, match int_of_str (str_strip line) with
                  | Some v => (v < 2 ^ 53)%Z
                  | None => True
                  end) (stdin c).

#[global] Instance small_entries_dec c : Decision (small_entries c).
Proof.
  unfold small_entries. apply Forall_dec. intros line.
  destruct (int_of_str (str_strip line)); apply _.
Defined.

End asking.

(** The console after a run that wrote [texts]. *)
Definition wrote (texts : list string) (c : console) : console :=
  {| stdin := stdin c; stdout := stdout c ++ texts |}.

(** The two strings that [WeeklySchedule.printSchedule] writes for week
    [j] (counted from 0) with the text [text]. *)
Definition week_block (j : nat) (text : string) : list string :=
  [printed ["Week " +:+ pretty (j + 1) +:+ newline +:+ "-------------"] newline;
   printed [text; newline] newline].

(** The output of a run in standard mode that needed [retries] new
    attempts and scheduled the weeks [texts]. *)
Definition transcript (retries : nat) (texts : list string) : list string :=
  replicate retries (printed ["dead end, retrying"%string] newline)
  ++ [printed [newline +:+ "Success:" +:+ newline] newline]
  ++ mjoin (imap week_block texts).

(** A call on the console [c] that returns satisfies [Q], and the only
    exception that leaves it is [EOFError]. *)
Definition io_post {A} (m : IO A) (Q : A → console → Prop) (c : console) : Prop :=
  match m c with
  | Ret a c' => Q a c'
  | Exc e _ => e = EOFError
  | Diverged => True
  end.

(** The same for a call on the program state. *)
Definition w_post {G A} (m : W G A) (Q : A → world G → Prop) (w : world G)
    : Prop :=
  match m w with
  | WRet a w' => Q a w'
  | WExc e _ => e = EOFError
  | WDiverged => True
  end.

(** 1 when [y] is in the set [X], 0 otherwise. *)
Definition indicator (X : gset nat) (y : nat) : nat :=
  if decide (y ∈ X) then 1 else 0.

(** ** Inputs of the examples *)

(** Team names of the examples. *)
Definition six_names : list string := ["A"; "B"; "C"; "D"; "E"; "F"]%string.

Definition eight_names : list string :=
  ["A"; "B"; "C"; "D"; "E"; "F"; "G"; "H"]%string.

(** The state in which an attempt starts, for the tape generator. *)
Definition fresh (names : list string) (g : list nat) : Sched (list nat) :=
  {| rng := g; teams := Team.new <$> names; s := WeeklySchedule.new |}.

(** A tape on which the first attempt for eight teams and seven weeks runs
    into a dead end in its sixth week. *)
Definition dead_end_tape : list nat :=
  [7; 6; 1; 7; 4; 1; 4; 1; 6; 2; 6; 5; 4; 1; 3; 5; 4; 7; 3; 5; 5; 2;
   1; 7; 7; 0; 7; 6; 5; 3; 2; 2; 6; 5; 3; 0; 0; 0; 5; 2; 4; 0; 0; 7;
   3; 1; 6; 1; 0; 2; 1; 7; 4; 7; 2; 6; 3; 7; 7; 1; 3; 2; 7; 3; 2; 6;
   2; 5; 4; 3; 1; 0; 5; 0; 3; 1; 2; 6; 4; 3; 5; 1; 3; 5; 5; 1; 6; 6;
   7; 6; 5; 0; 6; 6; 7; 0; 1; 7; 4; 7; 5; 3; 4; 0; 1; 0; 5; 0; 3; 5;
   1; 7; 2; 5; 4; 4; 5; 4; 4; 0].

(** Built-ins for the examples: decimal numerals in ASCII with an optional
    minus sign, blanks as the only white space, and the mean rounded
    down. *)
Fixpoint digits_value (acc : Z) (l : list Ascii.ascii) : option Z :=
  match l with
  | [] => Some acc
  | a :: l' => d ← Ascii.is_nat a; digits_value (10 * acc + Z.of_nat d) l'
  end.

Definition decimal_int (s : string) : option Z :=
  match String.list_ascii_of_string s with
  | [] => None
  | a :: ds =>
      if decide (a = Ascii.ascii_of_nat 45) then
        match ds with
        | [] => None
        | _ => Z.opp <$> digits_value 0 ds
        end
      else digits_value 0 (a :: ds)
  end.

Fixpoint drop_blanks (s : string) : string :=
  match s with
  | String a s' => if Ascii.is_space a then drop_blanks s' else s
  | EmptyString => EmptyString
  end.

Definition blank_strip (s : string) : string :=
  String.rev (drop_blanks (String.rev (drop_blanks s))).

#[global] Instance decimal_builtins : Builtins := {|
  int_of_str := decimal_int;
  str_strip := blank_strip;
  str_split := String.words;
  str_mean data := pretty (sum_list data / length data)
|}.

(** The seeds of the examples: the tape that the call number [n] of
    [random.seed()] installs. *)
Definition example_entropy (n : nat) : list nat :=
  [2 + n; 0; 1; 3 + n; n].

(** The program state at the start of the examples, with the lines of the
    input. *)
Definition at_start (lines : list string) : world (list nat) :=
  {| con := {| stdin := lines; stdout := [] |}; gen := []; seeded := 0;
     retries_needed := 0; data := [] |}.

(** * Properties *)

(** ** The tape generator is a generator *)

Lemma tape_shuffle_Permutation n g l :
  length l = n → (tape_shuffle n g l).2 ≡ₚ l.
Proof.
  revert g l. induction n as [|n IH]; intros g l Hlen; simpl.
  - by destruct l.
  - destruct (l !! (hd 0 g `mod` length l)) as [x|] eqn:Hx.
    + specialize (IH (tl g) (delete (hd 0 g `mod` length l) l)).
      destruct (tape_shuffle n (tl g) _) as [g' r]; simpl in *.
      rewrite IH.
      * symmetry. by apply delete_Permutation.
      * rewrite length_delete; [lia | eauto].
    + apply lookup_ge_None in Hx.
      assert (hd 0 g `mod` length l < length l) by (apply Nat.mod_upper_bound; lia).
      lia.
Qed.

#[global] Program Instance tape_gen : RandomGen (list nat) := {|
  shuffle g l := tape_shuffle (length l) g l;
  choice := tape_choice
|}.
Next Obligation. intros g l. by apply tape_shuffle_Permutation. Qed.
Next Obligation.
  intros g l x Hx. simpl in Hx. by eapply list_elem_of_lookup_2.
Qed.
Next Obligation.
  intros g l. simpl. rewrite lookup_ge_None. split.
  - intros Hge. destruct l as [|y l]; [done|].
    assert (hd 0 g `mod` length (y :: l) < length (y :: l))
      by (apply Nat.mod_upper_bound; simpl; lia).
    lia.
  - intros ->. simpl. lia.
Qed.

(** ** Lists: [pop] and [remove_first] *)

Lemma pop_Some {A} (l l' : list A) x : pop l = Some (x, l') ↔ l = l' ++ [x].
Proof.
  unfold pop. split.
  - destruct (reverse l) as [|y r] eqn:Hr; [done|].
    intros [= -> <-]. apply (inj reverse). by rewrite reverse_snoc, reverse_involutive.
  - intros ->. by rewrite reverse_snoc, reverse_involutive.
Qed.

Lemma pop_None {A} (l : list A) : pop l = None ↔ l = [].
Proof.
  unfold pop. split.
  - destruct (reverse l) eqn:Hr; [|done]. intros _.
    apply (inj reverse). by rewrite Hr.
  - by intros ->.
Qed.

Lemma remove_first_Permutation x l l' :
  remove_first x l = Some l' → l ≡ₚ x :: l'.
Proof.
  revert l'. induction l as [|y l IH]; intros l'; simpl; [done|].
  case_decide as Hxy.
  - intros [= <-]. by subst.
  - destruct (remove_first x l) as [r|]; simpl; [|done].
    intros [= <-]. rewrite (IH r eq_refl). apply Permutation_swap.
Qed.

Lemma remove_first_is_Some x l : x ∈ l → is_Some (remove_first x l).
Proof.
  induction l as [|y l IH]; simpl.
  - by intros ?%elem_of_nil.
  - case_decide; [eauto|]. rewrite elem_of_cons.
    intros [?|Hin]; [done|]. destruct (IH Hin) as [r ->]. eauto.
Qed.

(** ** The heap of teams under [setMatchForTeam] *)

Section heap.
Implicit Types (teams : list Team.t) (p m x : nat).

Lemma setMatchForTeam_length teams p m :
  length (setMatchForTeam teams p m) = length teams.
Proof. unfold setMatchForTeam. by rewrite !length_alter. Qed.

Lemma alter_name_of (f : Team.t → Team.t) teams i x :
  (∀ t, Team.name (f t) = Team.name t) →
  name_of (alter f i teams) x = name_of teams x.
Proof.
  intros Hf. unfold name_of. rewrite list_lookup_total_alter.
  case_decide as Hi; [|done]. destruct Hi as [-> _]. apply Hf.
Qed.

Lemma setMatchForTeam_name_of teams p m x :
  name_of (setMatchForTeam teams p m) x = name_of teams x.
Proof. unfold setMatchForTeam. by rewrite !alter_name_of. Qed.

Lemma alter_names (f : Team.t → Team.t) teams i :
  (∀ t, Team.name (f t) = Team.name t) →
  Team.name <$> alter f i teams = Team.name <$> teams.
Proof.
  intros Hf. rewrite (list_fmap_alter _ _ id).
  - apply list_alter_id. done.
  - apply Forall_forall. intros t _. apply Hf.
Qed.

Lemma setMatchForTeam_names teams p m :
  Team.name <$> setMatchForTeam teams p m = Team.name <$> teams.
Proof. unfold setMatchForTeam. by rewrite !alter_names. Qed.

Lemma setMatchForTeam_lookup teams p m x :
  p ≠ m → p < length teams → m < length teams →
  setMatchForTeam teams p m !!! x =
    if decide (x = p) then
      add_played m (append_schedule (name_of teams m) (teams !!! p))
    else if decide (x = m) then
      add_played p (append_schedule (name_of teams p) (teams !!! m))
    else teams !!! x.
Proof.
  intros Hpm Hp Hm. unfold setMatchForTeam.
  rewrite alter_name_of by done.
  repeat case_decide; subst.
  - rewrite list_lookup_total_alter_ne by done.
    rewrite list_lookup_total_alter_eq by (by rewrite !length_alter).
    rewrite list_lookup_total_alter_ne by done.
    by rewrite list_lookup_total_alter_eq.
  - rewrite list_lookup_total_alter_eq by (by rewrite !length_alter).
    rewrite list_lookup_total_alter_ne by done.
    rewrite list_lookup_total_alter_eq by (by rewrite !length_alter).
    by rewrite list_lookup_total_alter_ne.
  - by rewrite !list_lookup_total_alter_ne.
Qed.

Lemma setMatchForTeam_played teams p m x :
  p ≠ m → p < length teams → m < length teams →
  played (setMatchForTeam teams p m) x =
    if decide (x = p) then played teams p ∪ {[m]}
    else if decide (x = m) then played teams m ∪ {[p]}
    else played teams x.
Proof.
  intros. unfold played. rewrite setMatchForTeam_lookup by done.
  by repeat case_decide.
Qed.

Lemma setMatchForTeam_schedule_of teams p m x :
  p ≠ m → p < length teams → m < length teams →
  schedule_of (setMatchForTeam teams p m) x =
    if decide (x = p) then schedule_of teams p ++ [name_of teams m]
    else if decide (x = m) then schedule_of teams m ++ [name_of teams p]
    else schedule_of teams x.
Proof.
  intros. unfold schedule_of. rewrite setMatchForTeam_lookup by done.
  by repeat case_decide.
Qed.
End heap.

(** ** The two checkers *)

Lemma testMatch_loop_true teams (R : gset nat) l :
  testMatch_loop teams R l = true ↔
  ∀ t, t ∈ l → ¬ R ⊆ played teams t ∪ {[t]}.
Proof.
  induction l as [|t l IH]; simpl.
  - split; [|done]. by intros _ t ?%elem_of_nil.
  - case_decide as Hsub.
    + split; [done|]. intros Hall. destruct (Hall t); [left|done].
    + rewrite IH. split.
      * intros Hall t' [->|?]%elem_of_cons; auto.
      * intros Hall t' ?. apply Hall. by right.
Qed.

Lemma testMatch_elem_of teams c (U : list nat) :
  c ∈ U → testMatch teams c U = inl (bool_decide (¬ strands teams c (list_to_set U))).
Proof.
  intros Hc. unfold testMatch.
  rewrite decide_True by (by apply elem_of_list_to_set).
  f_equal. apply eq_true_iff_eq.
  rewrite bool_decide_eq_true, testMatch_loop_true.
  unfold strands, set_Exists. split.
  - intros Hall (t & Ht & Hsub). apply (Hall t); [|done].
    by apply elem_of_elements.
  - intros Hno t Ht Hsub. apply Hno. exists t. split; [|done].
    by apply elem_of_elements in Ht.
Qed.

Lemma testMatch_not_elem_of teams c (U : list nat) :
  c ∉ U → testMatch teams c U = inr KeyError.
Proof.
  intros Hc. unfold testMatch. rewrite decide_False; [done|].
  by rewrite elem_of_list_to_set.
Qed.

Lemma refine_filter teams (U l : list nat) :
  l ⊆ U →
  refine teams U l = inl (filter (λ a, ¬ strands teams a (list_to_set U)) l).
Proof.
  induction l as [|a l IH]; intros Hsub; simpl; [done|].
  rewrite testMatch_elem_of by (apply Hsub; left).
  rewrite IH by (intros y ?; apply Hsub; by right).
  rewrite filter_cons. by case_bool_decide; case_decide.
Qed.

Lemma setIsUnique_true teams (A : gset nat) ts :
  setIsUnique teams A ts = true ↔ ∀ t, t ∈ ts → played teams t ≠ A.
Proof.
  induction ts as [|t ts IH]; simpl.
  - split; [|done]. by intros _ t ?%elem_of_nil.
  - case_decide as Heq.
    + split; [done|]. intros Hall. destruct (Hall t); [left|done].
    + rewrite IH. split.
      * intros Hall t' [->|?]%elem_of_cons; auto.
      * intros Hall t' ?. apply Hall. by right.
Qed.

(** ** Invariants of a pass *)

Lemma cycle_ok_same base k teams teams' x :
  schedule_of teams' x = schedule_of teams x →
  played teams' x = played teams x →
  (∀ z, name_of teams' z = name_of teams z) →
  cycle_ok base k teams x → cycle_ok base k teams' x.
Proof.
  intros Hs Hp Hn [Hlen Hperm]. unfold cycle_ok. rewrite Hs, Hp.
  split; [done|]. rewrite Hperm. by rewrite (list_fmap_ext _ _ _ (λ _ z _, Hn z)).
Qed.

Lemma cycle_ok_add base k teams teams' x y :
  schedule_of teams' x = schedule_of teams x ++ [name_of teams y] →
  played teams' x = played teams x ∪ {[y]} →
  (∀ z, name_of teams' z = name_of teams z) →
  y ∉ played teams x →
  cycle_ok base k teams x → cycle_ok base (S k) teams' x.
Proof.
  intros Hs Hp Hn Hy [Hlen Hperm]. unfold cycle_ok. rewrite Hs, Hp. split.
  - rewrite length_app. simpl. lia.
  - rewrite drop_app_le by lia. rewrite Hperm.
    rewrite (comm_L (∪) (played teams x)).
    rewrite (list_fmap_ext _ _ _ (λ _ z _, Hn z)).
    etrans; [|symmetry; apply fmap_Permutation, elements_union_singleton, Hy].
    by rewrite fmap_cons, <-Permutation_cons_append.
Qed.

Lemma cycle_ok_size base k teams x :
  cycle_ok base k teams x → size (played teams x) = k.
Proof.
  intros [Hlen Hperm]. apply Permutation_length in Hperm.
  rewrite length_drop, length_fmap in Hperm. unfold size, set_size. simpl. lia.
Qed.

Lemma cycle_ok_0 base teams x :
  cycle_ok base 0 teams x → played teams x = ∅.
Proof.
  intros H%cycle_ok_size. by apply size_empty_inv, leibniz_equiv in H.
Qed.

Lemma paired_at_grows teams teams' j x y :
  grows teams teams' →
  (∀ z, name_of teams' z = name_of teams z) →
  paired_at teams j x y → paired_at teams' j x y.
Proof.
  intros Hg Hn [H1 H2]. unfold paired_at. rewrite !Hn.
  split; eapply prefix_lookup_Some; eauto.
Qed.

Lemma setMatchForTeam_grows teams p m :
  p ≠ m → p < length teams → m < length teams →
  grows teams (setMatchForTeam teams p m).
Proof.
  intros ??? x. rewrite setMatchForTeam_schedule_of by done.
  repeat case_decide; subst; try done; by apply prefix_app_r.
Qed.

Lemma played_ok_setMatch n teams p m :
  played_ok n teams →
  p ≠ m → p < length teams → m < length teams → p < n → m < n →
  m ∉ played teams p →
  played_ok n (setMatchForTeam teams p m).
Proof.
  intros Hok Hpm Hpl Hml Hpn Hmn Hm x y.
  assert (Hp : p ∉ played teams m).
  { intros Hin. by apply Hok in Hin as (_ & _ & _ & ?). }
  rewrite !setMatchForTeam_played by done.
  destruct (decide (x = p)) as [->|Hxp]; [|destruct (decide (x = m)) as [->|Hxm]].
  - rewrite elem_of_union, elem_of_singleton. intros [Hin| ->].
    + destruct (Hok _ _ Hin) as (? & ? & ? & ?).
      rewrite decide_False by done.
      rewrite decide_False by (by intros ->). done.
    + rewrite decide_False by done. rewrite decide_True by done.
      split_and!; [done..|]. apply elem_of_union_r. by apply elem_of_singleton.
  - rewrite elem_of_union, elem_of_singleton. intros [Hin| ->].
    + destruct (Hok _ _ Hin) as (? & ? & ? & ?).
      rewrite decide_False by (by intros ->).
      rewrite decide_False by done. done.
    + rewrite decide_True by done.
      split_and!; [done..|]. apply elem_of_union_r. by apply elem_of_singleton.
  - intros Hin. destruct (Hok _ _ Hin) as (? & ? & ? & ?).
    split_and!; [done..|].
    repeat case_decide; subst; try done; by apply elem_of_union_l.
Qed.

Lemma week_inv_range names teams0 base w U S teams ws x :
  week_inv names teams0 base w U S teams ws →
  x ∈ U ++ S → x < length teams.
Proof.
  intros Hinv Hx. rewrite (wi_lists _ _ _ _ _ _ _ _ Hinv) in Hx.
  apply elem_of_seq in Hx. rewrite <-(wi_names _ _ _ _ _ _ _ _ Hinv), length_fmap in Hx. lia.
Qed.

Lemma week_inv_commit names teams0 base w U S teams ws p m U2 U3 ws' :
  week_inv names teams0 base w U S teams ws →
  U ≡ₚ p :: U2 →
  U2 ≡ₚ m :: U3 →
  m ∉ played teams p →
  (length U2 = 3 → 1 ≤ w → ¬ strands teams m (list_to_set U2)) →
  1 + WeeklySchedule.next_index ws' = length (WeeklySchedule.schedule ws') →
  week_inv names teams0 base w U3 (S ++ [p; m])
    (setMatchForTeam teams p m) ws'.
Proof.
  intros Hinv HU HU2 Hm Hstr Hidx.
  assert (HUS : p :: m :: U3 ++ S ≡ₚ seq 0 (length names)).
  { rewrite <-(wi_lists _ _ _ _ _ _ _ _ Hinv), HU, HU2. done. }
  assert (Hnd : NoDup (p :: m :: U3 ++ S)) by (rewrite HUS; apply NoDup_seq).
  assert (Hlen : length teams = length names).
  { by rewrite <-(wi_names _ _ _ _ _ _ _ _ Hinv), length_fmap. }
  assert (Hrange : ∀ x, x ∈ p :: m :: U3 ++ S → x < length teams).
  { intros x Hx. rewrite HUS in Hx. apply elem_of_seq in Hx. lia. }
  apply NoDup_cons in Hnd as [Hp Hnd].
  apply NoDup_cons in Hnd as [Hm' Hnd].
  apply NoDup_app in Hnd as (HndU3 & Hdisj & HndS).
  rewrite not_elem_of_cons, not_elem_of_app in Hp. destruct Hp as (Hpm & HpU3 & HpS).
  rewrite not_elem_of_app in Hm'. destruct Hm' as [HmU3 HmS].
  assert (Hpl : p < length teams) by (apply Hrange; set_solver).
  assert (Hml : m < length teams) by (apply Hrange; set_solver).
  assert (HpU : p ∈ U) by (rewrite HU; set_solver).
  assert (HmU : m ∈ U) by (rewrite HU, HU2; set_solver).
  assert (HU3U : ∀ x, x ∈ U3 → x ∈ U) by (intros x ?; rewrite HU, HU2; set_solver).
  pose proof (wi_played _ _ _ _ _ _ _ _ Hinv) as Hplayed.
  assert (Hpm' : p ∉ played teams m).
  { intros Hin. by apply Hplayed in Hin as (_ & _ & _ & ?). }
  pose proof (setMatchForTeam_name_of teams p m) as Hnames.
  pose proof (setMatchForTeam_grows teams p m Hpm Hpl Hml) as Hgrows.
  split.
  - rewrite setMatchForTeam_names. apply Hinv.
  - rewrite <-HUS. rewrite (assoc (++)), (comm (++) _ [p; m]). done.
  - apply played_ok_setMatch; try done; by rewrite <-Hlen.
  - intros x Hx. apply (cycle_ok_same _ _ teams); [| |done|by apply Hinv, HU3U].
    + rewrite setMatchForTeam_schedule_of by done.
      by rewrite !decide_False by (by intros ->).
    + rewrite setMatchForTeam_played by done.
      by rewrite !decide_False by (by intros ->).
  - intros x. rewrite elem_of_app, !elem_of_cons, elem_of_nil.
    intros [Hx|[->|[->|[]]]].
    + apply (cycle_ok_same _ _ teams); [| |done|by apply Hinv].
      * rewrite setMatchForTeam_schedule_of by done.
        by rewrite !decide_False by (by intros ->).
      * rewrite setMatchForTeam_played by done.
        by rewrite !decide_False by (by intros ->).
    + apply (cycle_ok_add _ _ teams _ _ m); [| |done|done|by apply Hinv].
      * rewrite setMatchForTeam_schedule_of by done. by rewrite decide_True.
      * rewrite setMatchForTeam_played by done. by rewrite decide_True.
    + apply (cycle_ok_add _ _ teams _ _ p); [| |done|done|by apply Hinv].
      * rewrite setMatchForTeam_schedule_of by done.
        rewrite decide_False by done. by rewrite decide_True.
      * rewrite setMatchForTeam_played by done.
        rewrite decide_False by done. by rewrite decide_True.
  - intros j x Hj Hx.
    destruct (wi_sym _ _ _ _ _ _ _ _ Hinv j x Hj Hx) as (y & ? & ? & ?).
    exists y. split_and!; [done..|]. by apply (paired_at_grows teams).
  - assert (Hnew : paired_at (setMatchForTeam teams p m) (base + w) p m).
    { destruct (wi_unsched _ _ _ _ _ _ _ _ Hinv p HpU) as [Hlp _].
      destruct (wi_unsched _ _ _ _ _ _ _ _ Hinv m HmU) as [Hlm _].
      unfold paired_at. rewrite !setMatchForTeam_schedule_of, !Hnames by done.
      rewrite decide_True by done. rewrite decide_False by done.
      rewrite decide_True by done.
      rewrite <-Hlp at 1. rewrite <-Hlm. by rewrite !list_lookup_middle. }
    intros x. rewrite elem_of_app, !elem_of_cons, elem_of_nil.
    intros [Hx|[->|[->|[]]]].
    + destruct (wi_paired _ _ _ _ _ _ _ _ Hinv x Hx) as (y & ? & ? & ?).
      exists y. split_and!; [set_solver|done|]. by apply (paired_at_grows teams).
    + exists m. split_and!; [set_solver|done|done].
    + exists p. split_and!; [set_solver|done|]. destruct Hnew. by split.
  - intros HlenU3 x y Hx Hy.
    rewrite setMatchForTeam_played by done.
    rewrite !decide_False by (by intros ->).
    destruct (decide (w = 0)) as [->|Hw].
    + rewrite (cycle_ok_0 base teams x); [set_solver|]. by apply Hinv, HU3U.
    + intros Hyx. apply Hstr; [|lia|].
      { rewrite HU2. simpl. lia. }
      destruct (Hplayed _ _ Hyx) as (_ & _ & Hxy & _).
      exists x. rewrite HU2, list_to_set_cons.
      split; [set_solver|].
      destruct U3 as [|a [|b [|??]]]; simplify_eq/=.
      set_solver.
  - done.
  - intros x. etrans; [apply Hinv|apply Hgrows].
Qed.

Lemma surviving_candidates teams w p U2 :
  surviving teams w p U2 = inl (candidates teams w p U2).
Proof.
  unfold surviving, candidates. case_decide; [done|].
  destruct (viability_guard U2 w); [|done].
  apply refine_filter. intros x Hx. by apply list_elem_of_filter in Hx as [_ ?].
Qed.

Lemma candidates_elem_of teams w p U2 m :
  m ∈ candidates teams w p U2 →
  m ∈ U2 ∧ (m ∉ played teams p) ∧
  (length U2 ≠ 1 → viability_guard U2 w = true →
   ¬ strands teams m (list_to_set U2)).
Proof.
  unfold candidates. case_decide as Hlen.
  - rewrite list_elem_of_filter. naive_solver.
  - destruct (viability_guard U2 w).
    + rewrite !list_elem_of_filter. naive_solver.
    + rewrite list_elem_of_filter. naive_solver.
Qed.

Section steps.

Context {G : Type} `{!RandomGen G}.

Implicit Types (st : Sched G).

Lemma random_choice_Done l st x st' :
  random_choice l st = Done x st' →
  (choice (rng st) l).2 = Some x ∧ x ∈ l ∧ teams st' = teams st ∧ s st' = s st.
Proof.
  unfold random_choice. pose proof (choice_elem_of (rng st) l) as Hel.
  destruct (choice (rng st) l) as [g [y|]]; [|done].
  intros [= -> <-]. simpl in *. auto.
Qed.

Lemma random_choice_Raise l st e st' :
  random_choice l st = Raise e st' →
  e = IndexError ∧ l = [] ∧ teams st' = teams st ∧ s st' = s st.
Proof.
  unfold random_choice. pose proof (choice_None (rng st) l) as Hn.
  destruct (choice (rng st) l) as [g [y|]]; [done|].
  intros [= <- <-]. simpl in *. split_and!; [done|by apply Hn|done..].
Qed.

Lemma select_match_eq w i p U2 S1 st :
  select_match w i p U2 S1 st =
    if decide (length U2 = 1) then
      match U2 with
      | x :: _ => Done x st
      | [] => Raise IndexError st
      end
    else
      match surviving (teams st) w p U2 with
      | inr e => Raise e st
      | inl matches =>
          if decide (i = 0) then random_choice matches st
          else
            match List.find (preferred (teams st) p S1) matches with
            | Some temp => Done temp st
            | None => random_choice matches st
            end
      end.
Proof.
  unfold select_match, surviving, mbind, mret, M_bind, M_ret, get, lift, raise.
  simpl. destruct (decide (length U2 = 1)); [by destruct U2|].
  destruct (viability_guard U2 w); simpl.
  - destruct (refine _ _ _); simpl; [|done].
    destruct (decide (i = 0)); [done|]. by destruct (List.find _ _).
  - destruct (decide (i = 0)); [done|]. by destruct (List.find _ _).
Qed.

Lemma select_match_Done w i p U2 S1 st m st' :
  (length U2 = 1 → ∀ x, x ∈ U2 → x ∉ played (teams st) p) →
  select_match w i p U2 S1 st = Done m st' →
  teams st' = teams st ∧ s st' = s st ∧ m ∈ candidates (teams st) w p U2.
Proof.
  intros Hlast. rewrite select_match_eq, surviving_candidates.
  case_decide as Hlen.
  - destruct U2 as [|x [|??]]; try done. intros [= -> <-].
    split_and!; [done..|]. unfold candidates. rewrite decide_True by done.
    apply list_elem_of_filter. split; [|left]. apply Hlast; [done|left].
  - case_decide.
    { intros (?&?&?&?)%random_choice_Done. done. }
    destruct (List.find _ _) as [temp|] eqn:Hfind.
    + intros [= -> <-]. apply find_some in Hfind as [Hin _].
      split_and!; [done..|]. by apply list_elem_of_In.
    + intros (?&?&?&?)%random_choice_Done. done.
Qed.

Lemma select_match_Raise w i p U2 S1 st e st' :
  select_match w i p U2 S1 st = Raise e st' →
  e = IndexError ∧ length U2 ≠ 1 ∧ candidates (teams st) w p U2 = [] ∧
  teams st' = teams st ∧ s st' = s st.
Proof.
  rewrite select_match_eq, surviving_candidates.
  case_decide as Hlen.
  - destruct U2 as [|x [|??]]; done.
  - case_decide.
    { intros (?&?&?&?)%random_choice_Raise. done. }
    destruct (List.find _ _) as [temp|] eqn:Hfind; [done|].
    intros (?&?&?&?)%random_choice_Raise. done.
Qed.

Lemma commit_Done p m U2 st U3 st' :
  commit p m U2 st = Done U3 st' →
  remove_first m U2 = Some U3 ∧
  teams st' = setMatchForTeam (teams st) p m ∧ rng st' = rng st ∧
  WeeklySchedule.next_index (s st') = WeeklySchedule.next_index (s st) ∧
  length (WeeklySchedule.schedule (s st')) = length (WeeklySchedule.schedule (s st)).
Proof.
  unfold commit. destruct (remove_first m U2) as [r|]; [|done].
  destruct (WeeklySchedule.schedule (s st) !! _) as [line|]; [|done].
  intros [= <- <-]. simpl. by rewrite length_insert.
Qed.

Lemma commit_Raise p m U2 st e st' :
  m ∈ U2 →
  WeeklySchedule.next_index (s st) < length (WeeklySchedule.schedule (s st)) →
  commit p m U2 st = Raise e st' → False.
Proof.
  intros Hm Hidx. unfold commit.
  destruct (remove_first_is_Some m U2 Hm) as [r ->].
  destruct (lookup_lt_is_Some_2 _ _ Hidx) as [line ->]. done.
Qed.

Lemma matchup_Done names teams0 base w i U S st U' S' st' :
  week_inv names teams0 base w U S (teams st) (s st) →
  matchup w i (U, S) st = Done (U', S') st' →
  week_inv names teams0 base w U' S' (teams st') (s st') ∧
  length U = 2 + length U'.
Proof.
  intros Hinv. unfold matchup, mbind, M_bind, random_shuffle.
  pose proof (shuffle_Permutation (rng st) U) as Hperm.
  destruct (shuffle (rng st) U) as [g shuffled]; simpl in Hperm.
  destruct (pop shuffled) as [[p U2]|] eqn:Hpop; [|done].
  apply pop_Some in Hpop. subst shuffled.
  assert (HU : U ≡ₚ p :: U2) by (by rewrite <-Hperm, <-Permutation_cons_append).
  set (st1 := {| rng := g; teams := teams st; s := s st |}).
  destruct (select_match w i p U2 (S ++ [p]) st1) as [m st2|] eqn:Hsel; [|done].
  apply select_match_Done in Hsel as (Hts & Hs & Hm); simpl in *.
  2:{ intros Hlen x Hx. apply (wi_last _ _ _ _ _ _ _ _ Hinv).
      - rewrite HU. simpl. lia.
      - rewrite HU. left.
      - rewrite HU. by right. }
  apply candidates_elem_of in Hm as (HmU2 & Hmp & Hstr).
  destruct (commit p m U2 st2) as [U3 st3|] eqn:Hcom; [|done].
  apply commit_Done in Hcom as (Hrem & Hts3 & _ & Hidx & Hlen).
  apply remove_first_Permutation in Hrem.
  intros [= <- <- <-]. split.
  - rewrite Hts3, Hts, <-(assoc (++)). simpl.
    eapply week_inv_commit; [done..| |].
    + intros Hl Hw. apply Hstr; [lia|]. unfold viability_guard.
      apply bool_decide_eq_true. lia.
    + rewrite Hidx, Hlen, Hs. apply Hinv.
  - rewrite HU, Hrem. simpl. lia.
Qed.

Lemma matchup_Raise names teams0 base w i U S st e st' :
  week_inv names teams0 base w U S (teams st) (s st) →
  U ≠ [] →
  matchup w i (U, S) st = Raise e st' →
  e = IndexError ∧
  ∃ p U2, (shuffle (rng st) U).2 = U2 ++ [p] ∧ length U2 ≠ 1 ∧
          candidates (teams st) w p U2 = [].
Proof.
  intros Hinv Hne. unfold matchup, mbind, M_bind, random_shuffle.
  pose proof (shuffle_Permutation (rng st) U) as Hperm.
  destruct (shuffle (rng st) U) as [g shuffled]; simpl in *.
  destruct (pop shuffled) as [[p U2]|] eqn:Hpop.
  2:{ apply pop_None in Hpop. subst. by apply Permutation_nil_l in Hperm. }
  apply pop_Some in Hpop. subst shuffled.
  assert (HU : U ≡ₚ p :: U2) by (by rewrite <-Hperm, <-Permutation_cons_append).
  set (st1 := {| rng := g; teams := teams st; s := s st |}).
  destruct (select_match w i p U2 (S ++ [p]) st1) as [m st2|e' st2] eqn:Hsel.
  - pose proof Hsel as Hsel'.
    apply select_match_Done in Hsel as (Hts & Hs & Hm); simpl in *.
    2:{ intros Hlen x Hx. apply (wi_last _ _ _ _ _ _ _ _ Hinv).
        - rewrite HU. simpl. lia.
        - rewrite HU. left.
        - rewrite HU. by right. }
    apply candidates_elem_of in Hm as (HmU2 & Hmp & Hstr).
    destruct (commit p m U2 st2) as [U3 st3|e'' st3] eqn:Hcom; [done|].
    apply commit_Raise in Hcom; [done..|].
    rewrite Hs. pose proof (wi_index _ _ _ _ _ _ _ _ Hinv). lia.
  - intros [= <- <-].
    apply select_match_Raise in Hsel as (-> & Hlen & Hc & Hts & Hs).
    split; [done|]. by exists p, U2.
Qed.

End steps.

Lemma even_half n : n mod 2 = 0 → n = 2 * (n / 2).
Proof. intros Hn. pose proof (Nat.div_mod_eq n 2). lia. Qed.

Lemma week_inv_start names teams0 base w teams ws :
  pass_inv names teams0 base w teams ws →
  (length names = 2 → w = 0) →
  week_inv names teams0 base w (seq 0 (length teams)) [] teams
    {| WeeklySchedule.schedule := WeeklySchedule.schedule ws ++ [""%string];
       WeeklySchedule.next_index := WeeklySchedule.next_index ws |}.
Proof.
  intros Hinv Hw.
  assert (Hlen : length teams = length names).
  { by rewrite <-(pi_names _ _ _ _ _ _ Hinv), length_fmap. }
  rewrite Hlen. split; try apply Hinv.
  - by rewrite app_nil_r.
  - intros x Hx%elem_of_seq. apply Hinv. lia.
  - by intros x ?%elem_of_nil.
  - by intros x ?%elem_of_nil.
  - rewrite length_seq. intros Hn x y Hx%elem_of_seq _.
    rewrite (cycle_ok_0 base teams x); [set_solver|].
    rewrite <-(Hw Hn). apply Hinv. lia.
  - simpl. rewrite length_app, (pi_index _ _ _ _ _ _ Hinv). simpl. lia.
Qed.

Lemma pass_inv_end names teams0 base w S teams ws :
  week_inv names teams0 base w [] S teams ws →
  pass_inv names teams0 base (1 + w) teams
    {| WeeklySchedule.schedule := WeeklySchedule.schedule ws;
       WeeklySchedule.next_index := 1 + WeeklySchedule.next_index ws |}.
Proof.
  intros Hinv. pose proof (wi_lists _ _ _ _ _ _ _ _ Hinv) as HS. simpl in HS.
  assert (Hin : ∀ x, x ∈ S ↔ x < length names).
  { intros x. rewrite HS, elem_of_seq. lia. }
  split; try apply Hinv.
  - intros x Hx. by apply Hinv, Hin.
  - intros j x Hj Hx. destruct (decide (j = base + w)) as [->|Hne].
    + destruct (wi_paired _ _ _ _ _ _ _ _ Hinv x) as (y & Hy & ? & ?).
      { by apply Hin. }
      exists y. split_and!; [by apply Hin|done..].
    + apply Hinv; [lia|done].
Qed.

Section passes.

Context {G : Type} `{!RandomGen G}.

Implicit Types (st : Sched G).

Lemma matchups_cons w i turns lists st :
  matchups w (i :: turns) lists st =
    match matchup w i lists st with
    | Done lists' st' => matchups w turns lists' st'
    | Raise e st' => Raise e st'
    end.
Proof. done. Qed.

Lemma week_loop_cons w ws st :
  week_loop (w :: ws) st =
    match week w st with
    | Done _ st' => week_loop ws st'
    | Raise e st' => Raise e st'
    end.
Proof. done. Qed.

Lemma matchups_Done names teams0 base w i k U S st U' S' st' :
  week_inv names teams0 base w U S (teams st) (s st) →
  length U = 2 * k →
  matchups w (seq i k) (U, S) st = Done (U', S') st' →
  week_inv names teams0 base w U' S' (teams st') (s st') ∧ U' = [].
Proof.
  revert i U S st. induction k as [|k IH]; intros i U S st Hinv Hlen; cbn [seq].
  - intros [= <- <- <-]. split; [done|].
    destruct U; [done|simpl in Hlen; lia].
  - rewrite matchups_cons.
    destruct (matchup w i (U, S) st) as [[U1 S1] st1|] eqn:Hm; [|done].
    apply (matchup_Done names teams0 base) in Hm as [Hinv1 Hlen1]; [|done].
    apply IH; [done|lia].
Qed.

Lemma matchups_Raise names teams0 base w i k U S st e st' :
  week_inv names teams0 base w U S (teams st) (s st) →
  length U = 2 * k →
  matchups w (seq i k) (U, S) st = Raise e st' →
  e = IndexError.
Proof.
  revert i U S st. induction k as [|k IH]; intros i U S st Hinv Hlen; cbn [seq].
  - done.
  - rewrite matchups_cons.
    destruct (matchup w i (U, S) st) as [[U1 S1] st1|e1 st1] eqn:Hm.
    + apply (matchup_Done names teams0 base) in Hm as [Hinv1 Hlen1]; [|done].
      apply IH; [done|lia].
    + intros [= <- <-].
      apply (matchup_Raise names teams0 base) in Hm as [? _]; [done..|].
      intros ->. simpl in Hlen. lia.
Qed.

Lemma week_eq w st :
  week w st =
    match matchups w (seq 0 (length (teams st) / 2))
            (seq 0 (length (teams st)), [])
            {| rng := rng st; teams := teams st;
               s := {| WeeklySchedule.schedule :=
                         WeeklySchedule.schedule (s st) ++ [""%string];
                       WeeklySchedule.next_index :=
                         WeeklySchedule.next_index (s st) |} |} with
    | Done _ st' => end_week st'
    | Raise e st' => Raise e st'
    end.
Proof. done. Qed.

Lemma week_Done names teams0 base w st st' :
  pass_inv names teams0 base w (teams st) (s st) →
  length names mod 2 = 0 →
  (length names = 2 → w = 0) →
  week w st = Done () st' →
  pass_inv names teams0 base (1 + w) (teams st') (s st').
Proof.
  intros Hinv Heven Hw. rewrite week_eq.
  assert (Hlen : length (teams st) = length names).
  { by rewrite <-(pi_names _ _ _ _ _ _ Hinv), length_fmap. }
  destruct (matchups _ _ _ _) as [[U' S'] st1|] eqn:Hm; [|done].
  apply (matchups_Done names teams0 base) in Hm as [Hinv1 ->].
  - intros [= <-]. simpl. by eapply pass_inv_end.
  - simpl. by apply week_inv_start.
  - rewrite length_seq, Hlen. by apply even_half.
Qed.

Lemma week_Raise names teams0 base w st e st' :
  pass_inv names teams0 base w (teams st) (s st) →
  length names mod 2 = 0 →
  (length names = 2 → w = 0) →
  week w st = Raise e st' →
  e = IndexError.
Proof.
  intros Hinv Heven Hw. rewrite week_eq.
  assert (Hlen : length (teams st) = length names).
  { by rewrite <-(pi_names _ _ _ _ _ _ Hinv), length_fmap. }
  destruct (matchups _ _ _ _) as [[U' S'] st1|e1 st1] eqn:Hm; [done|].
  intros [= <- <-].
  eapply (matchups_Raise names teams0 base) in Hm; [done| |].
  - simpl. by apply week_inv_start.
  - rewrite length_seq, Hlen. by apply even_half.
Qed.

Lemma week_loop_Done names teams0 base w k st st' :
  pass_inv names teams0 base w (teams st) (s st) →
  length names mod 2 = 0 →
  w + k ≤ length names - 1 →
  week_loop (seq w k) st = Done () st' →
  pass_inv names teams0 base (w + k) (teams st') (s st').
Proof.
  revert w st. induction k as [|k IH]; intros w st Hinv Heven Hk; cbn [seq].
  - intros [= <-]. by rewrite Nat.add_0_r.
  - rewrite week_loop_cons. destruct (week w st) as [[] st1|] eqn:Hw; [|done].
    apply (week_Done names teams0 base) in Hw; [|done..|lia].
    intros Hloop. apply IH in Hloop; [|done..|lia].
    by replace (w + S k) with (S w + k) by lia.
Qed.

Lemma week_loop_Raise names teams0 base w k st e st' :
  pass_inv names teams0 base w (teams st) (s st) →
  length names mod 2 = 0 →
  w + k ≤ length names - 1 →
  week_loop (seq w k) st = Raise e st' →
  e = IndexError.
Proof.
  revert w st. induction k as [|k IH]; intros w st Hinv Heven Hk; cbn [seq].
  - done.
  - rewrite week_loop_cons. destruct (week w st) as [[] st1|e1 st1] eqn:Hw.
    + apply (week_Done names teams0 base) in Hw; [|done..|lia].
      intros Hloop. apply IH in Hloop; [done..|lia].
    + intros [= <- <-].
      apply (week_Raise names teams0 base) in Hw; [done..|lia].
Qed.

Lemma runScheduler_Done names teams0 base weeks st b st' :
  pass_inv names teams0 base 0 (teams st) (s st) →
  length names mod 2 = 0 →
  weeks ≤ length names - 1 →
  runScheduler weeks st = Done b st' →
  b = true →
  pass_inv names teams0 base weeks (teams st') (s st').
Proof.
  intros Hinv Heven Hw. unfold runScheduler.
  destruct (week_loop (seq 0 weeks) st) as [[] st1|e st1] eqn:Hloop.
  - intros [= <- <-] _.
    by apply (week_loop_Done names teams0 base 0 weeks) in Hloop.
  - destruct e; try done. by intros [= <- <-].
Qed.

Lemma runScheduler_Raise names teams0 base weeks st e st' :
  pass_inv names teams0 base 0 (teams st) (s st) →
  length names mod 2 = 0 →
  weeks ≤ length names - 1 →
  runScheduler weeks st = Raise e st' → False.
Proof.
  intros Hinv Heven Hw. unfold runScheduler.
  destruct (week_loop (seq 0 weeks) st) as [[] st1|e1 st1] eqn:Hloop; [done|].
  apply (week_loop_Raise names teams0 base 0 weeks) in Hloop; [|done..].
  by subst.
Qed.

End passes.

Lemma lookup_total_fmap_Team (f : Team.t → Team.t) (teams : list Team.t) x :
  f inhabitant = inhabitant → (f <$> teams) !!! x = f (teams !!! x).
Proof.
  intros Hf. rewrite !list_lookup_total_alt, list_lookup_fmap.
  by destruct (teams !! x).
Qed.

Lemma played_clear (teams : list Team.t) x : played (clear_played <$> teams) x = ∅.
Proof.
  unfold played. rewrite lookup_total_fmap_Team by done. done.
Qed.

Lemma schedule_of_clear (teams : list Team.t) x :
  schedule_of (clear_played <$> teams) x = schedule_of teams x.
Proof. unfold schedule_of. by rewrite lookup_total_fmap_Team. Qed.

Lemma name_of_clear (teams : list Team.t) x :
  name_of (clear_played <$> teams) x = name_of teams x.
Proof. unfold name_of. by rewrite lookup_total_fmap_Team. Qed.

Lemma names_clear (teams : list Team.t) :
  Team.name <$> (clear_played <$> teams) = Team.name <$> teams.
Proof. rewrite <-list_fmap_compose. by apply list_fmap_ext. Qed.

Lemma names_new (names : list string) : Team.name <$> (Team.new <$> names) = names.
Proof. rewrite <-list_fmap_compose. by rewrite <-(list_fmap_id names) at 2. Qed.

Lemma schedule_of_new (names : list string) x : schedule_of (Team.new <$> names) x = [].
Proof.
  unfold schedule_of. rewrite list_lookup_total_alt, list_lookup_fmap.
  by destruct (names !! x).
Qed.

Lemma weeks_sym_ext n k teams teams' :
  (∀ x, schedule_of teams' x = schedule_of teams x) →
  (∀ x, name_of teams' x = name_of teams x) →
  weeks_sym n k teams → weeks_sym n k teams'.
Proof.
  intros Hs Hn Hsym j x Hj Hx. destruct (Hsym j x Hj Hx) as (y & ? & ? & H1 & H2).
  exists y. split_and!; [done..|]. unfold paired_at. by rewrite !Hs, !Hn.
Qed.

Lemma attempt_inv_new names d :
  attempt_inv names d 0 (Team.new <$> names) WeeklySchedule.new.
Proof.
  split.
  - apply names_new.
  - intros x _. by rewrite schedule_of_new.
  - intros j x Hj. lia.
  - done.
  - intros _ x c _. rewrite schedule_of_new, drop_nil, take_nil. constructor.
Qed.

Lemma pass_inv_reset names d base teams ws :
  attempt_inv names d base teams ws →
  pass_inv names (clear_played <$> teams) base 0 (clear_played <$> teams) ws.
Proof.
  intros Hinv. split.
  - rewrite names_clear. apply Hinv.
  - intros x y. rewrite played_clear. set_solver.
  - intros x Hx. split.
    + rewrite schedule_of_clear, Nat.add_0_r. by apply Hinv.
    + rewrite played_clear, elements_empty, schedule_of_clear.
      rewrite drop_ge; [done|]. by rewrite (ai_length _ _ _ _ _ Hinv).
  - rewrite Nat.add_0_r.
    apply (weeks_sym_ext _ _ teams); [apply schedule_of_clear|apply name_of_clear|].
    apply Hinv.
  - apply Hinv.
  - by intros x.
Qed.

Lemma name_of_inj names teams x y :
  Team.name <$> teams = names → NoDup names →
  x < length names → y < length names →
  name_of teams x = name_of teams y → x = y.
Proof.
  intros Hn Hnd Hx Hy. unfold name_of. rewrite !list_lookup_total_alt.
  assert (Hlen : length teams = length names) by (by rewrite <-Hn, length_fmap).
  destruct (lookup_lt_is_Some_2 teams x) as [tx Htx]; [lia|].
  destruct (lookup_lt_is_Some_2 teams y) as [ty Hty]; [lia|].
  rewrite Htx, Hty. simpl. intros Heq.
  eapply (NoDup_lookup names); [done| |].
  - rewrite <-Hn, list_lookup_fmap, Htx. done.
  - rewrite <-Hn, list_lookup_fmap, Hty. simpl. by rewrite Heq.
Qed.

Lemma blocks_app {A} d c0 (l blk : list A) :
  length l = c0 * d → length blk ≤ d →
  (∀ c, NoDup (take d (drop (c * d) l))) →
  NoDup blk →
  ∀ c, NoDup (take d (drop (c * d) (l ++ blk))).
Proof.
  intros Hl Hb Hold Hnd c. destruct (decide (c < c0)) as [Hc|Hc].
  - rewrite drop_app_le by nia. rewrite take_app_le; [apply Hold|].
    rewrite length_drop. nia.
  - rewrite drop_app_ge by nia.
    eapply sublist_NoDup; [done|].
    etrans; [apply sublist_take|apply sublist_drop].
Qed.

Lemma prefix_app_drop {A} (l1 l2 : list A) :
  l1 `prefix_of` l2 → l2 = l1 ++ drop (length l1) l2.
Proof. intros [k ->]. by rewrite drop_app_length. Qed.

Lemma attempt_inv_pass names d c0 weeks teams ws teams' ws' :
  attempt_inv names d (c0 * d) teams ws →
  weeks ≤ d →
  pass_inv names (clear_played <$> teams) (c0 * d) weeks teams' ws' →
  attempt_inv names d (c0 * d + weeks) teams' ws'.
Proof.
  intros Hinv Hw Hpass. split; [apply Hpass| |apply Hpass..|].
  - intros x Hx. by destruct (pi_cycle _ _ _ _ _ _ Hpass x Hx).
  - intros Hnd x c Hx.
    pose proof (pi_grows _ _ _ _ _ _ Hpass x) as Hpre.
    rewrite schedule_of_clear in Hpre. apply prefix_app_drop in Hpre.
    rewrite (ai_length _ _ _ _ _ Hinv x Hx) in Hpre.
    destruct (pi_cycle _ _ _ _ _ _ Hpass x Hx) as [Hlen Hperm].
    rewrite Hpre. apply (blocks_app d c0).
    + by apply Hinv.
    + rewrite length_drop. lia.
    + intros c'. by apply Hinv.
    + rewrite Hperm. apply NoDup_fmap_2_strong; [|apply NoDup_elements].
      intros a b Ha%elem_of_elements Hb%elem_of_elements.
      apply (pi_played _ _ _ _ _ _ Hpass) in Ha as (_ & ? & _).
      apply (pi_played _ _ _ _ _ _ Hpass) in Hb as (_ & ? & _).
      apply (name_of_inj names); [apply Hpass|done..].
Qed.

Lemma pass_weeks_le weeks d np i : 1 ≤ d → pass_weeks weeks d np i ≤ d.
Proof.
  intros Hd. unfold pass_weeks. repeat case_decide; try lia.
  pose proof (Nat.mod_upper_bound weeks d). lia.
Qed.

Lemma pass_weeks_full weeks d np i :
  i < np - 1 → pass_weeks weeks d np i = d.
Proof. intros Hi. unfold pass_weeks. by rewrite decide_True. Qed.

Lemma pass_weeks_total weeks d :
  1 ≤ d → 1 ≤ ceil_div weeks d →
  (ceil_div weeks d - 1) * d
    + pass_weeks weeks d (ceil_div weeks d) (ceil_div weeks d - 1) = weeks.
Proof.
  intros Hd. unfold pass_weeks. rewrite decide_False by lia.
  unfold ceil_div. pose proof (Nat.div_mod_eq weeks d).
  case_decide as Hmod; [|nia].
  destruct (weeks / d); [lia|nia].
Qed.

Section attempts.

Context {G : Type} `{!RandomGen G}.

Implicit Types (st : Sched G).

Lemma passes_cons weeks d np i turns rv retry st :
  passes weeks d np (i :: turns) rv retry st =
    match runScheduler (pass_weeks weeks d np i) (reset st) with
    | Done r st1 =>
        if decide (i < np - 1) then
          if r then passes weeks d np turns (Some r) retry st1
          else Done (Some r, retry) st1
        else passes weeks d np turns (Some r) (if r then false else retry) st1
    | Raise e st1 => Raise e st1
    end.
Proof.
  cbn [passes]. unfold mbind, M_bind, reset_sets, reset. simpl.
  destruct (runScheduler _ _) as [r st1|]; [|done].
  case_decide; [|done]. by destruct r.
Qed.

Lemma passes_Done names weeks i k rv retry st rv' retry' st' :
  let d := length names - 1 in
  let np := ceil_div weeks d in
  attempt_inv names d (i * d) (teams st) (s st) →
  length names mod 2 = 0 → 1 ≤ d →
  i + k = np → 1 ≤ k →
  passes weeks d np (seq i k) rv retry st = Done (rv', retry') st' →
  (rv' = Some true ∧ retry' = false ∧
   attempt_inv names d weeks (teams st') (s st')) ∨
  (rv' = Some false ∧ retry' = retry).
Proof.
  intros d np. revert i rv st.
  induction k as [|k IH]; intros i rv st Hinv Heven Hd Hik Hk; [lia|].
  cbn [seq]. rewrite passes_cons.
  pose proof (pass_inv_reset _ _ _ _ _ Hinv) as Hpass.
  pose proof (pass_weeks_le weeks d np i Hd) as Hle.
  destruct (runScheduler _ _) as [r st1|] eqn:Hrun; [|done].
  destruct r.
  - eapply (runScheduler_Done names) in Hrun; [|done..].
    simpl in Hrun. eapply attempt_inv_pass in Hrun; [|done..].
    case_decide as Hi.
    + rewrite pass_weeks_full in Hrun by done.
      apply IH; [|done..|lia|lia].
      by replace (S i * d) with (i * d + d) by lia.
    + destruct k; [|lia]. cbn [seq passes].
      intros [= <- <- <-]. left. split_and!; [done..|].
      assert (i = np - 1) as -> by lia.
      unfold d, np in *. by rewrite pass_weeks_total in Hrun by (done || lia).
  - case_decide as Hi.
    + intros [= <- <- <-]. by right.
    + destruct k; [|lia]. cbn [seq passes].
      intros [= <- <- <-]. by right.
Qed.

Lemma passes_Raise names weeks i k rv retry st e st' :
  let d := length names - 1 in
  let np := ceil_div weeks d in
  attempt_inv names d (i * d) (teams st) (s st) →
  length names mod 2 = 0 → 1 ≤ d →
  i + k = np →
  passes weeks d np (seq i k) rv retry st = Raise e st' → False.
Proof.
  intros d np. revert i rv st.
  induction k as [|k IH]; intros i rv st Hinv Heven Hd Hik; [done|].
  cbn [seq]. rewrite passes_cons.
  pose proof (pass_inv_reset _ _ _ _ _ Hinv) as Hpass.
  pose proof (pass_weeks_le weeks d np i Hd) as Hle.
  destruct (runScheduler _ _) as [r st1|e1 st1] eqn:Hrun.
  - destruct r.
    + eapply (runScheduler_Done names) in Hrun; [|done..].
      simpl in Hrun. eapply attempt_inv_pass in Hrun; [|done..].
      case_decide as Hi.
      * rewrite pass_weeks_full in Hrun by done.
        apply IH; [|done..|lia].
        by replace (S i * d) with (i * d + d) by lia.
      * destruct k; [done|lia].
    + case_decide as Hi; [done|]. destruct k; [done|lia].
  - by eapply (runScheduler_Raise names) in Hrun.
Qed.

Lemma main_loop_Success fuel names weeks st r data ts ws r' data' g :
  let d := length names - 1 in
  let np := ceil_div weeks d in
  teams st = Team.new <$> names → s st = WeeklySchedule.new →
  length names mod 2 = 0 → 1 ≤ d →
  main_loop fuel names weeks d np st r data = Success ts ws r' data' g →
  attempt_inv names d weeks ts ws ∧ r ≤ r' ∧ data' = data ++ [r'].
Proof.
  intros d np. revert st r.
  induction fuel as [|fuel IH]; intros st r Hts Hs Heven Hd; [done|].
  cbn [main_loop].
  destruct (passes _ _ _ _ _ _ _) as [[[b|] retry] st1|] eqn:Hp; [|done..].
  destruct (decide (np = 0)) as [Hnp|Hnp].
  { fold np in Hp. rewrite Hnp in Hp. done. }
  eapply (passes_Done names weeks 0 np) in Hp; [|try done; try lia..].
  2:{ rewrite Hts, Hs. apply attempt_inv_new. }
  destruct Hp as [([= ->] & -> & Hinv)|([= ->] & ->)].
  - intros [= <- <- <- <- <-]. done.
  - intros Hloop. apply IH in Hloop as (? & ? & ?); [|done..].
    split_and!; [done|lia|done].
Qed.

Lemma main_Success fuel ambient entropy names weeks r data ts ws r' data' g :
  length names mod 2 = 0 →
  main fuel ambient entropy names weeks r data = Success ts ws r' data' g →
  2 ≤ length names ∧
  attempt_inv names (length names - 1) weeks ts ws ∧
  r ≤ r' ∧ data' = data ++ [r'].
Proof.
  intros Heven. unfold main. rewrite length_fmap.
  case_decide as Hn; [done|]. case_decide as Hd; [done|].
  intros Hloop. apply main_loop_Success in Hloop; [|done..|lia].
  split; [lia|done].
Qed.

End attempts.

Section reach.

Context {G : Type} `{!RandomGen G}.

Implicit Types (st : Sched G).

Lemma pass_entry_inv names weeks st0 i st :
  pass_entry names weeks st0 i st →
  length names mod 2 = 0 → 1 ≤ length names - 1 →
  attempt_inv names (length names - 1) (i * (length names - 1))
    (teams st) (s st) ∧
  i < ceil_div weeks (length names - 1).
Proof.
  intros Hreach Heven Hd. induction Hreach as [Hts Hs Hnp|i st st' _ IH Hi Hrun].
  - split; [|done]. rewrite Hts, Hs. apply attempt_inv_new.
  - destruct IH as [Hinv _]. split; [|done].
    pose proof (pass_inv_reset _ _ _ _ _ Hinv) as Hpass.
    pose proof (pass_weeks_le weeks (length names - 1)
                  (ceil_div weeks (length names - 1)) i Hd) as Hle.
    eapply (runScheduler_Done names) in Hrun; [|done..].
    eapply attempt_inv_pass in Hrun; [|done..].
    rewrite pass_weeks_full in Hrun by lia.
    by replace (S i * (length names - 1))
      with (i * (length names - 1) + (length names - 1)) by lia.
Qed.

Lemma pass_entry_passes names weeks st0 i st :
  pass_entry names weeks st0 i st →
  ∃ rv, passes weeks (length names - 1) (ceil_div weeks (length names - 1))
          (seq 0 (ceil_div weeks (length names - 1))) None true st0 =
        passes weeks (length names - 1) (ceil_div weeks (length names - 1))
          (seq i (ceil_div weeks (length names - 1) - i)) rv true st.
Proof.
  induction 1 as [Hts Hs Hnp|i st st' _ [rv IH] Hi Hrun].
  - exists None. by rewrite Nat.sub_0_r.
  - exists (Some true). rewrite IH.
    replace (ceil_div weeks (length names - 1) - i)
      with (S (ceil_div weeks (length names - 1) - S i)) by lia.
    cbn [seq]. rewrite passes_cons, Hrun. by rewrite decide_True by lia.
Qed.

Lemma week_loop_app l1 l2 st :
  week_loop (l1 ++ l2) st =
    match week_loop l1 st with
    | Done _ st' => week_loop l2 st'
    | Raise e st' => Raise e st'
    end.
Proof.
  revert st. induction l1 as [|w l1 IH]; intros st; [done|].
  rewrite <-app_comm_cons, !week_loop_cons.
  destruct (week w st) as [[] st1|]; [apply IH|done].
Qed.

(** A dead end of a week is a dead end of the whole attempt. *)
Lemma week_fail_passes names weeks st0 i st w st1 st' :
  pass_entry names weeks st0 i st →
  w < pass_weeks weeks (length names - 1)
        (ceil_div weeks (length names - 1)) i →
  week_loop (seq 0 w) (reset st) = Done () st1 →
  week w st1 = Raise IndexError st' →
  passes weeks (length names - 1) (ceil_div weeks (length names - 1))
    (seq 0 (ceil_div weeks (length names - 1))) None true st0 =
  Done (Some false, true) st'.
Proof.
  intros Hentry Hw Hloop Hweek.
  destruct (pass_entry_passes _ _ _ _ _ Hentry) as [rv ->].
  assert (Hi : i < ceil_div weeks (length names - 1)).
  { inversion Hentry; lia. }
  set (np := ceil_div weeks (length names - 1)) in *.
  set (d := length names - 1) in *.
  replace (np - i) with (S (np - S i)) by lia.
  cbn [seq]. rewrite passes_cons.
  assert (Hrun : runScheduler (pass_weeks weeks d np i) (reset st)
                 = Done false st').
  { unfold runScheduler.
    replace (pass_weeks weeks d np i)
      with (w + S (pass_weeks weeks d np i - S w)) by lia.
    rewrite seq_app, week_loop_app, Hloop, Nat.add_0_l. cbn [seq].
    by rewrite week_loop_cons, Hweek. }
  rewrite Hrun. case_decide as Hlt; [done|].
  replace (np - S i) with 0 by lia. done.
Qed.

Lemma turn_entry_inv names weeks st0 i w k U S st :
  turn_entry names weeks st0 i w k (U, S) st →
  length names mod 2 = 0 →
  ∃ teams0,
    week_inv names teams0 (i * (length names - 1)) w U S (teams st) (s st) ∧
    length U + 2 * k = length names ∧ k < length names / 2.
Proof.
  intros Hreach Heven.
  remember (U, S) as lists eqn:Hl. revert U S Hl.
  induction Hreach as [i w st st1 lists st2 Hentry Hw Hloop Hhalf Hstart
                      |i w k lists st lists' st' _ IH Hk Hm]; intros U S ->.
  - assert (Hd : 1 ≤ length names - 1).
    { pose proof (even_half _ Heven). lia. }
    destruct (pass_entry_inv _ _ _ _ _ Hentry Heven Hd) as [Hinv Hi].
    pose proof (pass_inv_reset _ _ _ _ _ Hinv) as Hpass.
    pose proof (pass_weeks_le weeks (length names - 1)
                  (ceil_div weeks (length names - 1)) i Hd) as Hle.
    eapply (week_loop_Done names _ _ 0 w) in Hloop;
      [|exact Hpass|done|simpl; lia].
    injection Hstart as <- <- <-. simpl.
    exists (clear_played <$> teams st). split.
    + apply week_inv_start; [done|lia].
    + rewrite length_seq. split; [|done].
      rewrite <-(pi_names _ _ _ _ _ _ Hloop), length_fmap. lia.
  - destruct lists as [U0 S0]. destruct (IH U0 S0 eq_refl) as (teams0 & Hinv & Hlen & _).
    eapply matchup_Done in Hm as [Hinv' Hlen']; [|done].
    exists teams0. split_and!; [done|lia|done].
Qed.

(** A dead end in a turn is a dead end of the whole attempt. *)
Lemma turn_fail_passes names weeks st0 i w k lists st st' :
  turn_entry names weeks st0 i w k lists st →
  length names mod 2 = 0 →
  matchups w (seq k (length names / 2 - k)) lists st = Raise IndexError st' →
  passes weeks (length names - 1) (ceil_div weeks (length names - 1))
    (seq 0 (ceil_div weeks (length names - 1))) None true st0 =
  Done (Some false, true) st'.
Proof.
  induction 1 as [i w st st1 lists st2 Hentry Hw Hloop Hhalf Hstart
                 |i w k lists st lists' st1 _ IH Hk Hm]; intros Heven Hfail.
  - eapply week_fail_passes; [done..|].
    rewrite week_eq. injection Hstart as <- <-.
    rewrite Nat.sub_0_r in Hfail.
    assert (Hlen : length (teams st1) = length names);
      [|by rewrite <-Hlen in Hfail; rewrite Hfail].
    assert (Hd : 1 ≤ length names - 1).
    { pose proof (even_half _ Heven). lia. }
    destruct (pass_entry_inv _ _ _ _ _ Hentry Heven Hd) as [Hinv Hi].
    pose proof (pass_inv_reset _ _ _ _ _ Hinv) as Hpass.
    pose proof (pass_weeks_le weeks (length names - 1)
                  (ceil_div weeks (length names - 1)) i Hd) as Hle.
    eapply (week_loop_Done names _ _ 0 w) in Hloop;
      [|exact Hpass|done|simpl; lia].
    by rewrite <-(pi_names _ _ _ _ _ _ Hloop), length_fmap.
  - apply IH; [done|].
    replace (length names / 2 - k) with (S (length names / 2 - S k)) by lia.
    cbn [seq]. by rewrite matchups_cons, Hm.
Qed.

End reach.

Lemma find_ext_in {A} (f g : A → bool) (l : list A) :
  (∀ x, x ∈ l → f x = g x) → List.find f l = List.find g l.
Proof.
  induction l as [|x l IH]; intros Hfg; [done|]. simpl.
  rewrite (Hfg x) by left. destruct (g x); [done|].
  apply IH. intros y ?. apply Hfg. by right.
Qed.

Lemma filter_all {A} (P : A → Prop) `{∀ x, Decision (P x)} (l : list A) :
  (∀ x, x ∈ l → P x) → filter P l = l.
Proof.
  induction l as [|x l IH]; intros HP; [done|].
  rewrite filter_cons, decide_True by (apply HP; left).
  f_equal. apply IH. intros y ?. apply HP. by right.
Qed.

Lemma preferred_prefers teams p S c :
  c ∉ played teams p → p ∉ played teams p →
  preferred teams p (S ++ [p]) c = bool_decide (prefers teams p S c).
Proof.
  intros Hc Hp. apply eq_true_iff_eq.
  unfold preferred. rewrite andb_true_iff, !setIsUnique_true, bool_decide_eq_true.
  unfold prefers. rewrite Forall_forall. split.
  - intros [H1 H2] t Ht. split; [apply H1|apply H2]; set_solver.
  - intros Hall. split; intros t [Ht| ->%list_elem_of_singleton]%elem_of_app.
    + by apply Hall.
    + intros Heq. apply Hc. rewrite Heq. set_solver.
    + by apply Hall.
    + intros Heq. apply Hp. rewrite Heq. set_solver.
Qed.

Section claims_steps.

Context {G : Type} `{!RandomGen G}.

Implicit Types (st : Sched G).

Lemma matchup_eq w i U S st :
  matchup w i (U, S) st =
    match pop (shuffle (rng st) U).2 with
    | None => Raise IndexError (shuffled st U)
    | Some (p, U2) =>
        match select_match w i p U2 (S ++ [p]) (shuffled st U) with
        | Done m st2 =>
            match commit p m U2 st2 with
            | Done U3 st3 => Done (U3, (S ++ [p]) ++ [m]) st3
            | Raise e st3 => Raise e st3
            end
        | Raise e st2 => Raise e st2
        end
    end.
Proof.
  unfold matchup, mbind, M_bind, random_shuffle, shuffled.
  destruct (shuffle (rng st) U) as [g l]; simpl.
  destruct (pop l) as [[p U2]|]; [|done].
  destruct (select_match _ _ _ _ _ _) as [m st2|]; [|done].
  by destruct (commit _ _ _ _).
Qed.

Lemma select_match_state w i p U2 S1 st x st' :
  select_match w i p U2 S1 st = Done x st' →
  teams st' = teams st ∧ s st' = s st.
Proof.
  rewrite select_match_eq, surviving_candidates.
  case_decide.
  - destruct U2; [done|]. by intros [= _ <-].
  - case_decide.
    { by intros (?&?&?&?)%random_choice_Done. }
    destruct (List.find _ _).
    + by intros [= _ <-].
    + by intros (?&?&?&?)%random_choice_Done.
Qed.

Lemma turn_entry_shuffle names weeks st0 i w k U S st p U2 :
  turn_entry names weeks st0 i w k (U, S) st →
  length names mod 2 = 0 →
  (shuffle (rng st) U).2 = U2 ++ [p] →
  ∃ teams0,
    week_inv names teams0 (i * (length names - 1)) w U S (teams st) (s st) ∧
    U ≡ₚ p :: U2 ∧ NoDup (p :: U2) ∧
    (length U2 = 1 → ∀ x, x ∈ U2 → x ∉ played (teams st) p).
Proof.
  intros Hreach Heven Hsh.
  destruct (turn_entry_inv _ _ _ _ _ _ _ _ _ Hreach Heven)
    as (teams0 & Hinv & Hlen & Hk).
  pose proof (shuffle_Permutation (rng st) U) as Hperm. rewrite Hsh in Hperm.
  assert (HU : U ≡ₚ p :: U2) by (by rewrite <-Hperm, <-Permutation_cons_append).
  exists teams0. split_and!; [done..| |].
  - assert (Hnd : NoDup (U ++ S)).
    { rewrite (wi_lists _ _ _ _ _ _ _ _ Hinv). apply NoDup_seq. }
    apply NoDup_app in Hnd as [Hnd _]. by rewrite <-HU.
  - intros Hl x Hx. apply (wi_last _ _ _ _ _ _ _ _ Hinv).
    + rewrite HU. simpl. lia.
    + rewrite HU. left.
    + rewrite HU. by right.
Qed.

End claims_steps.

Section claims.

Context {G : Type} `{!RandomGen G}.

Implicit Types (st : Sched G).

(** C10.  In every state the matchup loop reaches, when exactly one
    unscheduled team [m] remains besides the picker [p], the branch of the
    forced pairing returns [m] whatever the sets hold, the turn commits the
    pair without failing, and [m] is not in [p.already_played_set]: the
    committed pair is not a repeat within the cycle. *)
Theorem last_pairing_is_legal names weeks st0 i w k U P st p m :
  turn_entry names weeks st0 i w k (U, P) st →
  length names mod 2 = 0 →
  (shuffle (rng st) U).2 = [m; p] →
  (m ∉ played (teams st) p) ∧
  (∀ st1 : Sched G, select_match w k p [m] (P ++ [p]) st1 = Done m st1) ∧
  ∃ st', matchup w k (U, P) st = Done ([], (P ++ [p]) ++ [m]) st' ∧
         teams st' = setMatchForTeam (teams st) p m.
Proof.
  intros Hreach Heven Hsh.
  destruct (turn_entry_shuffle _ _ _ _ _ _ _ _ _ p [m] Hreach Heven Hsh)
    as (teams0 & Hinv & HU & Hnd & Hlast).
  split_and!.
  - apply Hlast; [done|left].
  - intros st1. by rewrite select_match_eq.
  - rewrite matchup_eq, Hsh. change [m; p] with ([m] ++ [p]).
    rewrite (proj2 (pop_Some _ _ _) eq_refl), select_match_eq. simpl.
    unfold commit. simpl. rewrite decide_True by done.
    destruct (lookup_lt_is_Some_2 (WeeklySchedule.schedule (s st))
                (WeeklySchedule.next_index (s st))) as [line ->].
    { pose proof (wi_index _ _ _ _ _ _ _ _ Hinv). lia. }
    eauto.
Qed.

(** C4.  In every state the matchup loop reaches, when the guard of
    line 338 is false every unscheduled team has exactly [w] (the weeks
    completed in the cycle) teams in its [already_played_set], [testMatch]
    returns [True] for every team of the pool, and filtering the candidates
    with [testMatch] would return them unchanged. *)
Theorem viability_skip_is_sound names weeks st0 i w k U P st p U2 :
  turn_entry names weeks st0 i w k (U, P) st →
  length names mod 2 = 0 →
  (shuffle (rng st) U).2 = U2 ++ [p] →
  viability_guard U2 w = false →
  (∀ t, t ∈ U → size (played (teams st) t) = w) ∧
  (∀ c, c ∈ U2 → testMatch (teams st) c U2 = inl true) ∧
  refine (teams st) U2 (filter (λ a, a ∉ played (teams st) p) U2) =
    inl (filter (λ a, a ∉ played (teams st) p) U2).
Proof.
  intros Hreach Heven Hsh Hguard.
  destruct (turn_entry_shuffle _ _ _ _ _ _ _ _ _ p U2 Hreach Heven Hsh)
    as (teams0 & Hinv & HU & Hnd & _).
  apply bool_decide_eq_false in Hguard.
  apply NoDup_cons in Hnd as [_ Hnd].
  assert (Hsize : ∀ t, t ∈ U → size (played (teams st) t) = w).
  { intros t Ht. eapply cycle_ok_size, Hinv, Ht. }
  assert (Hno : ∀ c, c ∈ U2 → ¬ strands (teams st) c (list_to_set U2)).
  { intros c Hc (t & Ht & Hsub). apply Hguard.
    apply subseteq_size in Hsub.
    rewrite size_difference, size_singleton, size_list_to_set in Hsub
      by (done || set_solver).
    assert (size (played (teams st) t ∪ {[t]}) ≤ w + 1); [|lia].
    rewrite size_union_alt, Hsize by (rewrite HU; right; set_solver).
    assert (size ({[t]} ∖ played (teams st) t : gset nat) ≤ size ({[t]} : gset nat))
      by (apply subseteq_size; set_solver).
    rewrite size_singleton in *. lia. }
  split_and!; [done| |].
  - intros c Hc. rewrite testMatch_elem_of by done.
    by rewrite bool_decide_true by auto.
  - rewrite refine_filter.
    + f_equal. apply filter_all. intros c Hc%list_elem_of_filter. apply Hno, Hc.
    + intros c Hc%list_elem_of_filter. apply Hc.
Qed.

(** C5.  In every matchup after the first of a week: the test of lines
    356-359 holds for a surviving candidate [c] exactly when neither
    [p.already_played_set ∪ {c}] nor [c.already_played_set ∪ {p}] is the
    current set of a team already paired this week; the Week Builder commits
    the first surviving candidate for which it holds, and when there is none
    it commits the candidate [random.choice] draws from all surviving
    candidates (an [IndexError] when there is no candidate). *)
Theorem preferred_match_selection names weeks st0 i w k U P st p U2 :
  turn_entry names weeks st0 i w k (U, P) st →
  length names mod 2 = 0 →
  k ≠ 0 →
  (shuffle (rng st) U).2 = U2 ++ [p] →
  let st1 := shuffled st U in
  let matches := candidates (teams st) w p U2 in
  surviving (teams st) w p U2 = inl matches ∧
  (∀ c, c ∈ matches →
     preferred (teams st) p (P ++ [p]) c = true ↔ prefers (teams st) p P c) ∧
  match List.find (λ c, bool_decide (prefers (teams st) p P c)) matches with
  | Some c => select_match w k p U2 (P ++ [p]) st1 = Done c st1
  | None =>
      match (choice (rng st1) matches).2 with
      | Some c => ∃ st', select_match w k p U2 (P ++ [p]) st1 = Done c st' ∧
                         teams st' = teams st ∧ s st' = s st
      | None => matches = [] ∧
                ∃ st', select_match w k p U2 (P ++ [p]) st1 = Raise IndexError st'
      end
  end.
Proof.
  intros Hreach Heven Hk Hsh st1 matches.
  destruct (turn_entry_shuffle _ _ _ _ _ _ _ _ _ p U2 Hreach Heven Hsh)
    as (teams0 & Hinv & HU & Hnd & Hlast).
  assert (Hp : p ∉ played (teams st) p).
  { intros Hin. by apply (wi_played _ _ _ _ _ _ _ _ Hinv) in Hin as (_&_&?&_). }
  assert (Hpref : ∀ c, c ∈ matches →
    preferred (teams st) p (P ++ [p]) c
    = bool_decide (prefers (teams st) p P c)).
  { intros c (_ & Hc & _)%candidates_elem_of. by apply preferred_prefers. }
  split_and!.
  - apply surviving_candidates.
  - intros c Hc. by rewrite Hpref, bool_decide_eq_true.
  - rewrite <-(find_ext_in _ _ _ Hpref).
    rewrite select_match_eq. change (teams st1) with (teams st).
    rewrite surviving_candidates. fold matches.
    case_decide as Hlen.
    + destruct U2 as [|m [|??]]; try done.
      assert (Hm : matches = [m]).
      { unfold matches, candidates. rewrite decide_True by done.
        apply filter_all. intros x Hx. by apply Hlast. }
      rewrite Hm. cbn [List.find]. destruct (preferred _ _ _ m); [done|].
      pose proof (choice_elem_of (rng st1) [m]) as Hel.
      pose proof (choice_None (rng st1) [m]) as Hnone.
      destruct (choice (rng st1) [m]).2 as [c|].
      * specialize (Hel c eq_refl). apply list_elem_of_singleton in Hel as ->.
        by exists st1.
      * by specialize (proj1 Hnone eq_refl).
    + rewrite decide_False by done.
      destruct (List.find _ matches) as [c|]; [done|].
      unfold random_choice.
      pose proof (choice_None (rng st1) matches) as Hnone.
      destruct (choice (rng st1) matches) as [g [c|]]; simpl.
      * by eexists.
      * split; [by apply Hnone|by eexists].
Qed.

End claims.


Lemma ceil_div_pos W d : 1 ≤ W → 1 ≤ d → 1 ≤ ceil_div W d.
Proof.
  intros HW Hd. unfold ceil_div. case_decide as Hmod; [|lia].
  pose proof (Nat.div_mod_eq W d). destruct (W / d); lia.
Qed.

Lemma pass_weeks_cycle_lengths W N :
  1 ≤ W → 2 ≤ N →
  pass_weeks W (N - 1) (ceil_div W (N - 1)) <$> seq 0 (ceil_div W (N - 1))
  = cycle_lengths W N.
Proof.
  intros HW HN. unfold cycle_lengths.
  assert (Hnp : 1 ≤ ceil_div W (N - 1)) by (apply ceil_div_pos; lia).
  set (np := ceil_div W (N - 1)) in *.
  replace np with (S (np - 1)) at 2 by lia.
  rewrite seq_S, fmap_app. f_equal.
  - rewrite (const_fmap _ _ (N - 1)); [by rewrite length_seq|].
    intros j x Hx. apply lookup_seq in Hx as [-> ?].
    by apply pass_weeks_full.
  - simpl. unfold pass_weeks. by rewrite decide_False by lia.
Qed.

Section claims2.

Context {G : Type} `{!RandomGen G}.

Implicit Types (st : Sched G).

Lemma passes_run_cycles weeks d np i k rv st :
  i + k = np → 1 ≤ k →
  passes weeks d np (seq i k) rv true st =
    match run_cycles (pass_weeks weeks d np <$> seq i k) st with
    | Done ok st' => Done (Some ok, negb ok) st'
    | Raise e st' => Raise e st'
    end.
Proof.
  revert i rv st. induction k as [|k IH]; intros i rv st Hik Hk; [lia|].
  cbn [seq]. rewrite fmap_cons, passes_cons. cbn [run_cycles].
  destruct (runScheduler _ _) as [[] st1|]; [| |done].
  - case_decide.
    + apply IH; lia.
    + by destruct k; [|lia].
  - case_decide; [done|]. by destruct k; [|lia].
Qed.

Lemma main_loop_orchestrate fuel names weeks g r data :
  1 ≤ weeks → 2 ≤ length names →
  main_loop fuel names weeks (length names - 1)
    (ceil_div weeks (length names - 1))
    {| rng := g; teams := Team.new <$> names; s := WeeklySchedule.new |} r data
  = orchestrate fuel names (cycle_lengths weeks (length names)) g r data.
Proof.
  intros HW HN.
  assert (Hnp : 1 ≤ ceil_div weeks (length names - 1))
    by (apply ceil_div_pos; lia).
  revert g r. induction fuel as [|fuel IH]; intros g r; [done|].
  cbn [main_loop orchestrate].
  rewrite passes_run_cycles, pass_weeks_cycle_lengths by (done || lia).
  destruct (run_cycles _ _) as [[] st'|e st']; simpl; [done| |done].
  apply IH.
Qed.


Lemma pass_entry_start names weeks st0 i st :
  pass_entry names weeks st0 i st →
  teams st0 = Team.new <$> names ∧ s st0 = WeeklySchedule.new ∧
  0 < ceil_div weeks (length names - 1).
Proof. induction 1; done. Qed.

Lemma turn_entry_start names weeks st0 i w k lists st :
  turn_entry names weeks st0 i w k lists st →
  teams st0 = Team.new <$> names ∧ s st0 = WeeklySchedule.new ∧
  1 ≤ weeks ∧ 2 ≤ length names.
Proof.
  induction 1 as [i w st st1 lists st2 Hpass _ _ Hhalf _|]; [|done].
  apply pass_entry_start in Hpass as (Hts & Hs & Hnp).
  split_and!; [done..| |].
  - destruct weeks; [|lia]. exfalso. revert Hnp. unfold ceil_div.
    rewrite Nat.Div0.div_0_l, Nat.Div0.mod_0_l. simpl. lia.
  - destruct (length names) as [|[|n]]; [simpl in Hhalf; lia..|lia].
Qed.


(** C1.  Per-cycle uniqueness: when the team names are distinct and their
    number is even, after every successful run of [main] each block of [N-1]
    consecutive weeks that forms a cycle lists pairwise distinct opponents
    for every team, so no pair of teams is matched twice within a cycle.
    Every commit of the Week Builder is covered, the one of the shortcut
    branch for the last remaining team included. *)
Theorem per_cycle_uniqueness fuel ambient entropy names weeks r data
    ts ws r' data' g :
  NoDup names →
  length names mod 2 = 0 →
  main fuel ambient entropy names weeks r data = Success ts ws r' data' g →
  ∀ x c, x < length names →
    NoDup (take (length names - 1)
             (drop (c * (length names - 1)) (schedule_of ts x))).
Proof.
  intros Hnd Heven Hmain x c Hx.
  apply main_Success in Hmain as (_ & Hinv & _); [|done].
  by apply (ai_blocks _ _ _ _ _ Hinv).
Qed.

(** C8.  Symmetry: when the team names are distinct and their number is
    even, after every successful run of [main] every team has one opponent
    per week, and if the week-[i] opponent of [x] is [y] then the week-[i]
    opponent of [y] is [x]; [setMatchForTeam] appends the history entry of
    a matchup to both partners in the same commitment. *)
Theorem opponent_symmetry fuel ambient entropy names weeks r data
    ts ws r' data' g :
  NoDup names →
  length names mod 2 = 0 →
  main fuel ambient entropy names weeks r data = Success ts ws r' data' g →
  (∀ x, x < length names → length (schedule_of ts x) = weeks) ∧
  (∀ i x y, i < weeks → x < length names → y < length names →
     schedule_of ts x !! i = Some (name_of ts y) →
     schedule_of ts y !! i = Some (name_of ts x)) ∧
  (∀ teams p m, p ≠ m → p < length teams → m < length teams →
     schedule_of (setMatchForTeam teams p m) p
       = schedule_of teams p ++ [name_of teams m] ∧
     schedule_of (setMatchForTeam teams p m) m
       = schedule_of teams m ++ [name_of teams p]).
Proof.
  intros Hnd Heven Hmain.
  apply main_Success in Hmain as (_ & Hinv & _); [|done].
  split_and!.
  - apply Hinv.
  - intros i x y Hi Hx Hy Hxy.
    destruct (ai_sym _ _ _ _ _ Hinv i x Hi Hx) as (y' & Hy' & _ & H1 & H2).
    rewrite H1 in Hxy. injection Hxy as Hxy.
    apply (name_of_inj names) in Hxy; [|apply Hinv|done..]. by subst.
  - intros teams p m Hpm Hp Hm.
    rewrite !setMatchForTeam_schedule_of by done.
    rewrite decide_True by done. rewrite decide_False by done.
    by rewrite decide_True by done.
Qed.

(** C7.  In every state the matchup loop reaches, a turn fails only with
    the [IndexError] of an empty list of surviving candidates at the point
    of selection (and does fail when that list is empty); the failure makes
    [runScheduler] return [False] and the whole attempt end with
    [(retVal, retry) = (False, True)], upon which [main] drops the teams and
    the weekly schedule, adds one to [retries_needed] and starts again with
    fresh teams, an empty schedule and the first cycle: what [main] returns
    is what the orchestrator of the contract returns when it is started
    afresh with the generator as the failed attempt left it and with the
    counter incremented, and when the cycles of that next attempt succeed
    [main] returns their schedule and the incremented counter.  ([weeks] is
    below 2^53, where the floating-point quotient of line 262 is exact.) *)
Theorem dead_end_restarts_attempt names weeks st0 i w k U P st :
  turn_entry names weeks st0 i w k (U, P) st →
  length names mod 2 = 0 →
  (Z.of_nat weeks < 2 ^ 53)%Z →
  let d := length names - 1 in
  let np := ceil_div weeks d in
  let lens := cycle_lengths weeks (length names) in
  (∀ e st', matchup w k (U, P) st = Raise e st' →
     e = IndexError ∧
     (∃ p U2, (shuffle (rng st) U).2 = U2 ++ [p] ∧ length U2 ≠ 1 ∧
              surviving (teams st) w p U2 = inl []) ∧
     passes weeks d np (seq 0 np) None true st0 = Done (Some false, true) st' ∧
     (∀ fuel r data,
        main_loop (S fuel) names weeks d np st0 r data =
        main_loop fuel names weeks d np
          {| rng := rng st'; teams := Team.new <$> names;
             s := WeeklySchedule.new |} (S r) data) ∧
     (∀ fuel ambient r data,
        main (S fuel) ambient (rng st0) names weeks r data
        = orchestrate fuel names lens (rng st') (S r) data ∧
        ∀ st2,
          run_cycles lens {| rng := rng st'; teams := Team.new <$> names;
                             s := WeeklySchedule.new |} = Done true st2 →
          main (S (S fuel)) ambient (rng st0) names weeks r data
          = Success (teams st2) (s st2) (S r) (data ++ [S r]) (rng st2))) ∧
  (∀ p U2, (shuffle (rng st) U).2 = U2 ++ [p] → length U2 ≠ 1 →
     surviving (teams st) w p U2 = inl [] →
     ∃ st', matchup w k (U, P) st = Raise IndexError st').
Proof.
  intros Hreach Heven _ d np lens.
  destruct (turn_entry_inv _ _ _ _ _ _ _ _ _ Hreach Heven)
    as (teams0 & Hinv & Hlen & Hk).
  destruct (turn_entry_start _ _ _ _ _ _ _ _ Hreach) as (Hts & Hs & HW & HN).
  split.
  - intros e st' Hfail.
    pose proof Hfail as Hfail'.
    eapply matchup_Raise in Hfail' as (-> & p & U2 & Hsh & Hl & Hc); [|done|].
    2:{ intros ->. simpl in Hlen. pose proof (even_half _ Heven). lia. }
    assert (Hpasses : passes weeks d np (seq 0 np) None true st0
                      = Done (Some false, true) st').
    { eapply turn_fail_passes; [done..|].
      replace (length names / 2 - k) with (S (length names / 2 - S k)) by lia.
      cbn [seq]. by rewrite matchups_cons, Hfail. }
    assert (Hloop : ∀ fuel r data,
              main_loop (S fuel) names weeks d np st0 r data =
              main_loop fuel names weeks d np
                {| rng := rng st'; teams := Team.new <$> names;
                   s := WeeklySchedule.new |} (S r) data).
    { intros fuel r data. cbn [main_loop]. by rewrite Hpasses. }
    assert (Hmain : ∀ fuel ambient r data,
              main (S fuel) ambient (rng st0) names weeks r data
              = orchestrate fuel names lens (rng st') (S r) data).
    { intros fuel ambient r data. unfold main. rewrite length_fmap.
      rewrite !decide_False by lia.
      replace {| rng := rng st0; teams := Team.new <$> names;
                 s := WeeklySchedule.new |} with st0
        by (destruct st0; simpl in *; by subst).
      etrans; [exact (Hloop fuel r data)|]. by apply main_loop_orchestrate. }
    split_and!; [done| |done|done|].
    + exists p, U2. by rewrite surviving_candidates, Hc.
    + intros fuel ambient r data. split; [apply Hmain|].
      intros st2 Hrun. rewrite Hmain. cbn [orchestrate]. by rewrite Hrun.
  - intros p U2 Hsh Hl Hsurv. rewrite matchup_eq, Hsh.
    rewrite (proj2 (pop_Some _ _ _) eq_refl), select_match_eq.
    rewrite decide_False by done.
    change (teams (shuffled st U)) with (teams st). rewrite Hsurv.
    assert (Hrc : ∃ st', random_choice [] (shuffled st U) = Raise IndexError st').
    { unfold random_choice.
      pose proof (choice_None (rng (shuffled st U)) []) as Hnone.
      destruct (choice _ []) as [g [c|]]; [|by eexists].
      by specialize (proj2 Hnone eq_refl). }
    destruct Hrc as [st' Hrc]. exists st'.
    case_decide; by rewrite Hrc.
Qed.

End claims2.

Section claims3.

Context {G : Type} `{!RandomGen G}.

Implicit Types (st : Sched G).

(** C2 (amended).  [testMatch(c, U)] returns [False] exactly when, with
    [R = U ∖ {c}], some [t ∈ R] has [R ⊆ t.already_played_set ∪ {t}], and
    [True] otherwise; it raises [KeyError] when [c] is not in [U]; it is a
    function of its arguments and of the sets, and changes no state.  At
    the Week Builder's call, [U] is the unscheduled pool after the picker
    was popped: it contains the candidate but not the picker. *)
Theorem viability_checker_contract :
  (∀ (teams : list Team.t) (c : nat) (U : list nat),
     (c ∈ U →
        (testMatch teams c U = inl false ↔ strands teams c (list_to_set U)) ∧
        (testMatch teams c U = inl true ↔ ¬ strands teams c (list_to_set U))) ∧
     (c ∉ U → testMatch teams c U = inr KeyError)) ∧
  (∀ names weeks (st0 : Sched G) i w k U P st p U2,
     turn_entry names weeks st0 i w k (U, P) st →
     length names mod 2 = 0 →
     (shuffle (rng st) U).2 = U2 ++ [p] →
     (p ∉ U2) ∧
     (length U2 ≠ 1 → viability_guard U2 w = true →
      surviving (teams st) w p U2 =
        refine (teams st) U2 (filter (λ a, a ∉ played (teams st) p) U2))).
Proof.
  split.
  - intros teams c U. split.
    + intros Hc. rewrite testMatch_elem_of by done.
      case_bool_decide; split; split; try done; by intros [=].
    + apply testMatch_not_elem_of.
  - intros names weeks st0 i w k U P st p U2 Hreach Heven Hsh.
    destruct (turn_entry_shuffle _ _ _ _ _ _ _ _ _ p U2 Hreach Heven Hsh)
      as (teams0 & Hinv & HU & Hnd & _).
    split; [by apply NoDup_cons in Hnd as [? _]|].
    intros Hlen Hguard. unfold surviving.
    rewrite decide_False by done. by rewrite Hguard.
Qed.

(** C3 (amended).  The Week Builder filters the candidates with
    [testMatch] exactly when more than one team is unscheduled besides the
    picker and the size of that pool (the picker not counted) minus one does
    not exceed the number of weeks completed in the cycle plus one;
    otherwise the candidates are taken as they are. *)
Theorem viability_check_guard (tms : list Team.t) (w p : nat) (U2 : list nat) :
  surviving tms w p U2 =
    (if bool_decide (length U2 ≠ 1 ∧ length U2 - 1 ≤ w + 1)
     then refine tms U2 (filter (λ a, a ∉ played tms p) U2)
     else inl (filter (λ a, a ∉ played tms p) U2)) ∧
  ∀ (i : nat) (S1 : list nat) (st : Sched G),
    tms = teams st → length U2 ≠ 1 →
    select_match w i p U2 S1 st =
      match surviving tms w p U2 with
      | inr e => Raise e st
      | inl matches =>
          if decide (i = 0) then random_choice matches st
          else
            match List.find (preferred tms p S1) matches with
            | Some temp => Done temp st
            | None => random_choice matches st
            end
      end.
Proof.
  split.
  - unfold surviving, viability_guard.
    case_decide as Hlen.
    + rewrite bool_decide_false; [done|]. by intros [? _].
    + case_bool_decide as Hg.
      * rewrite bool_decide_true; done.
      * rewrite bool_decide_false; [done|]. by intros [_ ?].
  - intros i S1 st -> Hlen. rewrite select_match_eq.
    by rewrite decide_False by done.
Qed.

End claims3.

(** ** Reproducibility *)

Section reproducible.
Context {G1 G2 : Type} `{!RandomGen G1, !RandomGen G2} (R : G1 → G2 → Prop).
Hypothesis shuffle_R : ∀ g1 g2 l, R g1 g2 →
  (shuffle g1 l).2 = (shuffle g2 l).2 ∧ R (shuffle g1 l).1 (shuffle g2 l).1.
Hypothesis choice_R : ∀ g1 g2 l, R g1 g2 →
  (choice g1 l).2 = (choice g2 l).2 ∧ R (choice g1 l).1 (choice g2 l).1.

Lemma random_choice_R l st1 st2 :
  state_R R st1 st2 → outcome_R R (random_choice l st1) (random_choice l st2).
Proof.
  intros (Hg & Ht & Hs). unfold random_choice.
  destruct (choice_R _ _ l Hg) as [Hv Hg'].
  destruct (choice (rng st1) l) as [g1 o1], (choice (rng st2) l) as [g2 o2].
  simpl in *. subst o2. rewrite Ht, Hs. by destruct o1.
Qed.

Lemma select_match_R w i p U2 S1 st1 st2 :
  state_R R st1 st2 →
  outcome_R R (select_match w i p U2 S1 st1) (select_match w i p U2 S1 st2).
Proof.
  intros HR. pose proof HR as (Hg & Ht & Hs).
  rewrite !select_match_eq, Ht.
  case_decide; [by destruct U2|].
  destruct (surviving _ _ _ _) as [matches|e]; [|done].
  case_decide; [by apply random_choice_R|].
  destruct (List.find _ _); [done|by apply random_choice_R].
Qed.

Lemma commit_R p m U2 st1 st2 :
  state_R R st1 st2 → outcome_R R (commit p m U2 st1) (commit p m U2 st2).
Proof.
  intros (Hg & Ht & Hs). unfold commit. rewrite Ht, Hs.
  destruct (remove_first m U2); [|done].
  by destruct (WeeklySchedule.schedule (s st2) !! _).
Qed.

Lemma matchup_R w i lists st1 st2 :
  state_R R st1 st2 → outcome_R R (matchup w i lists st1) (matchup w i lists st2).
Proof.
  intros (Hg & Ht & Hs). destruct lists as [U P]. rewrite !matchup_eq.
  destruct (shuffle_R _ _ U Hg) as [Hv Hg'].
  assert (Hsh : state_R R (shuffled st1 U) (shuffled st2 U)) by done.
  rewrite Hv. destruct (pop _) as [[p U2]|]; [|done].
  pose proof (select_match_R w i p U2 (P ++ [p]) _ _ Hsh) as Hsel.
  destruct (select_match _ _ _ _ _ (shuffled st1 U)) as [m1 st1'|],
           (select_match _ _ _ _ _ (shuffled st2 U)) as [m2 st2'|]; try done.
  destruct Hsel as [-> Hst].
  pose proof (commit_R p m2 U2 _ _ Hst) as Hcom.
  destruct (commit _ _ _ st1') as [U3 st1''|], (commit _ _ _ st2') as [U3' st2''|];
    try done.
  destruct Hcom as [-> ?]. done.
Qed.

Lemma matchups_R w turns lists st1 st2 :
  state_R R st1 st2 →
  outcome_R R (matchups w turns lists st1) (matchups w turns lists st2).
Proof.
  revert lists st1 st2. induction turns as [|i turns IH]; intros lists st1 st2 HR.
  - done.
  - rewrite !matchups_cons. pose proof (matchup_R w i lists _ _ HR) as Hm.
    destruct (matchup w i lists st1) as [l1 st1'|],
             (matchup w i lists st2) as [l2 st2'|]; try done.
    destruct Hm as [-> ?]. by apply IH.
Qed.

Lemma week_R w st1 st2 :
  state_R R st1 st2 → outcome_R R (week w st1) (week w st2).
Proof.
  intros (Hg & Ht & Hs). rewrite !week_eq, Ht, Hs.
  match goal with
  | |- outcome_R _ match matchups _ _ _ ?a with _ => _ end
                   match matchups _ _ _ ?b with _ => _ end =>
      assert (Hst : state_R R a b) by done;
      pose proof (matchups_R w (seq 0 (length (teams st2) / 2))
                    (seq 0 (length (teams st2)), []) a b Hst) as Hm;
      destruct (matchups w _ _ a) as [l1 st1'|], (matchups w _ _ b) as [l2 st2'|]
  end; try done.
  destruct Hm as [_ (? & ? & ?)]. unfold end_week. simpl. split; [done|].
  split_and!; simpl; congruence.
Qed.

Lemma week_loop_R ws st1 st2 :
  state_R R st1 st2 → outcome_R R (week_loop ws st1) (week_loop ws st2).
Proof.
  revert st1 st2. induction ws as [|w ws IH]; intros st1 st2 HR; [done|].
  rewrite !week_loop_cons. pose proof (week_R w _ _ HR) as Hw.
  destruct (week w st1) as [[] st1'|], (week w st2) as [[] st2'|]; try done.
  destruct Hw as [_ ?]. by apply IH.
Qed.

Lemma runScheduler_R weeks st1 st2 :
  state_R R st1 st2 →
  outcome_R R (runScheduler weeks st1) (runScheduler weeks st2).
Proof.
  intros HR. unfold runScheduler.
  pose proof (week_loop_R (seq 0 weeks) _ _ HR) as Hl.
  destruct (week_loop _ st1) as [[] st1'|e1 st1'],
           (week_loop _ st2) as [[] st2'|e2 st2']; try done.
  - by destruct Hl.
  - destruct Hl as [-> ?]. by destruct e2.
Qed.

Lemma passes_R weeks d np turns rv retry st1 st2 :
  state_R R st1 st2 →
  outcome_R R (passes weeks d np turns rv retry st1)
              (passes weeks d np turns rv retry st2).
Proof.
  revert rv retry st1 st2.
  induction turns as [|i turns IH]; intros rv retry st1 st2 HR; [done|].
  rewrite !passes_cons.
  assert (Hreset : state_R R (reset st1) (reset st2)).
  { destruct HR as (? & Ht & ?). unfold reset. split_and!; simpl; congruence. }
  pose proof (runScheduler_R (pass_weeks weeks d np i) _ _ Hreset) as Hrun.
  destruct (runScheduler _ (reset st1)) as [r1 st1'|],
           (runScheduler _ (reset st2)) as [r2 st2'|]; try done.
  destruct Hrun as [-> Hst]. case_decide.
  - destruct r2; [by apply IH|done].
  - by apply IH.
Qed.

Lemma main_loop_R fuel names weeks d np st1 st2 r data :
  state_R R st1 st2 →
  result_R R (main_loop fuel names weeks d np st1 r data)
             (main_loop fuel names weeks d np st2 r data).
Proof.
  revert st1 st2 r. induction fuel as [|fuel IH]; intros st1 st2 r HR; [done|].
  cbn [main_loop].
  pose proof (passes_R weeks d np (seq 0 np) None true _ _ HR) as Hp.
  destruct (passes _ _ _ _ _ _ st1) as [[rv1 retry1] st1'|e1 st1'],
           (passes _ _ _ _ _ _ st2) as [[rv2 retry2] st2'|e2 st2']; try done.
  - destruct Hp as [[= -> ->] (Hg & Ht & Hs)].
    destruct rv2 as [[]|]; [| |done].
    + destruct retry2; [by apply IH|]. simpl. by split_and!.
    + destruct retry2; [by apply IH|]. simpl. by split_and!.
  - by destruct Hp.
Qed.

(** C9 (amended).  Randomness is the only source of nondeterminism, and
    [main] reseeds the generator on entry: two runs of [main] on the same
    inputs whose generators agree from the state that [random.seed()]
    installs (same shuffles, same choices) end alike, with the same teams,
    the same weekly schedule and the same retry count, whatever state (seed)
    the callers left in the generator before the call. *)
Theorem main_reproducible fuel (ambient1 entropy1 : G1) (ambient2 entropy2 : G2)
    names weeks r data :
  R entropy1 entropy2 →
  result_R R (main fuel ambient1 entropy1 names weeks r data)
             (main fuel ambient2 entropy2 names weeks r data).
Proof.
  intros HR. unfold main. case_decide; [done|]. case_decide; [done|].
  by apply main_loop_R.
Qed.

End reproducible.

(** The state of the counterexamples to C2 and C3: six teams, second week,
    second matchup. *)
Lemma second_week_turn :
  ∃ st, turn_entry six_names 5 (fresh six_names []) 0 1 1
          ([0; 2; 3; 4], [5; 1]) st
    ∧ (shuffle (rng st) [0; 2; 3; 4]).2 = [0; 2; 3] ++ [4]
    ∧ played (teams st) 0 = {[5]} ∧ played (teams st) 2 = {[3]}
    ∧ played (teams st) 3 = {[2]} ∧ played (teams st) 4 = {[1]}
    ∧ testMatch (teams st) 0 [0; 2; 3] = inl false
    ∧ surviving (teams st) 1 4 [0; 2; 3] = inl [2; 3]
    ∧ filter (λ a, a ∉ played (teams st) 4) [0; 2; 3] = [0; 2; 3]
    ∧ ¬ strands (teams st) 0 (list_to_set ([0; 2; 3] ++ [4])).
Proof.
  eexists. split.
  - eapply turn_next.
    + eapply (turn_first _ _ _ 0 1).
      * apply entry_first; [done|done|vm_compute; lia].
      * vm_compute; lia.
      * vm_compute. reflexivity.
      * vm_compute; lia.
      * vm_compute. reflexivity.
    + vm_compute; lia.
    + vm_compute. reflexivity.
  - split_and!; try (vm_compute; reflexivity).
    apply (bool_decide_unpack _). vm_compute. exact I.
Qed.

Lemma viability_checker_pool_counterexample :
  ∃ st p c U2,
    turn_entry six_names 5 (fresh six_names []) 0 1 1 (U2 ++ [p], [5; 1]) st
    ∧ (shuffle (rng st) (U2 ++ [p])).2 = U2 ++ [p]
    ∧ c ∈ U2 ∧ (p ∉ U2)
    ∧ testMatch (teams st) c U2 = inl false
    ∧ ¬ strands (teams st) c (list_to_set (U2 ++ [p])).
Proof.
  destruct second_week_turn as (st & Hreach & Hsh & _ & _ & _ & _ & Ht & _ & _ & Hs).
  exists st, 4, 0, [0; 2; 3]. split_and!; try done; set_solver.
Qed.

Lemma viability_guard_counterexample :
  ∃ st p U2,
    turn_entry six_names 5 (fresh six_names []) 0 1 1 (U2 ++ [p], [5; 1]) st
    ∧ (shuffle (rng st) (U2 ++ [p])).2 = U2 ++ [p]
    ∧ guard_as_claimed (length U2) 1 = false
    ∧ guard_as_claimed (length (U2 ++ [p])) 1 = false
    ∧ viability_guard U2 1 = true
    ∧ surviving (teams st) 1 p U2 = inl [2; 3]
    ∧ filter (λ a, a ∉ played (teams st) p) U2 = [0; 2; 3].
Proof.
  destruct second_week_turn as (st & Hreach & Hsh & _ & _ & _ & _ & _ & Hsv & Hf & _).
  exists st, 4, [0; 2; 3]. split_and!; done.
Qed.

Lemma supplied_seed_counterexample :
  main 3 [7] [] six_names 5 0 [] ≠ main 3 [7] [1] six_names 5 0 [].
Proof.
  intros H.
  apply (f_equal (λ r, match r with
                       | Success ts _ _ _ _ => schedule_of ts 0
                       | _ => []
                       end)) in H.
  vm_compute in H. discriminate.
Qed.

(** Runs a tactic on the lists and the state of a reached turn. *)
Ltac at_turn H tac :=
  match type of H with
  | turn_entry _ _ _ _ _ _ (?U, ?P) ?st => tac U P st
  end.

Lemma six_names_NoDup : NoDup six_names.
Proof. apply (bool_decide_unpack _). vm_compute. exact I. Defined.

Lemma per_cycle_uniqueness_witness :
  NoDup six_names ∧ length six_names mod 2 = 0 ∧
  ∃ ts ws r data g,
    main 3 [] [2; 0; 1; 3] six_names 7 0 [] = Success ts ws r data g ∧
    ∀ x c, x < length six_names →
      NoDup (take (length six_names - 1)
               (drop (c * (length six_names - 1)) (schedule_of ts x))).
Proof.
  split_and!; [apply six_names_NoDup|reflexivity|].
  eexists _, _, _, _, _. split; [vm_compute; reflexivity|].
  intros x c Hx.
  eapply (per_cycle_uniqueness 3 [] [2; 0; 1; 3] six_names 7 0 []);
    [apply six_names_NoDup|reflexivity|vm_compute; reflexivity|exact Hx].
Defined.

Lemma opponent_symmetry_witness :
  NoDup six_names ∧ length six_names mod 2 = 0 ∧
  ∃ ts ws r data g,
    main 3 [] [2; 0; 1; 3] six_names 7 0 [] = Success ts ws r data g ∧
    (∀ x, x < length six_names → length (schedule_of ts x) = 7) ∧
    (∀ i x y, i < 7 → x < length six_names → y < length six_names →
       schedule_of ts x !! i = Some (name_of ts y) →
       schedule_of ts y !! i = Some (name_of ts x)).
Proof.
  split_and!; [apply six_names_NoDup|reflexivity|].
  eassert (Hrun : main 3 [] [2; 0; 1; 3] six_names 7 0 [] = Success _ _ _ _ _)
    by (vm_compute; reflexivity).
  destruct (opponent_symmetry _ _ _ _ _ _ _ _ _ _ _ _
              six_names_NoDup eq_refl Hrun) as (Hlen & Hsym & _).
  eexists _, _, _, _, _. split_and!; [exact Hrun|exact Hlen|exact Hsym].
Defined.


Lemma last_pairing_is_legal_witness :
  length six_names mod 2 = 0 ∧
  ∃ U P st p m,
    turn_entry six_names 5 (fresh six_names []) 0 1 2 (U, P) st ∧
    (shuffle (rng st) U).2 = [m; p] ∧
    (m ∉ played (teams st) p) ∧
    ∃ st', matchup 1 2 (U, P) st = Done ([], (P ++ [p]) ++ [m]) st' ∧
           teams st' = setMatchForTeam (teams st) p m.
Proof.
  split; [reflexivity|].
  eassert (Hreach : turn_entry six_names 5 (fresh six_names []) 0 1 2 (_, _) _).
  { eapply turn_next.
    - eapply turn_next.
      + eapply (turn_first _ _ _ 0 1).
        * apply entry_first; [reflexivity|reflexivity|vm_compute; lia].
        * vm_compute; lia.
        * vm_compute. reflexivity.
        * vm_compute; lia.
        * vm_compute. reflexivity.
      + vm_compute; lia.
      + vm_compute. reflexivity.
    - vm_compute; lia.
    - vm_compute. reflexivity. }
  at_turn Hreach ltac:(fun U P st =>
    eassert (Hsh : (shuffle (rng st) U).2 = [_; _])
      by (vm_compute; reflexivity)).
  destruct (last_pairing_is_legal _ _ _ _ _ _ _ _ _ _ _ Hreach eq_refl Hsh)
    as (Hlegal & _ & Hcommit).
  eexists _, _, _, _, _. split_and!; [exact Hreach|exact Hsh|exact Hlegal|exact Hcommit].
Defined.

Lemma viability_skip_is_sound_witness :
  length six_names mod 2 = 0 ∧
  ∃ st p U2,
    turn_entry six_names 5 (fresh six_names []) 0 1 0 (seq 0 6, []) st ∧
    (shuffle (rng st) (seq 0 6)).2 = U2 ++ [p] ∧
    viability_guard U2 1 = false ∧
    (∀ t, t ∈ seq 0 6 → size (played (teams st) t) = 1) ∧
    (∀ c, c ∈ U2 → testMatch (teams st) c U2 = inl true).
Proof.
  split; [reflexivity|].
  eassert (Hreach : turn_entry six_names 5 (fresh six_names []) 0 1 0 (seq 0 6, []) _).
  { eapply (turn_first _ _ _ 0 1).
    - apply entry_first; [reflexivity|reflexivity|vm_compute; lia].
    - vm_compute; lia.
    - vm_compute. reflexivity.
    - vm_compute; lia.
    - vm_compute. reflexivity. }
  at_turn Hreach ltac:(fun U P st =>
    eassert (Hsh : (shuffle (rng st) U).2 = [_; _; _; _; _] ++ [_])
      by (vm_compute; reflexivity)).
  eassert (Hg : viability_guard [_; _; _; _; _] 1 = false)
    by (vm_compute; reflexivity).
  destruct (viability_skip_is_sound _ _ _ _ _ _ _ _ _ _ _ Hreach eq_refl Hsh Hg)
    as (Hsize & Htest & _).
  eexists _, _, _. split_and!; [exact Hreach|exact Hsh|exact Hg|exact Hsize|exact Htest].
Defined.

Lemma preferred_match_selection_witness :
  length six_names mod 2 = 0 ∧
  ∃ st,
    turn_entry six_names 5 (fresh six_names []) 0 1 1 ([0; 2; 3; 4], [5; 1]) st ∧
    (shuffle (rng st) [0; 2; 3; 4]).2 = [0; 2; 3] ++ [4] ∧
    surviving (teams st) 1 4 [0; 2; 3] = inl [2; 3] ∧
    prefers (teams st) 4 [5; 1] 2 ∧
    select_match 1 1 4 [0; 2; 3] ([5; 1] ++ [4]) (shuffled st [0; 2; 3; 4])
    = Done 2 (shuffled st [0; 2; 3; 4]).
Proof.
  split; [reflexivity|].
  eassert (Hreach : turn_entry six_names 5 (fresh six_names []) 0 1 1
                      ([0; 2; 3; 4], [5; 1]) _).
  { eapply turn_next.
    - eapply (turn_first _ _ _ 0 1).
      + apply entry_first; [reflexivity|reflexivity|vm_compute; lia].
      + vm_compute; lia.
      + vm_compute. reflexivity.
      + vm_compute; lia.
      + vm_compute. reflexivity.
    - vm_compute; lia.
    - vm_compute. reflexivity. }
  at_turn Hreach ltac:(fun U P st =>
    assert (Hsh : (shuffle (rng st) U).2 = [0; 2; 3] ++ [4])
      by (vm_compute; reflexivity)).
  assert (Hk : 1 ≠ 0) by lia.
  destruct (preferred_match_selection _ _ _ _ _ _ _ _ _ _ _ Hreach eq_refl Hk Hsh)
    as (Hsurv & Hpref & Hsel).
  at_turn Hreach ltac:(fun U P st =>
    assert (Hc : candidates (teams st) 1 4 [0; 2; 3] = [2; 3])
      by (vm_compute; reflexivity)).
  rewrite Hc in Hsurv, Hpref, Hsel.
  at_turn Hreach ltac:(fun U P st =>
    assert (Hfind : List.find (λ c, bool_decide (prefers (teams st) 4 [5; 1] c))
                      [2; 3] = Some 2) by (vm_compute; reflexivity)).
  rewrite Hfind in Hsel.
  eexists. split_and!; [exact Hreach|exact Hsh|exact Hsurv| |exact Hsel].
  apply Hpref; [left|]. vm_compute. reflexivity.
Defined.

Lemma dead_end_restarts_attempt_witness :
  length eight_names mod 2 = 0 ∧ (Z.of_nat 7 < 2 ^ 53)%Z ∧
  ∃ st st' st2,
    turn_entry eight_names 7 (fresh eight_names dead_end_tape) 0 5 0
      (seq 0 8, []) st ∧
    matchup 5 0 (seq 0 8, []) st = Raise IndexError st' ∧
    passes 7 7 1 (seq 0 1) None true (fresh eight_names dead_end_tape)
      = Done (Some false, true) st' ∧
    (∀ fuel r data,
      main_loop (S fuel) eight_names 7 7 1 (fresh eight_names dead_end_tape) r data
      = main_loop fuel eight_names 7 7 1
          {| rng := rng st'; teams := Team.new <$> eight_names;
             s := WeeklySchedule.new |} (S r) data) ∧
    (∀ fuel ambient r data,
      main (S fuel) ambient dead_end_tape eight_names 7 r data
      = orchestrate fuel eight_names (cycle_lengths 7 (length eight_names))
          (rng st') (S r) data) ∧
    run_cycles (cycle_lengths 7 (length eight_names))
      {| rng := rng st'; teams := Team.new <$> eight_names;
         s := WeeklySchedule.new |} = Done true st2 ∧
    ∀ fuel ambient r data,
      main (S (S fuel)) ambient dead_end_tape eight_names 7 r data
      = Success (teams st2) (s st2) (S r) (data ++ [S r]) (rng st2).
Proof.
  split; [reflexivity|]. split; [lia|].
  assert (H3 : (Z.of_nat 7 < 2 ^ 53)%Z) by lia.
  eassert (Hreach : turn_entry eight_names 7 (fresh eight_names dead_end_tape)
                      0 5 0 (seq 0 8, []) _).
  { eapply (turn_first _ _ _ 0 5).
    - apply entry_first; [reflexivity|reflexivity|vm_compute; lia].
    - vm_compute; lia.
    - vm_compute. reflexivity.
    - vm_compute; lia.
    - vm_compute. reflexivity. }
  at_turn Hreach ltac:(fun U P st =>
    eassert (Hfail : matchup 5 0 (U, P) st = Raise IndexError _)
      by (vm_compute; reflexivity)).
  destruct (dead_end_restarts_attempt _ _ _ _ _ _ _ _ _ Hreach eq_refl H3)
    as [Honly _].
  destruct (Honly _ _ Hfail) as (_ & _ & Hpasses & Hloop & Hmain).
  match type of Hfail with
  | _ = Raise _ ?s' =>
      eassert (Hrun : run_cycles (cycle_lengths 7 (length eight_names))
                        {| rng := rng s'; teams := Team.new <$> eight_names;
                           s := WeeklySchedule.new |} = Done true _)
        by (vm_compute; reflexivity)
  end.
  eexists _, _, _.
  split_and!; [exact Hreach|exact Hfail|exact Hpasses|exact Hloop| |exact Hrun|].
  - intros fuel ambient r data. exact (proj1 (Hmain fuel ambient r data)).
  - intros fuel ambient r data. exact (proj2 (Hmain fuel ambient r data) _ Hrun).
Defined.

Lemma viability_checker_contract_witness :
  length six_names mod 2 = 0 ∧
  ∃ st,
    turn_entry six_names 5 (fresh six_names []) 0 1 1 ([0; 2; 3; 4], [5; 1]) st ∧
    (shuffle (rng st) [0; 2; 3; 4]).2 = [0; 2; 3] ++ [4] ∧
    (4 ∉ [0; 2; 3]) ∧
    (testMatch (teams st) 0 [0; 2; 3] = inl false
     ↔ strands (teams st) 0 (list_to_set [0; 2; 3])).
Proof.
  split; [reflexivity|].
  eassert (Hreach : turn_entry six_names 5 (fresh six_names []) 0 1 1
                      ([0; 2; 3; 4], [5; 1]) _).
  { eapply turn_next.
    - eapply (turn_first _ _ _ 0 1).
      + apply entry_first; [reflexivity|reflexivity|vm_compute; lia].
      + vm_compute; lia.
      + vm_compute. reflexivity.
      + vm_compute; lia.
      + vm_compute. reflexivity.
    - vm_compute; lia.
    - vm_compute. reflexivity. }
  at_turn Hreach ltac:(fun U P st =>
    assert (Hsh : (shuffle (rng st) U).2 = [0; 2; 3] ++ [4])
      by (vm_compute; reflexivity)).
  destruct (viability_checker_contract (G:=list nat)) as [Hfun Hcall].
  destruct (Hcall _ _ _ _ _ _ _ _ _ _ _ Hreach eq_refl Hsh) as [Hp _].
  assert (Hin : 0 ∈ [0; 2; 3]) by left.
  at_turn Hreach ltac:(fun U P st =>
    destruct (Hfun (teams st) 0 [0; 2; 3]) as [Hc _]).
  destruct (Hc Hin) as [Hfalse _].
  eexists. split_and!; [exact Hreach|exact Hsh|exact Hp|exact Hfalse].
Defined.

Lemma main_reproducible_witness :
  (∀ (g1 g2 l : list nat), g1 = g2 →
     (shuffle g1 l).2 = (shuffle g2 l).2 ∧ (shuffle g1 l).1 = (shuffle g2 l).1) ∧
  (∀ (g1 g2 l : list nat), g1 = g2 →
     (choice g1 l).2 = (choice g2 l).2 ∧ (choice g1 l).1 = (choice g2 l).1) ∧
  result_R eq (main 3 [7] [2; 0; 1; 3] six_names 7 0 [])
              (main 3 [9; 9] [2; 0; 1; 3] six_names 7 0 []).
Proof.
  assert (Hs : ∀ (g1 g2 l : list nat), g1 = g2 →
            (shuffle g1 l).2 = (shuffle g2 l).2
            ∧ (shuffle g1 l).1 = (shuffle g2 l).1).
  { intros g1 g2 l ->. split; reflexivity. }
  assert (Hc : ∀ (g1 g2 l : list nat), g1 = g2 →
            (choice g1 l).2 = (choice g2 l).2
            ∧ (choice g1 l).1 = (choice g2 l).1).
  { intros g1 g2 l ->. split; reflexivity. }
  split_and!; [exact Hs|exact Hc|].
  apply (main_reproducible eq Hs Hc). reflexivity.
Defined.

(** * Properties of the whole program *)


(** ** Runs of [main] as a whole *)

Section runs.

Context {G : Type} `{!RandomGen G}.

Implicit Types (st : Sched G).

Lemma main_loop_not_Crashed fuel names weeks st r data e :
  let d := length names - 1 in
  let np := ceil_div weeks d in
  teams st = Team.new <$> names → s st = WeeklySchedule.new →
  length names mod 2 = 0 → 1 ≤ d → 1 ≤ np →
  main_loop fuel names weeks d np st r data ≠ Crashed e.
Proof.
  intros d np. revert st r.
  induction fuel as [|fuel IH]; intros st r Hts Hs Heven Hd Hnp; [done|].
  cbn [main_loop].
  destruct (passes _ _ _ _ _ _ _) as [[rv retry] st1|e1 st1] eqn:Hp.
  - eapply (passes_Done names weeks 0 np) in Hp; [|try done; try lia..].
    2:{ rewrite Hts, Hs. apply attempt_inv_new. }
    destruct Hp as [(-> & -> & Hinv)|(-> & ->)]; [done|].
    by apply IH.
  - by eapply (passes_Raise names weeks 0 np) in Hp;
      [|rewrite ?Hts, ?Hs; try apply attempt_inv_new; try done..].
Qed.

Lemma name_of_names names (ts : list Team.t) x :
  Team.name <$> ts = names → x < length names →
  names !! x = Some (name_of ts x).
Proof.
  intros <- Hx. rewrite length_fmap in Hx. unfold name_of.
  rewrite list_lookup_fmap, list_lookup_total_alt.
  by destruct (lookup_lt_is_Some_2 ts x Hx) as [t ->].
Qed.

Lemma elem_of_delete_names (names : list string) x y :
  x ≠ y → y < length names →
  ∀ nm, names !! y = Some nm → nm ∈ delete x names.
Proof.
  intros Hxy Hy nm Hnm. apply list_elem_of_lookup.
  destruct (decide (y < x)).
  - exists y. by rewrite list_lookup_delete_lt.
  - exists (y - 1). rewrite list_lookup_delete_ge by lia.
    by replace (S (y - 1)) with y by lia.
Qed.

(** After a successful attempt every entry of a schedule names a team other
    than the schedule's owner. *)
Lemma attempt_inv_opponent names d weeks (ts : list Team.t) ws x nm :
  attempt_inv names d weeks ts ws →
  x < length names → nm ∈ schedule_of ts x →
  ∃ y, y < length names ∧ y ≠ x ∧ nm = name_of ts y.
Proof.
  intros Hinv Hx [j Hj]%list_elem_of_lookup.
  assert (j < weeks) as Hjw.
  { rewrite <-(ai_length _ _ _ _ _ Hinv x Hx). by eapply lookup_lt_Some. }
  destruct (ai_sym _ _ _ _ _ Hinv j x Hjw Hx) as (y & Hy & Hyx & H1 & _).
  exists y. split_and!; [done..|]. congruence.
Qed.

Lemma attempt_inv_others names d weeks (ts : list Team.t) ws x nm :
  attempt_inv names d weeks ts ws →
  x < length names → nm ∈ schedule_of ts x → nm ∈ delete x names.
Proof.
  intros Hinv Hx Hnm.
  destruct (attempt_inv_opponent _ _ _ _ _ _ _ Hinv Hx Hnm) as (y & Hy & Hyx & ->).
  eapply (elem_of_delete_names names x y); [done..|].
  apply name_of_names; [apply Hinv|done].
Qed.

(** X7.  After a successful run with distinct names, every entry of a
    team's schedule is the name of another team of the list: no team is
    scheduled against itself or against a name that was not given. *)
Theorem opponents_are_other_teams fuel ambient entropy names weeks r data
    ts ws r' data' g :
  NoDup names →
  length names mod 2 = 0 →
  main fuel ambient entropy names weeks r data = Success ts ws r' data' g →
  ∀ x, x < length names →
    (name_of ts x ∉ schedule_of ts x) ∧
    ∀ nm, nm ∈ schedule_of ts x → nm ∈ delete x names.
Proof.
  intros Hnd Heven Hmain x Hx.
  apply main_Success in Hmain as (_ & Hinv & _); [|done].
  split.
  - intros (y & Hy & Hyx & Heq)%(attempt_inv_opponent names _ _ _ _ _ _ Hinv Hx).
    apply (name_of_inj names) in Heq; [done|apply Hinv|done..].
  - intros nm. by apply (attempt_inv_others names _ _ _ _ _ _ Hinv).
Qed.

(** X8.  After a successful run with distinct names, every full cycle is a
    complete round robin: for every team, each block of [N-1] weeks that was
    scheduled in full lists every other team exactly once. *)
Theorem full_cycle_is_round_robin fuel ambient entropy names weeks r data
    ts ws r' data' g :
  NoDup names →
  length names mod 2 = 0 →
  main fuel ambient entropy names weeks r data = Success ts ws r' data' g →
  ∀ x c, x < length names → (c + 1) * (length names - 1) ≤ weeks →
    take (length names - 1) (drop (c * (length names - 1)) (schedule_of ts x))
    ≡ₚ delete x names.
Proof.
  intros Hnd Heven Hmain x c Hx Hc.
  apply main_Success in Hmain as (_ & Hinv & _); [|done].
  set (d := length names - 1) in *.
  apply submseteq_length_Permutation.
  - apply NoDup_submseteq.
    + by apply (ai_blocks _ _ _ _ _ Hinv).
    + intros nm Hnm. apply (attempt_inv_others names _ _ _ _ _ _ Hinv Hx).
      by eapply subseteq_drop, subseteq_take.
  - rewrite length_take, length_drop, (ai_length _ _ _ _ _ Hinv x Hx).
    rewrite length_delete by (by apply lookup_lt_is_Some_2). unfold d. nia.
Qed.

End runs.

(** ** The look-ahead of the matchup loop *)

Lemma exists_unplayed (teams : list Team.t) (U : list nat) t w :
  NoDup U → size (played teams t) = w → w + 2 ≤ length U →
  ∃ u, u ∈ U ∧ u ≠ t ∧ u ∉ played teams t.
Proof.
  intros Hnd Hsz Hlen.
  destruct (set_choose_or_empty
              (list_to_set U ∖ (played teams t ∪ {[t]}) : gset nat))
    as [[u Hu]|Hempty].
  - exists u. set_solver.
  - exfalso.
    assert (Hsub : (list_to_set U : gset nat) ⊆ played teams t ∪ {[t]}).
    { intros x Hx. destruct (decide (x ∈ played teams t ∪ {[t]})); [done|].
      set_solver. }
    apply subseteq_size in Hsub. rewrite size_list_to_set in Hsub by done.
    rewrite size_union_alt, Hsz in Hsub.
    assert (size ({[t]} ∖ played teams t : gset nat) ≤ size ({[t]} : gset nat))
      by (apply subseteq_size; set_solver).
    rewrite size_singleton in *. lia.
Qed.

Lemma not_strands_unplayed (teams : list Team.t) (U2 : list nat) m t :
  ¬ strands teams m (list_to_set U2) → t ∈ U2 → t ≠ m →
  ∃ u, u ∈ U2 ∧ u ≠ m ∧ u ≠ t ∧ u ∉ played teams t.
Proof.
  intros Hstr Ht Htm.
  destruct (set_choose_or_empty
              ((list_to_set U2 ∖ {[m]}) ∖ (played teams t ∪ {[t]}) : gset nat))
    as [[u Hu]|Hempty].
  - exists u. set_solver.
  - destruct Hstr. exists t. split; [set_solver|].
    intros x Hx. destruct (decide (x ∈ played teams t ∪ {[t]})); [done|].
    set_solver.
Qed.

Section lookahead.

Context {G : Type} `{!RandomGen G}.

Implicit Types (st : Sched G).

Lemma matchup_Done_inv w i U S st U' S' st' :
  matchup w i (U, S) st = Done (U', S') st' →
  ∃ p m U2 st2,
    (shuffle (rng st) U).2 = U2 ++ [p] ∧
    select_match w i p U2 (S ++ [p]) (shuffled st U) = Done m st2 ∧
    commit p m U2 st2 = Done U' st' ∧ S' = (S ++ [p]) ++ [m].
Proof.
  rewrite matchup_eq.
  destruct (pop _) as [[p U2]|] eqn:Hpop; [|done].
  apply pop_Some in Hpop.
  destruct (select_match _ _ _ _ _ _) as [m st2|] eqn:Hsel; [|done].
  destruct (commit _ _ _ _) as [U3 st3|] eqn:Hcom; [|done].
  intros [= <- <- <-]. by exists p, m, U2, st2.
Qed.

(** What a completed turn did, in terms of the state before it. *)
Lemma matchup_Done_pair names teams0 base w i U S st U' S' st' :
  week_inv names teams0 base w U S (teams st) (s st) →
  matchup w i (U, S) st = Done (U', S') st' →
  ∃ p m U2,
    (shuffle (rng st) U).2 = U2 ++ [p] ∧ U ≡ₚ p :: U2 ∧ U2 ≡ₚ m :: U' ∧
    m ∈ candidates (teams st) w p U2 ∧ S' = (S ++ [p]) ++ [m] ∧
    teams st' = setMatchForTeam (teams st) p m.
Proof.
  intros Hinv (p & m & U2 & st2 & Hsh & Hsel & Hcom & ->)%matchup_Done_inv.
  pose proof (shuffle_Permutation (rng st) U) as Hperm. rewrite Hsh in Hperm.
  assert (HU : U ≡ₚ p :: U2) by (by rewrite <-Hperm, <-Permutation_cons_append).
  apply select_match_Done in Hsel as (Hts & Hs & Hm); simpl in *.
  2:{ intros Hlen x Hx. apply (wi_last _ _ _ _ _ _ _ _ Hinv).
      - rewrite HU. simpl. lia.
      - rewrite HU. left.
      - rewrite HU. by right. }
  apply commit_Done in Hcom as (Hrem & Hts3 & _).
  apply remove_first_Permutation in Hrem.
  exists p, m, U2. by rewrite Hts3, Hts.
Qed.

Lemma turn_entry_cases names weeks st0 i w k lists st :
  turn_entry names weeks st0 i w k lists st →
  w < pass_weeks weeks (length names - 1)
        (ceil_div weeks (length names - 1)) i ∧
  (k = 0 ∨
   ∃ k' lists' st', k = S k' ∧
     turn_entry names weeks st0 i w k' lists' st' ∧
     matchup w k' lists' st' = Done lists st).
Proof.
  induction 1 as [i w st st1 lists st2 Hentry Hw Hloop Hhalf Hstart
                 |i w k lists st lists' st' Hprev [IH _] Hk Hm].
  - split; [done|by left].
  - split; [done|]. right. by exists k, lists, st.
Qed.

(** X5.  At the top of every turn of the matchup loop each unscheduled team
    still has an unscheduled team that it has not played in the cycle.  So
    the list [matches] of line 328 is never empty for the picker: a dead end
    arises only where [testMatch] rejects every candidate. *)
Theorem unscheduled_teams_have_opponents names weeks st0 i w k U P st :
  turn_entry names weeks st0 i w k (U, P) st →
  length names mod 2 = 0 →
  (∀ t, t ∈ U → ∃ u, u ∈ U ∧ u ≠ t ∧ u ∉ played (teams st) t) ∧
  (∀ p U2, (shuffle (rng st) U).2 = U2 ++ [p] →
     filter (λ a, a ∉ played (teams st) p) U2 ≠ []).
Proof.
  intros Hreach Heven.
  destruct (turn_entry_inv _ _ _ _ _ _ _ _ _ Hreach Heven)
    as (teams0 & Hinv & Hlen & Hk).
  assert (Hnd : NoDup U).
  { assert (Hnd : NoDup (U ++ P)).
    { rewrite (wi_lists _ _ _ _ _ _ _ _ Hinv). apply NoDup_seq. }
    by apply NoDup_app in Hnd as [? _]. }
  assert (Hall : ∀ t, t ∈ U → ∃ u, u ∈ U ∧ u ≠ t ∧ u ∉ played (teams st) t).
  { intros t Ht.
    assert (Hsz : size (played (teams st) t) = w).
    { eapply cycle_ok_size, Hinv, Ht. }
    destruct (turn_entry_cases _ _ _ _ _ _ _ _ Hreach)
      as [Hw [->|(k' & [U0 S0] & st' & -> & Hprev & Hm)]].
    - apply (exists_unplayed _ _ _ w); [done..|].
      assert (Hd : 1 ≤ length names - 1).
      { pose proof (even_half _ Heven). lia. }
      pose proof (pass_weeks_le weeks (length names - 1)
                    (ceil_div weeks (length names - 1)) i Hd). lia.
    - destruct (turn_entry_inv _ _ _ _ _ _ _ _ _ Hprev Heven)
        as (teams1 & Hinv0 & Hlen0 & _).
      destruct (matchup_Done_pair _ _ _ _ _ _ _ _ _ _ _ Hinv0 Hm)
        as (p & m & U2 & Hsh & HU0 & HU2 & Hcand & _ & Hts).
      apply candidates_elem_of in Hcand as (HmU2 & Hmp & Hstr).
      assert (Hnd0 : NoDup (p :: m :: U)).
      { assert (Hnd0 : NoDup (U0 ++ S0)).
        { rewrite (wi_lists _ _ _ _ _ _ _ _ Hinv0). apply NoDup_seq. }
        apply NoDup_app in Hnd0 as [Hnd0 _]. by rewrite HU0, HU2 in Hnd0. }
      assert (Hpm : p ≠ m ∧ t ≠ p ∧ t ≠ m).
      { apply NoDup_cons in Hnd0 as [Hp Hnd0]. apply NoDup_cons in Hnd0 as [Hm' _].
        set_solver. }
      destruct Hpm as (Hpm & Htp & Htm).
      assert (Hsame : ∀ z, z ≠ p → z ≠ m →
                played (teams st) z = played (teams st') z).
      { intros z ??. rewrite Hts, setMatchForTeam_played; [by rewrite !decide_False|done|..].
        - eapply week_inv_range; [done|]. rewrite HU0. set_solver.
        - eapply week_inv_range; [done|]. rewrite HU0, HU2. set_solver. }
      destruct (decide (length U2 = 1)) as [Hl1|Hl1].
      { rewrite HU2 in Hl1. destruct U; [by apply elem_of_nil in Ht|simpl in Hl1; lia]. }
      destruct (viability_guard U2 w) eqn:Hguard.
      + destruct (not_strands_unplayed (teams st') U2 m t) as (u & Hu & Hum & Hut & Hup);
          [by apply Hstr|rewrite HU2; by right|done|].
        exists u. split_and!; [|done|by rewrite Hsame].
        rewrite HU2 in Hu. set_solver.
      + apply bool_decide_eq_false in Hguard.
        apply (exists_unplayed _ _ _ w); [done..|].
        rewrite HU2 in Hguard. simpl in Hguard. lia. }
  split; [done|].
  intros p U2 Hsh.
  pose proof (shuffle_Permutation (rng st) U) as Hperm. rewrite Hsh in Hperm.
  assert (HU : U ≡ₚ p :: U2) by (by rewrite <-Hperm, <-Permutation_cons_append).
  destruct (Hall p) as (u & Hu & Hup & Hnot); [rewrite HU; left|].
  intros Hnil.
  assert (Hin : u ∈ filter (λ a, a ∉ played (teams st) p) U2).
  { apply list_elem_of_filter. split; [done|]. rewrite HU in Hu. set_solver. }
  rewrite Hnil in Hin. by apply elem_of_nil in Hin.
Qed.

End lookahead.

(** ** Team counts for which the outcome does not depend on the draws *)

Lemma pass_weeks_pos weeks d np i : 1 ≤ d → 1 ≤ pass_weeks weeks d np i.
Proof. intros Hd. unfold pass_weeks. repeat case_decide; lia. Qed.

(** With two teams left besides the picker, [testMatch] rejects both. *)
Lemma two_left_strands (teams : list Team.t) (U2 : list nat) m :
  NoDup U2 → length U2 = 2 → m ∈ U2 → strands teams m (list_to_set U2).
Proof.
  intros Hnd Hlen Hm. destruct U2 as [|a [|b [|??]]]; simplify_eq/=.
  apply NoDup_cons in Hnd as [Hab _].
  assert (a ≠ b) by set_solver.
  apply elem_of_cons in Hm as [->|Hm]; [|apply list_elem_of_singleton in Hm as ->].
  - exists b. split; set_solver.
  - exists a. split; set_solver.
Qed.

Section parity.

Context {G : Type} `{!RandomGen G}.

Implicit Types (st : Sched G).

Lemma matchups_odd_Raise names teams0 base w i k U S st :
  week_inv names teams0 base w U S (teams st) (s st) →
  length U = 2 * k + 1 → 1 ≤ k →
  ∃ st', matchups w (seq i k) (U, S) st = Raise IndexError st'.
Proof.
  revert i U S st. induction k as [|k IH]; intros i U S st Hinv Hlen Hk; [lia|].
  cbn [seq]. rewrite matchups_cons.
  destruct (matchup w i (U, S) st) as [[U1 S1] st1|e1 st1] eqn:Hm.
  - pose proof Hm as Hm'.
    apply (matchup_Done names teams0 base) in Hm as [Hinv1 Hlen1]; [|done].
    destruct (decide (k = 0)) as [->|Hk0]; [|apply IH; [done|lia..]].
    exfalso.
    destruct (matchup_Done_pair _ _ _ _ _ _ _ _ _ _ _ Hinv Hm')
      as (p & m & U2 & Hsh & HU & HU2 & Hcand & _).
    apply candidates_elem_of in Hcand as (HmU2 & _ & Hstr).
    assert (Hl2 : length U2 = 2) by (rewrite HU in Hlen; simpl in Hlen; lia).
    apply Hstr; [lia| |].
    + apply bool_decide_eq_true. lia.
    + apply two_left_strands; [|done..].
      assert (Hnd : NoDup (U ++ S)).
      { rewrite (wi_lists _ _ _ _ _ _ _ _ Hinv). apply NoDup_seq. }
      apply NoDup_app in Hnd as [Hnd _]. rewrite HU in Hnd.
      by apply NoDup_cons in Hnd as [_ ?].
  - apply (matchup_Raise names teams0 base) in Hm as [-> _]; [by eexists|done|].
    intros ->. simpl in Hlen. lia.
Qed.

Lemma week_odd_Raise names teams0 base w st :
  pass_inv names teams0 base w (teams st) (s st) →
  length names mod 2 = 1 → 3 ≤ length names →
  ∃ st', week w st = Raise IndexError st'.
Proof.
  intros Hinv Hodd Hn. rewrite week_eq.
  assert (Hlen : length (teams st) = length names).
  { by rewrite <-(pi_names _ _ _ _ _ _ Hinv), length_fmap. }
  pose proof (Nat.div_mod_eq (length names) 2) as Hdm.
  edestruct (matchups_odd_Raise names teams0 base w 0 (length (teams st) / 2))
    as [st' ->]; [| | |by eexists].
  - simpl. apply week_inv_start; [done|lia].
  - rewrite length_seq, Hlen. lia.
  - rewrite Hlen. lia.
Qed.

Lemma runScheduler_odd names teams0 base weeks st :
  pass_inv names teams0 base 0 (teams st) (s st) →
  length names mod 2 = 1 → 3 ≤ length names → 1 ≤ weeks →
  ∃ st', runScheduler weeks st = Done false st'.
Proof.
  intros Hinv Hodd Hn Hw. unfold runScheduler.
  destruct weeks as [|weeks]; [lia|]. cbn [seq]. rewrite week_loop_cons.
  destruct (week_odd_Raise _ _ _ _ _ Hinv Hodd Hn) as [st' ->]. by eexists.
Qed.

Lemma passes_odd names weeks st :
  let d := length names - 1 in
  let np := ceil_div weeks d in
  teams st = Team.new <$> names → s st = WeeklySchedule.new →
  length names mod 2 = 1 → 3 ≤ length names → 1 ≤ weeks →
  ∃ st', passes weeks d np (seq 0 np) None true st = Done (Some false, true) st'.
Proof.
  intros d np Hts Hs Hodd Hn Hw.
  assert (Hnp : 1 ≤ np) by (apply ceil_div_pos; unfold d; lia).
  destruct np as [|np]; [lia|]. cbn [seq]. rewrite passes_cons.
  edestruct (runScheduler_odd names) as [st' ->]; [|done..| |].
  - apply (pass_inv_reset names d 0 (teams st) (s st)).
    rewrite Hts, Hs. apply attempt_inv_new.
  - apply pass_weeks_pos. unfold d. lia.
  - exists st'. case_decide; [done|]. by destruct np; [|lia].
Qed.

(** X2.  With an odd number of teams, three or more, every attempt of [main]
    ends in a dead end: when two teams are left besides the picker,
    [testMatch] rejects both, so [random.choice] raises [IndexError] on an
    empty list in the last matchup of the first week.  [main] retries for
    ever: for every bound on the number of attempts the result is
    [OutOfFuel].  ([weeks] is below 2^53, where the floating-point quotient
    of line 262 is exact.) *)
Theorem odd_teams_never_finish fuel ambient entropy names weeks r data :
  length names mod 2 = 1 → 3 ≤ length names → 1 ≤ weeks →
  (Z.of_nat weeks < 2 ^ 53)%Z →
  main fuel ambient entropy names weeks r data = OutOfFuel.
Proof.
  intros Hodd Hn Hw _. unfold main. rewrite length_fmap.
  rewrite !decide_False by lia.
  generalize entropy r. clear entropy r.
  induction fuel as [|fuel IH]; intros g r; [done|]. cbn [main_loop].
  edestruct (passes_odd names weeks) as [st' ->]; [done..|]. apply IH.
Qed.

(** X1.  [main] leaves through an exception exactly in three cases: with a
    single team through the [ZeroDivisionError] of line 262, and without a
    team or without a week to schedule through the [UnboundLocalError] of
    line 286, where [retVal] is read before any pass has bound it.  In every
    other case the exceptions of a run are the [IndexError]s of the dead
    ends, which [runScheduler] catches.  ([weeks] is below 2^53, where the
    floating-point quotient of line 262 is exact.) *)
Theorem main_crashes_iff fuel ambient entropy names weeks r data e :
  (Z.of_nat weeks < 2 ^ 53)%Z →
  main (S fuel) ambient entropy names weeks r data = Crashed e ↔
  (length names = 1 ∧ e = ZeroDivisionError) ∨
  (length names ≠ 1 ∧ (length names = 0 ∨ weeks = 0) ∧ e = UnboundLocalError).
Proof.
  intros _. unfold main. rewrite length_fmap.
  case_decide as Hn.
  { split; [intros [= <-]; right; split_and!; [lia|by left|done]|].
    intros [[? _]|(_ & _ & ->)]; [lia|done]. }
  case_decide as Hd.
  { split; [intros [= <-]; left; split; [lia|done]|].
    intros [[_ ->]|(? & _)]; [done|lia]. }
  destruct (decide (weeks = 0)) as [->|Hw].
  { cbn. unfold ceil_div. rewrite Nat.Div0.div_0_l, Nat.Div0.mod_0_l. simpl.
    split; [intros [= <-]; right; split_and!; [lia|by right|done]|].
    intros [[? _]|(_ & _ & ->)]; [lia|done]. }
  split; [|intros [[? _]|(_ & [?|?] & _)]; lia].
  intros Hloop. exfalso. revert Hloop.
  destruct (Nat.mod_bound_pos (length names) 2) as [_ Hlt]; [lia..|].
  destruct (decide (length names mod 2 = 0)) as [Heven|Hodd].
  - apply main_loop_not_Crashed; [done..|lia|apply ceil_div_pos; lia].
  - assert (Hodd' : length names mod 2 = 1) by lia.
    assert (H3 : 3 ≤ length names).
    { destruct (length names) as [|[|[|?]]]; simpl in *; lia. }
    assert (Hout : ∀ g r', main_loop (S fuel) names weeks (length names - 1)
                     (ceil_div weeks (length names - 1))
                     {| rng := g; teams := Team.new <$> names;
                        s := WeeklySchedule.new |} r' data = OutOfFuel).
    { generalize (S fuel). intros f. induction f as [|f IH]; intros g r'; [done|].
      cbn [main_loop].
      edestruct (passes_odd names weeks) as [st' ->]; [done..|lia|]. apply IH. }
    by rewrite Hout.
Qed.

Lemma matchups_week0_Done names teams0 base i k U S st :
  week_inv names teams0 base 0 U S (teams st) (s st) →
  length U = 2 * k →
  ∃ lists st', matchups 0 (seq i k) (U, S) st = Done lists st'.
Proof.
  revert i U S st. induction k as [|k IH]; intros i U S st Hinv Hlen; cbn [seq].
  - by eexists _, _.
  - rewrite matchups_cons.
    destruct (matchup 0 i (U, S) st) as [[U1 S1] st1|e1 st1] eqn:Hm.
    + apply (matchup_Done names teams0 base) in Hm as [Hinv1 Hlen1]; [|done].
      apply IH; [done|lia].
    + exfalso.
      apply (matchup_Raise names teams0 base) in Hm
        as (_ & p & U2 & Hsh & Hl1 & Hcand); [|done|].
      2:{ intros ->. simpl in Hlen. lia. }
      pose proof (shuffle_Permutation (rng st) U) as Hperm. rewrite Hsh in Hperm.
      assert (HU : U ≡ₚ p :: U2) by (by rewrite <-Hperm, <-Permutation_cons_append).
      assert (Hl : 3 ≤ length U2) by (rewrite HU in Hlen; simpl in Hlen; lia).
      unfold candidates, viability_guard in Hcand.
      rewrite decide_False, bool_decide_false in Hcand by lia.
      rewrite (cycle_ok_0 base (teams st) p) in Hcand.
      2:{ apply Hinv. rewrite HU. left. }
      rewrite filter_all in Hcand by set_solver.
      subst U2. simpl in Hl. lia.
Qed.

Lemma week0_Done names teams0 base st :
  pass_inv names teams0 base 0 (teams st) (s st) →
  length names mod 2 = 0 →
  ∃ st', week 0 st = Done () st'.
Proof.
  intros Hinv Heven. rewrite week_eq.
  assert (Hlen : length (teams st) = length names).
  { by rewrite <-(pi_names _ _ _ _ _ _ Hinv), length_fmap. }
  edestruct (matchups_week0_Done names teams0 base 0 (length (teams st) / 2))
    as (lists & st' & ->); [| |by eexists].
  - simpl. by apply week_inv_start.
  - rewrite length_seq, Hlen. by apply even_half.
Qed.

(** X4.  The first week of a cycle never runs into a dead end: from every
    state in which [main] starts a pass, once the sets are cleared the week
    loop's first week completes. *)
Theorem first_week_never_fails names weeks st0 i st :
  pass_entry names weeks st0 i st →
  length names mod 2 = 0 → 2 ≤ length names →
  ∃ st', week 0 (reset st) = Done () st'.
Proof.
  intros Hentry Heven Hn.
  destruct (pass_entry_inv _ _ _ _ _ Hentry Heven) as [Hinv _]; [lia|].
  eapply (week0_Done names); [|done].
  by eapply (pass_inv_reset names _ _ (teams st) (s st)).
Qed.

Lemma runScheduler_one names teams0 base st :
  pass_inv names teams0 base 0 (teams st) (s st) →
  length names mod 2 = 0 →
  ∃ st', runScheduler 1 st = Done true st'.
Proof.
  intros Hinv Heven. unfold runScheduler. cbn [seq]. rewrite week_loop_cons.
  destruct (week0_Done _ _ _ _ Hinv Heven) as [st' ->]. by eexists.
Qed.

Lemma pass_weeks_single weeks d np i :
  d = 1 ∨ weeks = 1 → np = ceil_div weeks d → pass_weeks weeks d np i = 1.
Proof.
  intros Hor ->. unfold pass_weeks, ceil_div. destruct Hor as [->| ->].
  - rewrite Nat.mod_1_r. repeat case_decide; lia.
  - destruct (decide (d = 1)) as [->|Hd]; [simpl; repeat case_decide; lia|].
    destruct (decide (d = 0)) as [->|Hd0]; [simpl; repeat case_decide; lia|].
    rewrite Nat.div_small, Nat.mod_small by lia.
    repeat case_decide; lia.
Qed.

Lemma passes_single names weeks i k rv retry st :
  let d := length names - 1 in
  let np := ceil_div weeks d in
  attempt_inv names d (i * d) (teams st) (s st) →
  length names mod 2 = 0 → 1 ≤ d →
  i + k = np → 1 ≤ k →
  d = 1 ∨ weeks = 1 →
  ∃ st', passes weeks d np (seq i k) rv retry st = Done (Some true, false) st'.
Proof.
  intros d np. revert i rv retry st.
  induction k as [|k IH]; intros i rv retry st Hinv Heven Hd Hik Hk Hor; [lia|].
  cbn [seq]. rewrite passes_cons.
  pose proof (pass_inv_reset _ _ _ _ _ Hinv) as Hpass.
  rewrite (pass_weeks_single weeks d np i) by done.
  destruct (runScheduler_one names _ _ (reset st) Hpass Heven) as [st1 Hrun].
  rewrite Hrun.
  eapply (runScheduler_Done names) in Hrun; [|done..|lia|done].
  eapply attempt_inv_pass in Hrun; [|done..].
  case_decide as Hi.
  - apply IH; [|done..|lia|lia|done].
    assert (d = 1) as Hd1.
    { destruct Hor as [?| ->]; [done|]. exfalso.
      assert (np = 1); [|lia].
      unfold np, ceil_div. destruct (decide (d = 1)) as [->|?]; [done|].
      rewrite Nat.div_small, Nat.mod_small by lia. by case_decide. }
    by replace (S i * d) with (i * d + 1) by lia.
  - destruct k; [|lia]. by eexists.
Qed.

(** X3.  With two teams, or for a single week, every cycle has one week and
    [main] succeeds at the first attempt, whatever is drawn: it returns with
    [retries_needed] unchanged and appended to [data].  ([weeks] is below
    2^53, where the floating-point quotient of line 262 is exact.) *)
Theorem single_week_cycles_succeed fuel ambient entropy names weeks r data :
  length names mod 2 = 0 → 2 ≤ length names → 1 ≤ weeks →
  length names = 2 ∨ weeks = 1 →
  (Z.of_nat weeks < 2 ^ 53)%Z →
  ∃ ts ws g,
    main (S fuel) ambient entropy names weeks r data
    = Success ts ws r (data ++ [r]) g.
Proof.
  intros Heven Hn Hw Hor _. unfold main. rewrite length_fmap.
  rewrite !decide_False by lia. cbn [main_loop].
  edestruct (passes_single names weeks 0) as [st' ->]; [..|by eexists _, _, _].
  - simpl. apply attempt_inv_new.
  - done.
  - lia.
  - done.
  - apply ceil_div_pos; lia.
  - destruct Hor as [->|?]; [by left|by right].
Qed.

Lemma passes_flags weeks d np rv retry st st' :
  1 ≤ np →
  passes weeks d np (seq 0 np) None true st = Done (rv, retry) st' →
  ∃ ok, rv = Some ok ∧ retry = negb ok.
Proof.
  intros Hnp. rewrite passes_run_cycles by lia.
  destruct (run_cycles _ _) as [ok st1|]; [|done].
  intros [= <- <- <-]. by exists ok.
Qed.

Lemma main_loop_attempts fuel names weeks d np st r data ts ws r' data' g :
  main_loop fuel names weeks d np st r data = Success ts ws r' data' g →
  r ≤ r' ∧ data' = data ++ [r'] ∧
  ∀ fuel', main_loop fuel' names weeks d np st r data =
           if decide (r' - r < fuel') then Success ts ws r' data' g
           else OutOfFuel.
Proof.
  revert st r. induction fuel as [|fuel IH]; intros st r; [done|].
  cbn [main_loop].
  destruct (decide (np = 0)) as [->|Hnp]; [done|].
  destruct (passes _ _ _ _ _ _ _) as [[[b|] retry] st1|] eqn:Hp; [|done..].
  apply passes_flags in Hp as Hflags; [|lia].
  destruct Hflags as (ok & [= ->] & ->). destruct ok; simpl.
  - intros [= <- <- <- <- <-]. split_and!; [done..|].
    intros [|fuel']; [by rewrite decide_False by lia|].
    cbn [main_loop]. rewrite Hp. simpl. by rewrite decide_True by lia.
  - intros Hloop. apply IH in Hloop as (Hle & -> & Hall).
    split_and!; [lia|done|].
    intros [|fuel']; [by rewrite decide_False by lia|].
    cbn [main_loop]. rewrite Hp. simpl. rewrite Hall.
    repeat case_decide; done || lia.
Qed.

(** X6.  On success [retries_needed] has grown by the number of attempts
    that failed and [data] by one entry, the new count: the run succeeds
    with every bound above that number of attempts and with no bound up to
    it. *)
Theorem retries_count_failed_attempts fuel ambient entropy names weeks
    r data ts ws r' data' g :
  main fuel ambient entropy names weeks r data = Success ts ws r' data' g →
  r ≤ r' ∧ data' = data ++ [r'] ∧
  ∀ fuel', main fuel' ambient entropy names weeks r data =
           if decide (r' - r < fuel') then Success ts ws r' data' g
           else OutOfFuel.
Proof.
  unfold main. case_decide; [done|]. case_decide; [done|].
  apply main_loop_attempts.
Qed.

End parity.

(** ** [getTeamByName] *)

Lemma filter_none {A} (P : A → Prop) `{∀ x, Decision (P x)} (l : list A) :
  (∀ x, x ∈ l → ¬ P x) → filter P l = [].
Proof.
  induction l as [|x l IH]; intros Hl; [done|].
  rewrite filter_cons, decide_False by (apply Hl; left).
  apply IH. intros y ?. apply Hl. by right.
Qed.

Lemma filter_app_last {A} (P : A → Prop) `{∀ x, Decision (P x)} (l l' : list A) a :
  filter P l = l' ++ [a] →
  ∃ l1 l2, l = l1 ++ a :: l2 ∧ P a ∧ ∀ b, b ∈ l2 → ¬ P b.
Proof.
  revert l'. induction l as [|x l IH]; intros l' Hf.
  - by destruct l'.
  - rewrite filter_cons in Hf. case_decide as Hx.
    + destruct l' as [|z l'].
      * injection Hf as -> Hfl.
        exists [], l. split_and!; [done..|].
        intros b Hb Hpb.
        assert (Hin : b ∈ filter P l) by (by apply list_elem_of_filter).
        rewrite Hfl in Hin. by apply elem_of_nil in Hin.
      * injection Hf as -> Hfl.
        destruct (IH l' Hfl) as (l1 & l2 & -> & ? & ?).
        by exists (z :: l1), l2.
    + destruct (IH l' Hf) as (l1 & l2 & -> & ? & ?).
      by exists (x :: l1), l2.
Qed.

(** X10.  [getTeamByName] returns the last team of the list that bears the
    name, and fails with [IndexError] exactly when no team bears it. *)
Theorem getTeamByName_last (teams : list Team.t) name (allTeams : list nat) :
  (∀ a, getTeamByName teams name allTeams = inl a ↔
        ∃ l1 l2, allTeams = l1 ++ a :: l2 ∧ name_of teams a = name ∧
                 ∀ b, b ∈ l2 → name_of teams b ≠ name) ∧
  (∀ e, getTeamByName teams name allTeams = inr e ↔
        e = IndexError ∧ ∀ b, b ∈ allTeams → name_of teams b ≠ name).
Proof.
  unfold getTeamByName. split.
  - intros a. destruct (pop _) as [[x r]|] eqn:Hpop.
    + apply pop_Some in Hpop. split.
      * intros [= ->]. by apply filter_app_last in Hpop.
      * intros (l1 & l2 & -> & Ha & Hl2). f_equal.
        rewrite filter_app, filter_cons, decide_True in Hpop by done.
        rewrite (filter_none _ l2) in Hpop by done.
        by apply app_inj_tail in Hpop as [_ ->].
    + apply pop_None in Hpop. split; [done|].
      intros (l1 & l2 & -> & Ha & _).
      rewrite filter_app, filter_cons, decide_True in Hpop by done.
      by destruct (filter _ l1).
  - intros e. destruct (pop _) as [[x r]|] eqn:Hpop.
    + apply pop_Some in Hpop. split; [done|]. intros [_ Hall].
      assert (Hx : x ∈ filter (λ a, name_of teams a = name) allTeams).
      { rewrite Hpop. set_solver. }
      apply list_elem_of_filter in Hx as [Hx Hin]. by apply Hall in Hin.
    + apply pop_None in Hpop. split.
      * intros [= <-]. split; [done|]. intros b Hb Hname.
        assert (Hx : b ∈ filter (λ a, name_of teams a = name) allTeams)
          by (by apply list_elem_of_filter).
        rewrite Hpop in Hx. by apply elem_of_nil in Hx.
      * by intros [-> _].
Qed.

(** X11.  When the names of the teams are distinct, looking a team up by
    its own name finds that team. *)
Theorem getTeamByName_name_of (teams : list Team.t) x :
  NoDup (Team.name <$> teams) → x < length teams →
  getTeamByName teams (name_of teams x) (seq 0 (length teams)) = inl x.
Proof.
  intros Hnd Hx.
  assert (Hf : filter (λ a, name_of teams a = name_of teams x)
                 (seq 0 (length teams)) = [x]).
  { replace (length teams) with (x + S (length teams - S x)) by lia.
    rewrite seq_app. cbn [seq]. rewrite filter_app, filter_cons.
    rewrite decide_True by done.
    rewrite !filter_none; [done|..];
      intros y Hy%elem_of_seq Heq;
      apply (name_of_inj (Team.name <$> teams)) in Heq;
      rewrite ?length_fmap; (done || lia). }
  unfold getTeamByName. rewrite Hf. done.
Qed.

(** ** The weekly schedule and the schedules of the teams *)

Lemma week_text_snoc teams pairs pm :
  week_text teams (pairs ++ [pm]) = week_text teams pairs +:+ line_of teams pm.
Proof. unfold week_text. by rewrite foldl_app. Qed.

Lemma week_text_ext teams teams' pairs :
  (∀ x, name_of teams' x = name_of teams x) →
  week_text teams' pairs = week_text teams pairs.
Proof.
  intros Hn. unfold week_text. generalize ""%string.
  induction pairs as [|pm pairs IH]; intros acc; [done|]. simpl.
  rewrite IH. unfold line_of. by rewrite !Hn.
Qed.

Lemma name_of_fmap (teams : list Team.t) x :
  name_of teams x = default ""%string ((Team.name <$> teams) !! x).
Proof.
  unfold name_of. rewrite list_lookup_fmap, list_lookup_total_alt.
  by destruct (teams !! x).
Qed.

Lemma name_of_same_names (teams teams' : list Team.t) x :
  Team.name <$> teams' = Team.name <$> teams →
  name_of teams' x = name_of teams x.
Proof. intros Hn. by rewrite !name_of_fmap, Hn. Qed.

Lemma paired_at_ext teams teams' j x y :
  (∀ z, schedule_of teams' z = schedule_of teams z) →
  (∀ z, name_of teams' z = name_of teams z) →
  paired_at teams j x y → paired_at teams' j x y.
Proof. intros Hs Hn. unfold paired_at. by rewrite !Hs, !Hn. Qed.

Lemma pass_inv_rebase names teams0 base w teams ws :
  pass_inv names teams0 base w teams ws → pass_inv names teams base w teams ws.
Proof. intros Hinv. split; try apply Hinv. by intros x. Qed.

Lemma weekly_ok_grows n total teams teams' ws :
  grows teams teams' →
  (∀ x, name_of teams' x = name_of teams x) →
  weekly_ok n total teams ws → weekly_ok n total teams' ws.
Proof.
  intros Hg Hn (Hidx & wp & Hlen & Hs & Hall). split; [done|].
  exists wp. split_and!; [done| |].
  - rewrite Hs. apply list_fmap_ext. intros ?? _. symmetry. by apply week_text_ext.
  - intros j pairs Hj. destruct (Hall j pairs Hj) as [Hperm Hp].
    split; [done|]. intros pm Hpm. eapply paired_at_grows; eauto.
Qed.

Lemma length_paired_teams pairs :
  length (paired_teams pairs) = 2 * length pairs.
Proof.
  unfold paired_teams. induction pairs as [|pm pairs IH]; [done|].
  rewrite bind_cons, length_app, IH. simpl. lia.
Qed.

Section weekly.

Context {G : Type} `{!RandomGen G}.

Implicit Types (st : Sched G).

Lemma commit_text p m U2 st U3 st' old text :
  WeeklySchedule.schedule (s st) = old ++ [text] →
  WeeklySchedule.next_index (s st) = length old →
  commit p m U2 st = Done U3 st' →
  WeeklySchedule.schedule (s st') = old ++ [text +:+ line_of (teams st') (p, m)] ∧
  WeeklySchedule.next_index (s st') = length old.
Proof.
  intros Hs Hidx. unfold commit.
  destruct (remove_first m U2) as [r|]; [|done].
  rewrite Hs, Hidx, list_lookup_middle by done.
  intros [= <- <-]. simpl. split; [|done].
  by rewrite insert_app_r_alt, Nat.sub_diag by done.
Qed.

Lemma matchup_text names teams0 base w i U S st U' S' st' old :
  week_inv names teams0 base w U S (teams st) (s st) →
  turn_text (teams st) (s st) (base + w) old S →
  matchup w i (U, S) st = Done (U', S') st' →
  turn_text (teams st') (s st') (base + w) old S'.
Proof.
  intros Hinv (Hold & Hidx & cur & Hs & Hcur & Hpairs) Hm.
  destruct (matchup_Done_pair _ _ _ _ _ _ _ _ _ _ _ Hinv Hm)
    as (p & m & U2 & Hsh & HU & HU2 & Hcand & -> & Hts).
  apply matchup_Done_inv in Hm as (p' & m' & U2' & st2 & Hsh' & Hsel & Hcom & HS').
  rewrite Hsh in Hsh'. apply app_inj_tail in Hsh' as [<- <-].
  apply app_inj_tail in HS' as [_ <-].
  apply select_match_state in Hsel as [Hts2 Hs2]. simpl in Hts2, Hs2.
  eapply commit_text in Hcom as [Hs' Hidx']; [|by rewrite Hs2|by rewrite Hs2, Hidx].
  assert (Hnd : NoDup (p :: m :: U')).
  { assert (Hnd : NoDup (U ++ S)).
    { rewrite (wi_lists _ _ _ _ _ _ _ _ Hinv). apply NoDup_seq. }
    apply NoDup_app in Hnd as [Hnd _]. by rewrite HU, HU2 in Hnd. }
  assert (Hpm : p ≠ m).
  { apply NoDup_cons in Hnd as [Hp _]. set_solver. }
  assert (Hp : p < length (teams st)).
  { eapply week_inv_range; [done|]. rewrite HU. set_solver. }
  assert (Hml : m < length (teams st)).
  { eapply week_inv_range; [done|]. rewrite HU, HU2. set_solver. }
  assert (Hn : ∀ z, name_of (teams st') z = name_of (teams st) z).
  { intros z. by rewrite Hts, setMatchForTeam_name_of. }
  split_and!; [done|lia|].
  exists (cur ++ [(p, m)]). split_and!.
  - rewrite Hs', week_text_snoc. by rewrite (week_text_ext (teams st) (teams st')).
  - unfold paired_teams in *. rewrite bind_app, Hcur. simpl.
    by rewrite <-(assoc (++)).
  - intros pm [Hpm'|Hpm']%elem_of_app.
    + eapply paired_at_grows; [|done|by apply Hpairs].
      rewrite Hts. by apply setMatchForTeam_grows.
    + apply list_elem_of_singleton in Hpm' as ->. simpl.
      assert (Hlp : length (schedule_of (teams st) p) = base + w).
      { apply (wi_unsched _ _ _ _ _ _ _ _ Hinv). rewrite HU. left. }
      assert (Hlm : length (schedule_of (teams st) m) = base + w).
      { apply (wi_unsched _ _ _ _ _ _ _ _ Hinv). rewrite HU, HU2. set_solver. }
      unfold paired_at. rewrite !Hn, Hts, !setMatchForTeam_schedule_of by done.
      rewrite decide_True by done. rewrite decide_False by done.
      rewrite decide_True by done.
      by rewrite <-Hlp, list_lookup_middle, Hlp, <-Hlm, list_lookup_middle.
Qed.

Lemma matchups_text names teams0 base w i k U S st U' S' st' old :
  week_inv names teams0 base w U S (teams st) (s st) →
  turn_text (teams st) (s st) (base + w) old S →
  matchups w (seq i k) (U, S) st = Done (U', S') st' →
  turn_text (teams st') (s st') (base + w) old S'.
Proof.
  revert i U S st. induction k as [|k IH]; intros i U S st Hinv Htext; cbn [seq].
  - by intros [= <- <- <-].
  - rewrite matchups_cons.
    destruct (matchup w i (U, S) st) as [[U1 S1] st1|] eqn:Hm; [|done].
    eapply IH.
    + by eapply (matchup_Done names teams0 base) in Hm as [? _].
    + by eapply matchup_text.
Qed.

Lemma week_weekly names teams0 base w st st' :
  pass_inv names teams0 base w (teams st) (s st) →
  weekly_ok (length names) (base + w) (teams st) (s st) →
  length names mod 2 = 0 →
  (length names = 2 → w = 0) →
  week w st = Done () st' →
  weekly_ok (length names) (base + S w) (teams st') (s st').
Proof.
  intros Hinv%pass_inv_rebase (Hidx & wp & Hlen & Hs & Hall) Heven Hw Hweek.
  pose proof (week_Done names _ base w _ _ Hinv Heven Hw Hweek) as Hinv'.
  revert Hweek. rewrite week_eq.
  assert (Hlent : length (teams st) = length names).
  { by rewrite <-(pi_names _ _ _ _ _ _ Hinv), length_fmap. }
  destruct (matchups _ _ _ _) as [[U' S'] st1|] eqn:Hm; [|done].
  intros [= <-]. simpl.
  pose proof Hm as Hm'.
  apply (matchups_Done names (teams st) base) in Hm' as [Hinv1 ->];
    [|by apply week_inv_start|rewrite length_seq, Hlent; by apply even_half].
  assert (Htext : turn_text (teams st)
            {| WeeklySchedule.schedule :=
                 WeeklySchedule.schedule (s st) ++ [""%string];
               WeeklySchedule.next_index := WeeklySchedule.next_index (s st) |}
            (base + w) (WeeklySchedule.schedule (s st)) []).
  { split_and!; [by rewrite Hs, length_fmap|done|].
    exists []. simpl. split_and!; [done..|]. by intros pm ?%elem_of_nil. }
  eapply (matchups_text names (teams st) base) in Hm;
    [|by apply week_inv_start|exact Htext].
  destruct Hm as (_ & Hidx1 & cur & Hs1 & Hcur & Hpairs).
  assert (Hn : ∀ z, name_of (teams st1) z = name_of (teams st) z).
  { intros z. apply name_of_same_names.
    by rewrite (wi_names _ _ _ _ _ _ _ _ Hinv1), (pi_names _ _ _ _ _ _ Hinv). }
  split; [simpl; lia|]. exists (wp ++ [cur]). split_and!.
  - rewrite length_app. simpl. lia.
  - rewrite Hs1, Hs, fmap_app. simpl. f_equal.
    apply list_fmap_ext. intros ?? _. symmetry. by apply week_text_ext.
  - intros j pairs Hj. apply lookup_app_Some in Hj as [Hj|[Hge Hj]].
    + destruct (Hall j pairs Hj) as [Hperm Hp]. split; [done|].
      intros pm Hpm. eapply paired_at_grows; [|done|by apply Hp].
      apply (pi_grows _ _ _ _ _ _ Hinv').
    + destruct (j - length wp) as [|?] eqn:Hjl; [|by destruct n].
      injection Hj as <-.
      assert (j = base + w) as -> by lia. split; [|done].
      pose proof (wi_lists _ _ _ _ _ _ _ _ Hinv1) as HS. by rewrite Hcur.
Qed.

Lemma week_loop_weekly names teams0 base w k st st' :
  pass_inv names teams0 base w (teams st) (s st) →
  weekly_ok (length names) (base + w) (teams st) (s st) →
  length names mod 2 = 0 →
  w + k ≤ length names - 1 →
  week_loop (seq w k) st = Done () st' →
  weekly_ok (length names) (base + (w + k)) (teams st') (s st').
Proof.
  revert w st. induction k as [|k IH]; intros w st Hinv Hok Heven Hk; cbn [seq].
  - intros [= <-]. by rewrite Nat.add_0_r.
  - rewrite week_loop_cons. destruct (week w st) as [[] st1|] eqn:Hw; [|done].
    intros Hloop.
    replace (w + S k) with (S w + k) by lia.
    eapply IH; [| |done|lia|done].
    + apply (week_Done names teams0 base) in Hw; [done..|lia].
    + eapply week_weekly; [done..|lia|done].
Qed.

Lemma runScheduler_weekly names teams0 base weeks st st' :
  pass_inv names teams0 base 0 (teams st) (s st) →
  weekly_ok (length names) base (teams st) (s st) →
  length names mod 2 = 0 →
  weeks ≤ length names - 1 →
  runScheduler weeks st = Done true st' →
  weekly_ok (length names) (base + weeks) (teams st') (s st').
Proof.
  intros Hinv Hok Heven Hw. unfold runScheduler.
  destruct (week_loop (seq 0 weeks) st) as [[] st1|e st1] eqn:Hloop.
  - intros [= <-].
    eapply (week_loop_weekly names teams0 base 0 weeks) in Hloop;
      [done..|by rewrite Nat.add_0_r|done|done].
  - by destruct e.
Qed.

Lemma weekly_ok_reset n total st :
  weekly_ok n total (teams st) (s st) →
  weekly_ok n total (teams (reset st)) (s (reset st)).
Proof.
  intros (Hidx & wp & Hlen & Hs & Hall). split; [done|].
  exists wp. simpl. split_and!; [done| |].
  - rewrite Hs. apply list_fmap_ext. intros ?? _. symmetry.
    apply week_text_ext, name_of_clear.
  - intros j pairs Hj. destruct (Hall j pairs Hj) as [Hperm Hp].
    split; [done|]. intros pm Hpm.
    eapply paired_at_ext; [apply schedule_of_clear|apply name_of_clear|by apply Hp].
Qed.

Lemma passes_weekly names weeks i k rv retry st retry' st' :
  let d := length names - 1 in
  let np := ceil_div weeks d in
  attempt_inv names d (i * d) (teams st) (s st) →
  weekly_ok (length names) (i * d) (teams st) (s st) →
  length names mod 2 = 0 → 1 ≤ d →
  i + k = np → 1 ≤ k →
  passes weeks d np (seq i k) rv retry st = Done (Some true, retry') st' →
  weekly_ok (length names) weeks (teams st') (s st').
Proof.
  intros d np. revert i rv retry st.
  induction k as [|k IH]; intros i rv retry st Hinv Hok Heven Hd Hik Hk; [lia|].
  cbn [seq]. rewrite passes_cons.
  pose proof (pass_inv_reset _ _ _ _ _ Hinv) as Hpass.
  pose proof (pass_weeks_le weeks d np i Hd) as Hle.
  destruct (runScheduler _ _) as [r st1|] eqn:Hrun; [|done].
  destruct r.
  - pose proof Hrun as Hrun'.
    eapply (runScheduler_weekly names) in Hrun';
      [|exact Hpass|by apply weekly_ok_reset|done..].
    eapply (runScheduler_Done names) in Hrun; [|done..].
    simpl in Hrun. eapply attempt_inv_pass in Hrun; [|done..].
    case_decide as Hi.
    + rewrite pass_weeks_full in Hrun, Hrun' by done.
      apply IH; [| |done..|lia|lia].
      * by replace (S i * d) with (i * d + d) by lia.
      * by replace (S i * d) with (i * d + d) by lia.
    + destruct k; [|lia]. cbn [seq passes].
      intros [= <- <-].
      assert (i = np - 1) as -> by lia.
      unfold d, np in *. by rewrite pass_weeks_total in Hrun' by (done || lia).
  - case_decide as Hi; [done|]. destruct k; [|lia]. done.
Qed.

Lemma main_loop_weekly fuel names weeks st r data ts ws r' data' g :
  let d := length names - 1 in
  let np := ceil_div weeks d in
  teams st = Team.new <$> names → s st = WeeklySchedule.new →
  length names mod 2 = 0 → 1 ≤ d →
  main_loop fuel names weeks d np st r data = Success ts ws r' data' g →
  weekly_ok (length names) weeks ts ws.
Proof.
  intros d np. revert st r.
  induction fuel as [|fuel IH]; intros st r Hts Hs Heven Hd; [done|].
  cbn [main_loop].
  destruct (passes _ _ _ _ _ _ _) as [[[b|] retry] st1|] eqn:Hp; [|done..].
  destruct (decide (np = 0)) as [Hnp|Hnp].
  { fold np in Hp. rewrite Hnp in Hp. done. }
  destruct b.
  - eapply (passes_weekly names weeks 0 np) in Hp as Hok; [|try done; try lia..].
    + eapply (passes_Done names weeks 0 np) in Hp; [|try done; try lia..].
      2:{ rewrite Hts, Hs. apply attempt_inv_new. }
      destruct Hp as [(_ & -> & _)|([=] & _)].
      by intros [= <- <- <- <- <-].
    + rewrite Hts, Hs. apply attempt_inv_new.
    + rewrite Hts, Hs. split; [done|]. exists []. split_and!; [done..|].
      by intros j pairs ?.
  - eapply (passes_Done names weeks 0 np) in Hp; [|try done; try lia..].
    2:{ rewrite Hts, Hs. apply attempt_inv_new. }
    destruct Hp as [([=] & _)|(_ & ->)].
    by apply IH.
Qed.

(** X9.  After a successful run the weekly schedule has one text per week
    and [next_index] is the number of weeks; the lines of week [j] are
    [N/2] pairs in which every team occurs exactly once, and each line is
    the pair that the schedules of its two teams show for week [j]. *)
Theorem weekly_schedule_agrees fuel ambient entropy names weeks r data
    ts ws r' data' g :
  length names mod 2 = 0 →
  main fuel ambient entropy names weeks r data = Success ts ws r' data' g →
  WeeklySchedule.next_index ws = weeks ∧
  ∃ weeks_pairs : list (list (nat * nat)),
    length weeks_pairs = weeks ∧
    WeeklySchedule.schedule ws = week_text ts <$> weeks_pairs ∧
    ∀ j pairs, weeks_pairs !! j = Some pairs →
      length pairs = length names / 2 ∧
      paired_teams pairs ≡ₚ seq 0 (length names) ∧
      ∀ p m, (p, m) ∈ pairs →
        schedule_of ts p !! j = Some (name_of ts m) ∧
        schedule_of ts m !! j = Some (name_of ts p).
Proof.
  intros Heven. unfold main. rewrite length_fmap.
  case_decide as Hn; [done|]. case_decide as Hd; [done|].
  intros Hloop. apply main_loop_weekly in Hloop; [|done|done|done|lia].
  destruct Hloop as (Hidx & wp & Hlen & Hs & Hall).
  split; [done|]. exists wp. split_and!; [done..|].
  intros j pairs Hj. destruct (Hall j pairs Hj) as [Hperm Hp].
  split_and!; [|done|].
  - apply Permutation_length in Hperm. rewrite length_seq in Hperm.
    rewrite length_paired_teams in Hperm.
    pose proof (even_half _ Heven). lia.
  - intros p m Hpm. apply (Hp (p, m) Hpm).
Qed.

End weekly.

Section interactive_props.
Context `{!Builtins}.

Lemma console_eta c : {| stdin := stdin c; stdout := stdout c |} = c.
Proof. by destruct c. Qed.

Lemma print_bind {A} args (k : unit → IO A) c :
  (print args ≫= k) c
  = k () {| stdin := stdin c; stdout := stdout c ++ [printed args newline] |}.
Proof. done. Qed.

Lemma input_bind {A} prompt (k : string → IO A) c :
  (input prompt ≫= k) c =
    match stdin c with
    | [] => Exc EOFError {| stdin := []; stdout := stdout c ++ [prompt] |}
    | line :: rest => k line {| stdin := rest; stdout := stdout c ++ [prompt] |}
    end.
Proof. unfold mbind, IO_bind, input. by destruct (stdin c). Qed.

Lemma int_bind {A} val (k : Z → IO A) c :
  (int val ≫= k) c =
    match int_of_str val with
    | Some v => k v c
    | None => Exc (Py ValueError) c
    end.
Proof. unfold mbind, IO_bind, int. by destruct (int_of_str val). Qed.

Lemma ask_until_valid_step val lines out :
  ask_until_valid val lines out =
    match valid val with
    | Some v => Ret v {| stdin := lines; stdout := out |}
    | None =>
        match lines with
        | [] => Exc EOFError
                  {| stdin := [];
                     stdout := out ++ [complaint val; "Re-enter number --> "%string] |}
        | line :: rest =>
            ask_until_valid (str_strip line) rest
              (out ++ [complaint val; "Re-enter number --> "%string])
        end
    end.
Proof. by destruct lines. Qed.

Lemma valid_small val v :
  int_of_str val = Some v → (v < 1)%Z →
  valid val = None ∧
  complaint val
  = printed ["The number must be greater than 0, or there is no point."%string] newline.
Proof.
  intros Hval Hv. unfold valid, complaint. rewrite Hval. simpl.
  by rewrite decide_False by lia.
Qed.

Lemma valid_unparsed val :
  int_of_str val = None →
  valid val = None ∧
  complaint val
  = printed ["Please enter a valid number greater than 0."%string] newline.
Proof. intros Hval. unfold valid, complaint. by rewrite Hval. Qed.

Lemma reenter_spec fuel val v c :
  int_of_str val = Some v →
  match reenter fuel v c with
  | Ret v' c' => ask_until_valid val (stdin c) (stdout c) = Ret v' c'
  | Exc (Py ValueError) c' =>
      ∃ val', int_of_str val' = None ∧ length (stdin c') < length (stdin c) ∧
        ask_until_valid val (stdin c) (stdout c)
        = ask_until_valid val' (stdin c') (stdout c')
  | Exc e c' => ask_until_valid val (stdin c) (stdout c) = Exc e c'
  | Diverged => fuel ≤ length (stdin c)
  end.
Proof.
  revert val v c. induction fuel as [|fuel IH]; intros val v c Hval.
  { cbn [reenter]. case_decide as Hv; [lia|].
    unfold mret, IO_ret. rewrite ask_until_valid_step. unfold valid.
    rewrite Hval. simpl. rewrite decide_True by lia. by destruct c. }
  destruct c as [lines out].
  cbn [reenter]. case_decide as Hv.
  - destruct (valid_small _ _ Hval Hv) as [Hvalid Hmsg].
    rewrite ask_until_valid_step, Hvalid, Hmsg.
    rewrite print_bind, input_bind. cbn [stdin stdout].
    rewrite <-!app_assoc. cbn [app].
    destruct lines as [|line rest]; [done|].
    rewrite int_bind. destruct (int_of_str (str_strip line)) as [v'|] eqn:Hline.
    + specialize (IH (str_strip line) v'
                    {| stdin := rest;
                       stdout := out ++ [printed ["The number must be greater than 0, or there is no point."%string] newline; "Re-enter number --> "%string] |} Hline).
      cbn [stdin stdout] in IH.
      destruct (reenter fuel v' _) as [v2 c2|e c2|]; [done| |simpl in *; lia].
      destruct e as [| |[]]; try done.
      destruct IH as (val' & ? & ? & ?).
      exists val'. split_and!; [done|simpl in *; lia|done].
    + exists (str_strip line). split_and!; [done|simpl; lia|done].
  - unfold mret, IO_ret. rewrite ask_until_valid_step. unfold valid.
    rewrite Hval. simpl. by rewrite decide_True by lia.
Qed.

Lemma validatePosIntInput_spec fuel val c :
  match validatePosIntInput fuel val c with
  | Diverged => fuel ≤ length (stdin c) + 1
  | r => r = ask_until_valid val (stdin c) (stdout c)
  end.
Proof.
  revert val c. induction fuel as [|fuel IH]; intros val c; [simpl; lia|].
  assert (Hhandler : ∀ val' c',
    int_of_str val' = None →
    match
      (_ ← print ["Please enter a valid number greater than 0."%string];
       line ← input "Re-enter number --> ";
       validatePosIntInput fuel (str_strip line)) c'
    with
    | Diverged => fuel ≤ length (stdin c')
    | r => r = ask_until_valid val' (stdin c') (stdout c')
    end).
  { intros val' [lines out] Hnone.
    destruct (valid_unparsed _ Hnone) as [Hvalid Hmsg].
    rewrite ask_until_valid_step, Hvalid, Hmsg.
    rewrite print_bind, input_bind. cbn [stdin stdout].
    rewrite <-!app_assoc. cbn [app].
    destruct lines as [|line rest]; [done|].
    specialize (IH (str_strip line)
                  {| stdin := rest;
                     stdout := out ++ [printed ["Please enter a valid number greater than 0."%string] newline; "Re-enter number --> "%string] |}).
    cbn [stdin stdout] in IH.
    destruct (validatePosIntInput fuel _ _); [done..|simpl in *; lia]. }
  cbn [validatePosIntInput]. rewrite int_bind.
  destruct (int_of_str val) as [v|] eqn:Hval.
  - pose proof (reenter_spec fuel val v c Hval) as Hre.
    destruct (reenter fuel v c) as [v' c'|e c'|]; [done| |simpl in *; lia].
    destruct e as [| |[]]; try done.
    destruct Hre as (val' & Hnone & Hl & ->).
    specialize (Hhandler val' c' Hnone). simpl.
    match goal with |- match ?x with _ => _ end => destruct x end;
      [done..|simpl in *; lia].
  - specialize (Hhandler val c Hval). simpl.
    match goal with |- match ?x with _ => _ end => destruct x end;
      [done..|simpl in *; lia].
Qed.

Lemma ask_until_valid_Ret val lines out v c' :
  ask_until_valid val lines out = Ret v c' →
  ∃ used rejected accepted,
    lines = used ++ stdin c' ∧
    val :: (str_strip <$> used) = rejected ++ [accepted] ∧
    Forall (λ e, valid e = None) rejected ∧
    valid accepted = Some v ∧
    stdout c' = out ++ (rejected ≫= λ e, [complaint e; "Re-enter number --> "%string]).
Proof.
  revert val out. induction lines as [|line rest IH]; intros val out;
    rewrite ask_until_valid_step; destruct (valid val) as [v0|] eqn:Hvalid;
    try done.
  - intros [= <- <-]. exists [], [], val. simpl. by rewrite app_nil_r.
  - intros [= <- <-]. exists [], [], val. simpl. by rewrite app_nil_r.
  - intros (used & rejected & accepted & -> & Hent & Hrej & Hacc & Hout)%IH.
    exists (line :: used), (val :: rejected), accepted.
    split_and!; [done| |by constructor|done|].
    + rewrite fmap_cons. simpl. by rewrite Hent.
    + rewrite Hout, bind_cons, <-!app_assoc. done.
Qed.

Lemma ask_until_valid_Exc val lines out e c' :
  ask_until_valid val lines out = Exc e c' →
  e = EOFError ∧ stdin c' = [] ∧
  Forall (λ e, valid e = None) (val :: (str_strip <$> lines)) ∧
  stdout c' = out ++ ((val :: (str_strip <$> lines)) ≫= λ e,
                        [complaint e; "Re-enter number --> "%string]).
Proof.
  revert val out. induction lines as [|line rest IH]; intros val out;
    rewrite ask_until_valid_step; destruct (valid val) as [v0|] eqn:Hvalid;
    try done.
  - intros [= <- <-]. by split_and!; [..|repeat constructor|].
  - intros (-> & Hin & Hall & Hout)%IH.
    split_and!; [done..|by constructor|].
    rewrite Hout, fmap_cons, (bind_cons _ val), <-!app_assoc. done.
Qed.

Lemma valid_Some val v : valid val = Some v → int_of_str val = Some v ∧ (1 ≤ v)%Z.
Proof.
  unfold valid. destruct (int_of_str val) as [v0|]; [|done]. simpl.
  case_decide; [|done]. by intros [= <-].
Qed.

(** X12.  [validatePosIntInput] on a finite input, with a bound on the turns
    of its loops above the number of lines: its two nested loops and the
    handler examine one entry after the other, [val] first and then the
    lines of the input, stripped; the first entry that [int] accepts with a
    value of at least 1 is returned, every entry before it is answered by
    its message and the prompt, and the call ends with [EOFError] when the
    input holds no such entry. *)
Theorem validatePosIntInput_asks_until_valid fuel val c :
  length (stdin c) + 1 < fuel →
  validatePosIntInput fuel val c = ask_until_valid val (stdin c) (stdout c).
Proof.
  intros Hfuel. pose proof (validatePosIntInput_spec fuel val c) as Hspec.
  destruct (validatePosIntInput fuel val c); [done..|lia].
Qed.

(** X13.  What [validatePosIntInput] returns is at least 1 and is [int] of
    the last entry read; the entries before it were not valid, and each of
    them was answered by its message and a prompt.  The only exception that
    leaves the function is [EOFError], when no entry is valid. *)
Theorem validatePosIntInput_result fuel val c :
  (∀ v c', validatePosIntInput fuel val c = Ret v c' →
     (1 ≤ v)%Z ∧
     ∃ used rejected accepted,
       stdin c = used ++ stdin c' ∧
       val :: (str_strip <$> used) = rejected ++ [accepted] ∧
       int_of_str accepted = Some v ∧
       Forall (λ e, valid e = None) rejected ∧
       stdout c' = stdout c ++
         (rejected ≫= λ e, [complaint e; "Re-enter number --> "%string])) ∧
  (∀ e c', validatePosIntInput fuel val c = Exc e c' →
     e = EOFError ∧ stdin c' = [] ∧
     Forall (λ e, valid e = None) (val :: (str_strip <$> stdin c))).
Proof.
  pose proof (validatePosIntInput_spec fuel val c) as Hspec. split.
  - intros v c' Hrun. rewrite Hrun in Hspec. symmetry in Hspec.
    apply ask_until_valid_Ret in Hspec
      as (used & rejected & accepted & ? & ? & ? & [? ?]%valid_Some & ?).
    split; [done|]. by exists used, rejected, accepted.
  - intros e c' Hrun. rewrite Hrun in Hspec. symmetry in Hspec.
    by apply ask_until_valid_Exc in Hspec as (? & ? & ? & _).
Qed.

End interactive_props.

Lemma for_each_Ret {A} (l : list A) (body : A → IO unit) (f : A → list string) c :
  (∀ x c, body x c = Ret () {| stdin := stdin c; stdout := stdout c ++ f x |}) →
  for_each l body c
  = Ret () {| stdin := stdin c; stdout := stdout c ++ (l ≫= f) |}.
Proof.
  intros Hbody. revert c. induction l as [|x l IH]; intros c.
  - simpl. unfold mret, IO_ret. rewrite app_nil_r. by destruct c.
  - cbn [for_each]. unfold mbind at 1. unfold IO_bind at 1.
    rewrite Hbody, IH. cbn [stdin stdout]. by rewrite bind_cons, <-app_assoc.
Qed.

Lemma bind_seq_imap {A B} `{!Inhabited A} (f : nat → A → list B) (l : list A) :
  seq 0 (length l) ≫= (λ i, f i (l !!! i)) = mjoin (imap f l).
Proof.
  revert f. induction l as [|x l IH]; intros f; [done|].
  cbn [length seq]. rewrite bind_cons, imap_cons, <-fmap_S_seq, list_fmap_bind.
  cbn [mjoin list_join]. f_equal. by rewrite <-IH.
Qed.

Lemma WeeklySchedule_printSchedule_Ret ws c :
  WeeklySchedule_printSchedule ws c
  = Ret () {| stdin := stdin c;
              stdout := stdout c
                        ++ mjoin (imap week_block (WeeklySchedule.schedule ws)) |}.
Proof.
  unfold WeeklySchedule_printSchedule.
  rewrite (for_each_Ret _ _
             (λ i, week_block i (WeeklySchedule.schedule ws !!! i))).
  - by rewrite bind_seq_imap.
  - intros i c'. unfold mbind, IO_bind, print, print_end. cbn [stdin stdout].
    by rewrite <-app_assoc.
Qed.

Section program_props.
Context {G : Type} `{!RandomGen G}.

Implicit Types (w : world G) (st : Sched G).

Lemma W_bind_eq {A B} (m : W G A) (k : A → W G B) w :
  (m ≫= k) w =
    match m w with
    | WRet a w' => k a w'
    | WExc e w' => WExc e w'
    | WDiverged => WDiverged
    end.
Proof. done. Qed.

Lemma main_attempts_spec debug_mode fuel names weeks d np st w dat :
  match main_loop fuel names weeks d np st (retries_needed w) dat with
  | Success ts ws r' _ g =>
      main_attempts debug_mode fuel names weeks d np st w
      = WRet {| rng := g; teams := ts; s := ws |}
          {| con := if debug_mode then con w
                    else wrote (replicate (r' - retries_needed w)
                                  (printed ["dead end, retrying"%string] newline))
                           (con w);
             gen := gen w; seeded := seeded w;
             retries_needed := r'; data := data w |}
  | Crashed e => ∃ w', main_attempts debug_mode fuel names weeks d np st w
                       = WExc (Py e) w'
  | OutOfFuel => main_attempts debug_mode fuel names weeks d np st w = WDiverged
  end.
Proof.
  revert st w. induction fuel as [|fuel IH]; intros st w; [done|].
  cbn [main_loop main_attempts].
  destruct (passes _ _ _ _ _ _ _) as [[[b|] retry] st1|e st1] eqn:Hp;
    [|by eexists..].
  destruct b.
  - unfold mbind at 1, W_bind at 1, mret at 1, W_ret at 1.
    destruct retry.
    + exact (IH st1 w).
    + unfold mret, W_ret. rewrite Nat.sub_diag. simpl.
      destruct st1, w as [[??] ????], debug_mode; unfold wrote; simpl;
        by rewrite ?app_nil_r.
  - set (w1 := {| con := if debug_mode then con w
                         else wrote [printed ["dead end, retrying"%string] newline] (con w);
                  gen := gen w; seeded := seeded w;
                  retries_needed := S (retries_needed w); data := data w |}).
    set (st2 := {| rng := rng st1; teams := Team.new <$> names;
                   s := WeeklySchedule.new |}).
    assert (Hstep : ∀ k : Sched G → W G (Sched G),
      ((_ ← (if debug_mode then mret ()
             else lift_io (print ["dead end, retrying"%string]));
        w0 ← get_world;
        _ ← set_retries_needed (S (retries_needed w0));
        mret st2) ≫= k) w = k st2 w1).
    { intros k. unfold w1. by destruct debug_mode, w. }
    rewrite Hstep. destruct retry.
    + specialize (IH st2 w1). change (retries_needed w1) with (S (retries_needed w)) in IH.
      destruct (main_loop fuel _ _ _ _ st2 _ _) as [ts ws r' d' g| |] eqn:Hloop;
        [|done..].
      rewrite IH. f_equal. unfold w1.
      apply main_loop_attempts in Hloop as (Hle & _).
      destruct debug_mode; [done|]. cbn [con gen seeded data].
      f_equal. unfold wrote. cbn [stdin stdout]. f_equal.
      rewrite <-app_assoc. f_equal.
      replace (r' - retries_needed w) with (S (r' - S (retries_needed w))) by lia.
      done.
    + unfold mret, W_ret. unfold w1, st2. cbn [rng teams s].
      replace (S (retries_needed w) - retries_needed w) with 1 by lia.
      by destruct debug_mode.
Qed.

Lemma main_w_eq (entropy : nat → G) debug_mode fuel names weeks w :
  main_w entropy fuel names weeks debug_mode w =
    let w1 := {| con := con w; gen := entropy (seeded w);
                 seeded := S (seeded w);
                 retries_needed := retries_needed w; data := data w |} in
    let d := length (Team.new <$> names) - 1 in
    if decide (length (Team.new <$> names) = 0)
    then WExc (Py UnboundLocalError) w1
    else if decide (d = 0) then WExc (Py ZeroDivisionError) w1
    else
      match main_attempts debug_mode fuel names weeks d (ceil_div weeks d)
              {| rng := entropy (seeded w); teams := Team.new <$> names;
                 s := WeeklySchedule.new |} w1 with
      | WRet st w2 =>
          let c := if debug_mode then con w2
                   else wrote ([printed [newline +:+ "Success:" +:+ newline] newline]
                               ++ mjoin (imap week_block
                                           (WeeklySchedule.schedule (s st))))
                          (con w2) in
          WRet () {| con := c; gen := rng st; seeded := seeded w2;
                     retries_needed := retries_needed w2;
                     data := data w2 ++ [retries_needed w2] |}
      | WExc e w2 => WExc e w2
      | WDiverged => WDiverged
      end.
Proof.
  unfold main_w. rewrite W_bind_eq. unfold random_seed at 1.
  rewrite W_bind_eq. unfold get_world at 1. cbn zeta.
  case_decide; [done|]. case_decide; [done|].
  rewrite W_bind_eq. cbn [gen].
  destruct (main_attempts _ _ _ _ _ _ _ _) as [st w2| |]; [|done..].
  destruct debug_mode; [done|].
  unfold mbind, W_bind, set_gen, get_world, set_data, lift_io, print, print_end.
  cbn [con gen seeded retries_needed data s].
  rewrite WeeklySchedule_printSchedule_Ret. cbn [stdin stdout].
  unfold set_con, wrote. cbn [con gen seeded retries_needed data stdin stdout].
  by rewrite <-!app_assoc.
Qed.

Lemma main_w_spec (entropy : nat → G) debug_mode fuel names weeks w :
  match main fuel (gen w) (entropy (seeded w)) names weeks
          (retries_needed w) (data w) with
  | Success ts ws r' d' g =>
      main_w entropy fuel names weeks debug_mode w
      = WRet ()
          {| con := if debug_mode then con w
                    else wrote (transcript (r' - retries_needed w)
                                  (WeeklySchedule.schedule ws)) (con w);
             gen := g; seeded := S (seeded w);
             retries_needed := r'; data := d' |}
  | Crashed e => ∃ w', main_w entropy fuel names weeks debug_mode w
                       = WExc (Py e) w'
  | OutOfFuel => main_w entropy fuel names weeks debug_mode w = WDiverged
  end.
Proof.
  rewrite main_w_eq. unfold main. cbn zeta.
  case_decide; [by eexists|]. case_decide; [by eexists|].
  set (w1 := {| con := con w; gen := entropy (seeded w); seeded := S (seeded w);
                retries_needed := retries_needed w; data := data w |}).
  pose proof (main_attempts_spec debug_mode fuel names weeks
                (length (Team.new <$> names) - 1)
                (ceil_div weeks (length (Team.new <$> names) - 1))
                {| rng := entropy (seeded w); teams := Team.new <$> names;
                   s := WeeklySchedule.new |} w1 (data w)) as Hspec.
  change (retries_needed w1) with (retries_needed w) in Hspec.
  destruct (main_loop fuel _ _ _ _ _ _ _) as [ts ws r' d' g|e|] eqn:Hloop.
  - rewrite Hspec.
    apply main_loop_attempts in Hloop as (_ & -> & _).
    destruct debug_mode; [done|].
    unfold wrote, transcript. cbn [con gen seeded retries_needed data stdin stdout s].
    by rewrite <-!app_assoc.
  - destruct Hspec as [w' ->]. by exists w'.
  - by rewrite Hspec.
Qed.

(** X15.  What a run of [main] leaves on the console.  In debug mode nothing is
    written.  In standard mode a line is written for every attempt that ran
    into a dead end, then the header, then for every week its title, its
    rule and the text of the week, whose lines show every team once.  In
    both modes no input is read, [retries_needed] has not decreased, and
    [data] has grown by the final count. *)
Theorem main_w_output (entropy : nat → G) fuel names weeks debug_mode w w' :
  length names mod 2 = 0 →
  main_w entropy fuel names weeks debug_mode w = WRet () w' →
  stdin (con w') = stdin (con w) ∧
  retries_needed w ≤ retries_needed w' ∧
  data w' = data w ++ [retries_needed w'] ∧
  seeded w' = S (seeded w) ∧
  if debug_mode then stdout (con w') = stdout (con w)
  else
    ∃ weeks_pairs : list (list (nat * nat)),
      length weeks_pairs = weeks ∧
      Forall (λ pairs, paired_teams pairs ≡ₚ seq 0 (length names)) weeks_pairs ∧
      stdout (con w') =
        stdout (con w)
        ++ transcript (retries_needed w' - retries_needed w)
             (week_text (Team.new <$> names) <$> weeks_pairs).
Proof.
  intros Heven Hrun.
  pose proof (main_w_spec entropy debug_mode fuel names weeks w) as Hspec.
  destruct (main fuel _ _ _ _ _ _) as [ts ws r' d' g|e|] eqn:Hmain.
  2:{ destruct Hspec as [? Hspec]. by rewrite Hspec in Hrun. }
  2:{ by rewrite Hspec in Hrun. }
  rewrite Hspec in Hrun. injection Hrun as <-.
  pose proof Hmain as Hmain'.
  apply main_Success in Hmain' as (_ & Hinv & Hle & ->); [|done].
  cbn [con gen seeded retries_needed data].
  split_and!; [by destruct debug_mode|done..|].
  destruct debug_mode; [done|].
  revert Hmain. unfold main. rewrite length_fmap.
  case_decide as Hn; [done|]. case_decide as Hd; [done|].
  intros Hloop. apply main_loop_weekly in Hloop; [|done|done|done|lia].
  destruct Hloop as (Hidx & wp & Hlen & Hs & Hall).
  exists wp. split_and!; [done| |].
  - apply Forall_forall. intros pairs [j Hj]%list_elem_of_lookup.
    by destruct (Hall j pairs Hj).
  - cbn [wrote stdout]. rewrite Hs. do 2 f_equal.
    apply list_fmap_ext. intros ?? _. apply week_text_ext.
    intros z. apply name_of_same_names.
    by rewrite names_new, (ai_names _ _ _ _ _ Hinv).
Qed.

End program_props.

Section post.
Context {G : Type}.

Lemma io_post_ret {A} (a : A) (Q : A → console → Prop) c :
  Q a c → io_post (mret a) Q c.
Proof. done. Qed.

Lemma io_post_bind {A B} (m : IO A) (k : A → IO B) Q c :
  io_post m (λ a c', io_post (k a) Q c') c → io_post (m ≫= k) Q c.
Proof.
  unfold io_post, mbind, IO_bind. by destruct (m c).
Qed.

Lemma io_post_mono {A} (m : IO A) (Q Q' : A → console → Prop) c :
  io_post m Q c → (∀ a c', Q a c' → Q' a c') → io_post m Q' c.
Proof. unfold io_post. destruct (m c); auto. Qed.

Lemma io_post_print args Q c :
  Q () {| stdin := stdin c; stdout := stdout c ++ [printed args newline] |} →
  io_post (print args) Q c.
Proof. done. Qed.

Lemma io_post_input prompt Q c :
  (∀ line rest, stdin c = line :: rest →
     Q line {| stdin := rest; stdout := stdout c ++ [prompt] |}) →
  io_post (input prompt) Q c.
Proof.
  intros HQ. unfold io_post, input. destruct (stdin c) as [|line rest]; [done|].
  by apply HQ.
Qed.

Lemma w_post_ret {A} (a : A) (Q : A → world G → Prop) w :
  Q a w → w_post (mret a) Q w.
Proof. done. Qed.

Lemma w_post_bind {A B} (m : W G A) (k : A → W G B) Q w :
  w_post m (λ a w', w_post (k a) Q w') w → w_post (m ≫= k) Q w.
Proof.
  unfold w_post, mbind, W_bind. by destruct (m w).
Qed.

Lemma w_post_mono {A} (m : W G A) (Q Q' : A → world G → Prop) w :
  w_post m Q w → (∀ a w', Q a w' → Q' a w') → w_post m Q' w.
Proof. unfold w_post. destruct (m w); auto. Qed.

Lemma w_post_lift_io {A} (m : IO A) (Q : A → world G → Prop) w :
  io_post m (λ a c, Q a (set_con c w)) (con w) → w_post (lift_io m) Q w.
Proof. unfold w_post, io_post, lift_io. by destruct (m (con w)). Qed.

End post.

Section premain_props.
Context {G : Type} `{!RandomGen G} `{!Builtins} (entropy : nat → G).

Implicit Types (w : world G) (c : console).

Lemma io_post_validatePosIntInput fuel val c :
  io_post (validatePosIntInput fuel val) (λ v _, (1 ≤ v)%Z) c.
Proof.
  unfold io_post. pose proof (validatePosIntInput_spec fuel val c) as Hspec.
  destruct (validatePosIntInput fuel val c) as [v c'|e c'|]; [| |done].
  - symmetry in Hspec.
    apply ask_until_valid_Ret in Hspec as (? & ? & ? & _ & _ & _ & Hv & _).
    by apply valid_Some in Hv as [_ ?].
  - symmetry in Hspec. by apply ask_until_valid_Exc in Hspec as [? _].
Qed.

Lemma io_post_reenter_names fuel names c :
  io_post (reenter_names fuel names)
    (λ names' _, length names' mod 2 = 0 ∧ length names' ≠ 0) c.
Proof.
  revert names c. induction fuel as [|fuel IH]; intros names c;
    cbn [reenter_names]; case_decide as Hbad; try done.
  - apply io_post_ret. split; [|lia].
    destruct (decide (length names mod 2 = 0)); [done|]. destruct Hbad; by left.
  - apply io_post_bind, io_post_print, io_post_bind, io_post_input.
    intros line rest _. apply IH.
  - apply io_post_ret. split; [|lia].
    destruct (decide (length names mod 2 = 0)); [done|]. destruct Hbad; by left.
Qed.

Lemma main_not_Crashed fuel (ambient seed : G) names weeks r dat e :
  length names mod 2 = 0 → length names ≠ 0 → 1 ≤ weeks →
  main fuel ambient seed names weeks r dat ≠ Crashed e.
Proof.
  intros Heven Hn Hw. pose proof (even_half _ Heven).
  unfold main. rewrite length_fmap. rewrite !decide_False by lia.
  apply main_loop_not_Crashed; [done..|lia|apply ceil_div_pos; lia].
Qed.

Lemma w_post_main_w fuel names weeks debug_mode w :
  length names mod 2 = 0 → length names ≠ 0 → 1 ≤ weeks →
  w_post (main_w entropy fuel names weeks debug_mode)
    (λ _ w', data w' = data w ++ [retries_needed w'] ∧
             seeded w' = S (seeded w)) w.
Proof.
  intros Heven Hn Hw. unfold w_post.
  pose proof (main_w_spec entropy debug_mode fuel names weeks w) as Hspec.
  destruct (main fuel _ _ _ _ _ _) as [ts ws r' d' g|e|] eqn:Hmain.
  - rewrite Hspec. cbn [data retries_needed seeded].
    by apply main_Success in Hmain as (_ & _ & _ & ->).
  - by apply main_not_Crashed in Hmain.
  - by rewrite Hspec.
Qed.

Lemma w_post_run_trials fuel trials names weeks debug_mode w :
  length names mod 2 = 0 → length names ≠ 0 → 1 ≤ weeks →
  w_post (run_trials entropy fuel trials names weeks debug_mode)
    (λ _ w', length (data w') = length (data w) + trials ∧
             seeded w' = seeded w + trials) w.
Proof.
  intros Heven Hn Hw. revert w.
  induction trials as [|trials IH]; intros w; cbn [run_trials].
  - apply w_post_ret. lia.
  - apply w_post_bind. unfold w_post at 1. cbn.
    apply w_post_bind.
    eapply w_post_mono; [by apply w_post_main_w|].
    intros _ w1 [Hd Hs]. cbn [data seeded] in Hd, Hs.
    eapply w_post_mono; [apply IH|].
    intros _ w2 [Hd2 Hs2]. rewrite Hd2, Hs2, Hd, Hs, length_app. simpl. lia.
Qed.

Lemma io_post_print_statistics dat c :
  dat ≠ [] → io_post (print_statistics dat) (λ _ c', stdin c' = stdin c) c.
Proof. by destruct dat. Qed.

Lemma w_post_preMain fuel w :
  w_post (preMain entropy fuel)
    (λ _ w', 1 ≤ length (data w') ∧
             seeded w' = seeded w + length (data w')) w.
Proof.
  unfold preMain.
  apply w_post_bind. unfold w_post at 1. cbn [set_data].
  apply w_post_bind, w_post_lift_io, io_post_print.
  apply w_post_bind, w_post_lift_io, io_post_input. intros line rest _.
  cbn zeta. set (debug_mode := bool_decide (str_strip line = "debug"%string)).
  apply w_post_bind.
  apply (w_post_mono _ (λ _ w', data w' = [] ∧ seeded w' = seeded w)).
  { destruct debug_mode; [|by apply w_post_ret].
    apply w_post_bind, w_post_lift_io, io_post_print.
    apply w_post_bind, w_post_lift_io, io_post_input. intros line2 rest2 _.
    by apply w_post_ret. }
  intros weeks0 w1 [Hd1 Hs1].
  apply w_post_bind, w_post_lift_io.
  eapply io_post_mono; [apply io_post_validatePosIntInput|].
  intros weeks c2 Hweeks. cbn beta in Hweeks |- *.
  apply w_post_bind, w_post_lift_io, io_post_print.
  apply w_post_bind, w_post_lift_io, io_post_input. intros line3 rest3 _.
  apply w_post_bind, w_post_lift_io.
  eapply io_post_mono; [apply io_post_reenter_names|].
  intros names c4 [Heven Hn]. cbn beta.
  destruct debug_mode.
  - apply w_post_bind, w_post_lift_io, io_post_input. intros line5 rest5 _.
    apply w_post_bind, w_post_lift_io.
    eapply io_post_mono; [apply io_post_validatePosIntInput|].
    intros trials c6 Htrials. cbn beta in Htrials |- *.
    apply w_post_bind.
    eapply w_post_mono; [apply w_post_run_trials; [done..|lia]|].
    intros _ w7 [Hd7 Hs7]. cbn [set_con data seeded] in Hd7, Hs7.
    rewrite Hd1 in Hd7. simpl in Hd7.
    apply w_post_bind. unfold w_post at 1. cbn [get_world].
    apply w_post_bind, w_post_lift_io.
    eapply io_post_mono; [apply io_post_print_statistics|].
    { intros Hnil. rewrite Hnil in Hd7. simpl in Hd7. lia. }
    intros _ c8 _. cbn beta.
    apply w_post_bind, w_post_lift_io, io_post_input. intros line9 rest9 _.
    apply w_post_ret. cbn [set_con data seeded]. rewrite Hd7, Hs7, Hs1. lia.
  - apply w_post_bind.
    eapply w_post_mono; [apply w_post_main_w; [done..|lia]|].
    intros _ w5 [Hd5 Hs5]. cbn [set_con data seeded] in Hd5, Hs5.
    apply w_post_ret. rewrite Hd5, Hs5, Hd1, Hs1. simpl. lia.
Qed.

Lemma w_post_run_again fuel retVal w :
  w_post (run_again entropy fuel retVal) (λ _ _, True) w.
Proof.
  revert retVal w. induction fuel as [|fuel IH]; intros [] w;
    cbn [run_again]; try done.
  apply w_post_bind. eapply w_post_mono; [apply w_post_preMain|].
  intros b w' _. apply IH.
Qed.

(** X17.  [preMain] resets [data] and then appends to it once for every schedule
    it has [main] produce, reseeding the generator each time: when it
    returns, [data] has an entry for each of these runs, and at least one.
    The only exception that leaves [preMain] is [EOFError].  (Every number
    entered is below 2^53.) *)
Theorem preMain_counts_its_runs fuel w :
  small_entries (con w) →
  (∀ retVal w', preMain entropy fuel w = WRet retVal w' →
     1 ≤ length (data w') ∧ seeded w' = seeded w + length (data w')) ∧
  (∀ e w', preMain entropy fuel w = WExc e w' → e = EOFError).
Proof.
  intros _. pose proof (w_post_preMain fuel w) as Hpost. unfold w_post in Hpost.
  split.
  - intros retVal w' Hrun. by rewrite Hrun in Hpost.
  - intros e w' Hrun. by rewrite Hrun in Hpost.
Qed.

(** X18.  The only exception that leaves [metaWrapper] is [EOFError], and
    when it returns, the last it wrote is the prompt of line 198 and the
    farewell.  (Every number entered is below 2^53.) *)
Theorem metaWrapper_ends fuel w :
  small_entries (con w) →
  (∀ w', metaWrapper entropy fuel w = WRet () w' →
     ∃ out, stdout (con w')
            = out ++ ["Press any key to end"%string;
                      printed [newline +:+ "Goodbye."] newline]) ∧
  (∀ e w', metaWrapper entropy fuel w = WExc e w' → e = EOFError).
Proof.
  intros _.
  assert (Hpost : w_post (metaWrapper entropy fuel)
            (λ _ w', ∃ out, stdout (con w')
               = out ++ ["Press any key to end"%string;
                         printed [newline +:+ "Goodbye."] newline]) w).
  { unfold metaWrapper.
    apply w_post_bind. eapply w_post_mono; [apply w_post_preMain|].
    intros b w1 _. apply w_post_bind.
    eapply w_post_mono; [apply w_post_run_again|].
    intros _ w2 _. apply w_post_bind, w_post_lift_io, io_post_input.
    intros line rest _. apply w_post_lift_io, io_post_print.
    cbn [set_con con stdout]. exists (stdout (con w2)).
    by rewrite <-app_assoc. }
  unfold w_post in Hpost. split.
  - intros w' Hrun. by rewrite Hrun in Hpost.
  - intros e w' Hrun. by rewrite Hrun in Hpost.
Qed.

(** X14.  The names that the loop of lines 222-224 lets through are an even
    number of names, and not none: the first such entry among the names
    given and the lines read, every other entry being answered by the
    message and a prompt.  Only the end of the input ends the loop
    otherwise. *)
Theorem reenter_names_result fuel names c :
  (∀ names' c', reenter_names fuel names c = Ret names' c' →
     length names' mod 2 = 0 ∧ length names' ≠ 0 ∧
     ∃ used rejected,
       stdin c = used ++ stdin c' ∧
       names :: (str_split ∘ str_strip <$> used) = rejected ++ [names'] ∧
       Forall (λ l, length l mod 2 ≠ 0 ∨ length l = 0) rejected ∧
       stdout c' = stdout c ++
         (rejected ≫= λ _,
            [printed ["There must be a positive even number of teams! Please re-enter names."%string] newline;
             "--> "%string])) ∧
  (∀ e c', reenter_names fuel names c = Exc e c' → e = EOFError ∧ stdin c' = []).
Proof.
  revert names c. induction fuel as [|fuel IH]; intros names c.
  - cbn [reenter_names]. case_decide as Hbad; [done|]. split; [|done].
    intros names' c' [= <- <-]. split_and!; [|lia|].
    { destruct (decide (length names mod 2 = 0)); [done|]. destruct Hbad; by left. }
    exists [], []. simpl. by rewrite app_nil_r.
  - cbn [reenter_names]. case_decide as Hbad.
    + rewrite print_bind, input_bind. cbn [stdin stdout].
      destruct (stdin c) as [|line rest] eqn:Hin; [by split; [|intros ?? [= <- <-]]|].
      specialize (IH (str_split (str_strip line))
                    {| stdin := rest;
                       stdout := (stdout c ++ [printed ["There must be a positive even number of teams! Please re-enter names."%string] newline]) ++ ["--> "%string] |}).
      destruct IH as [IHret IHexc]. split.
      * intros names' c' Hrun.
        destruct (IHret _ _ Hrun) as (? & ? & used & rejected & Hu & Hr & Hall & Hout).
        split_and!; [done..|].
        exists (line :: used), (names :: rejected). cbn [stdin stdout] in *.
        split_and!.
        -- by rewrite Hu.
        -- rewrite fmap_cons. simpl. by rewrite <-Hr.
        -- by constructor.
        -- rewrite Hout, bind_cons, <-!app_assoc. done.
      * intros e c' Hrun. by apply IHexc in Hrun.
    + split; [|done].
      intros names' c' [= <- <-]. split_and!; [|lia|].
      { destruct (decide (length names mod 2 = 0)); [done|]. destruct Hbad; by left. }
      exists [], []. simpl. by rewrite app_nil_r.
Qed.

Lemma main_w_Ret fuel names weeks debug_mode w w' :
  main_w entropy fuel names weeks debug_mode w = WRet () w' →
  data w' = data w ++ [retries_needed w'] ∧
  retries_needed w ≤ retries_needed w' ∧
  retries_needed w' - retries_needed w < fuel ∧
  seeded w' = S (seeded w).
Proof.
  intros Hrun.
  pose proof (main_w_spec entropy debug_mode fuel names weeks w) as Hspec.
  destruct (main fuel _ _ _ _ _ _) as [ts ws r' d' g|e|] eqn:Hmain.
  2:{ destruct Hspec as [? Hspec]. by rewrite Hspec in Hrun. }
  2:{ by rewrite Hspec in Hrun. }
  rewrite Hspec in Hrun. injection Hrun as <-.
  cbn [data retries_needed seeded].
  revert Hmain. unfold main. case_decide; [done|]. case_decide; [done|].
  intros Hloop. pose proof Hloop as Hloop'.
  apply main_loop_attempts in Hloop' as (Hle & -> & Hall).
  split_and!; [done..| |done].
  rewrite (Hall fuel) in Hloop. by case_decide.
Qed.

Lemma main_w_Ret_main fuel names weeks debug_mode w w' :
  main_w entropy fuel names weeks debug_mode w = WRet () w' →
  ∃ ts ws g, ∀ ambient fuel',
    main fuel' ambient (entropy (seeded w)) names weeks
      (retries_needed w) (data w)
    = if decide (retries_needed w' - retries_needed w < fuel')
      then Success ts ws (retries_needed w') (data w') g
      else OutOfFuel.
Proof.
  intros Hrun.
  pose proof (main_w_spec entropy debug_mode fuel names weeks w) as Hspec.
  destruct (main fuel _ _ _ _ _ _) as [ts ws r' d' g|e|] eqn:Hmain.
  2:{ destruct Hspec as [? Hspec]. by rewrite Hspec in Hrun. }
  2:{ by rewrite Hspec in Hrun. }
  rewrite Hspec in Hrun. injection Hrun as <-.
  cbn [data retries_needed].
  exists ts, ws, g. intros ambient fuel'.
  revert Hmain. unfold main. case_decide; [done|]. case_decide; [done|].
  intros Hloop. by apply main_loop_attempts in Hloop as (_ & _ & Hall).
Qed.

(** X16.  A debug round of [trials] trials that comes to its end has added
    [trials] entries to [data] and has reseeded the generator [trials]
    times; every entry is the number of attempts that failed in its trial
    alone, the count starting from zero in each trial: the call of [main]
    of trial [i], on the state that the [i]-th reseeding installs and with
    [retries_needed] at zero, succeeds with every bound on the attempts
    above entry [i] and with no bound up to it. *)
Theorem run_trials_data fuel trials names weeks debug_mode w w' :
  run_trials entropy fuel trials names weeks debug_mode w = WRet () w' →
  ∃ counts, data w' = data w ++ counts ∧ length counts = trials ∧
            Forall (λ r, r < fuel) counts ∧
            seeded w' = seeded w + trials ∧
            retries_needed w' = default (retries_needed w) (last counts) ∧
            ∀ i n, counts !! i = Some n →
              ∃ ts ws g, ∀ ambient fuel',
                main fuel' ambient (entropy (seeded w + i)) names weeks 0
                  (data w ++ take i counts)
                = if decide (n < fuel')
                  then Success ts ws n (data w ++ take (S i) counts) g
                  else OutOfFuel.
Proof.
  revert w. induction trials as [|trials IH]; intros w; cbn [run_trials].
  - intros [= <-]. exists []. rewrite app_nil_r.
    split_and!; [done..|lia|done|]. by intros i n ?.
  - rewrite W_bind_eq. unfold set_retries_needed at 1. rewrite W_bind_eq.
    destruct (main_w _ _ _ _ _ _) as [[] w1| |] eqn:Hmain; [|done..].
    pose proof (main_w_Ret_main _ _ _ _ _ _ Hmain) as (ts & ws & g & Hcount).
    apply main_w_Ret in Hmain as (Hd & _ & Hlt & Hs).
    cbn [data retries_needed seeded] in Hd, Hlt, Hs, Hcount.
    intros (counts & Hd' & Hlen & Hall & Hs' & Hlast & Htrial)%IH.
    exists (retries_needed w1 :: counts). split_and!.
    + by rewrite Hd', Hd, <-app_assoc.
    + simpl. lia.
    + constructor; [lia|done].
    + lia.
    + rewrite Hlast. destruct counts as [|n counts]; [done|]. simpl.
      destruct (last (n :: counts)) eqn:Hl; [done|]. by apply last_None in Hl.
    + intros [|i] n Hc.
      * injection Hc as <-. exists ts, ws, g. intros ambient fuel'.
        rewrite Nat.add_0_r, take_0, app_nil_r. cbn [take].
        rewrite (Hcount ambient fuel'), Nat.sub_0_r, Hd. done.
      * destruct (Htrial i n Hc) as (ts' & ws' & g' & Hi).
        exists ts', ws', g'. intros ambient fuel'.
        specialize (Hi ambient fuel'). rewrite Hs, Hd in Hi.
        replace (seeded w + S i) with (S (seeded w) + i) by lia.
        rewrite <-!app_assoc in Hi. exact Hi.
Qed.

End premain_props.

(** ** The weeks of a schedule as rounds *)

Section rounds.

Context {G : Type} `{!RandomGen G}.

(** X19.  After a successful run with distinct names, every week is a full
    round: the week's entries of the schedules of the teams are the names of
    the teams, each exactly once.  So in every week every team plays, and
    no team is the opponent of two teams (the columns of the grid). *)
Theorem every_week_is_a_round fuel ambient entropy names weeks r data
    ts ws r' data' g :
  NoDup names →
  length names mod 2 = 0 →
  main fuel ambient entropy names weeks r data = Success ts ws r' data' g →
  ∀ j, j < weeks →
    (λ x, schedule_of ts x !! j) <$> seq 0 (length names) ≡ₚ Some <$> names.
Proof.
  intros Hnd Heven Hmain j Hj.
  apply main_Success in Hmain as (_ & Hinv & _); [|done].
  assert (Hopp : ∀ x, x < length names →
            ∃ y, y < length names ∧
                 schedule_of ts x !! j = Some (name_of ts y) ∧
                 schedule_of ts y !! j = Some (name_of ts x)).
  { intros x Hx.
    destruct (ai_sym _ _ _ _ _ Hinv j x Hj Hx) as (y & Hy & _ & H1 & H2).
    by exists y. }
  apply submseteq_length_Permutation.
  - apply NoDup_submseteq.
    + apply NoDup_fmap_2_strong; [|apply NoDup_seq].
      intros x1 x2 Hx1%elem_of_seq Hx2%elem_of_seq Heq.
      destruct (Hopp x1) as (y1 & Hy1 & Hs1 & Hb1); [lia|].
      destruct (Hopp x2) as (y2 & Hy2 & Hs2 & Hb2); [lia|].
      rewrite Hs1, Hs2 in Heq. injection Heq as Heq.
      apply (name_of_inj names) in Heq; [|apply Hinv|done..]. subst y2.
      rewrite Hb1 in Hb2. injection Hb2 as Hb2.
      apply (name_of_inj names) in Hb2; [done|apply Hinv|done|lia..].
    + intros o (x & -> & Hx%elem_of_seq)%list_elem_of_fmap.
      destruct (Hopp x) as (y & Hy & -> & _); [lia|].
      apply list_elem_of_fmap. exists (name_of ts y). split; [done|].
      eapply list_elem_of_lookup_2, name_of_names; [apply Hinv|done].
  - by rewrite !length_fmap, length_seq.
Qed.

End rounds.

(** ** Four teams *)

Lemma size_within (X : gset nat) (l : list nat) :
  NoDup l → X ⊆ list_to_set l → size X = length (filter (λ y, y ∈ X) l).
Proof.
  intros Hnd Hsub.
  assert (HX : X = list_to_set (filter (λ y, y ∈ X) l)).
  { apply set_eq. intros y. rewrite elem_of_list_to_set, list_elem_of_filter.
    split; [|by intros [? _]]. intros Hy. split; [done|].
    apply Hsub in Hy. by apply elem_of_list_to_set in Hy. }
  rewrite HX at 1. apply size_list_to_set. by apply NoDup_filter.
Qed.

Lemma length_filter_three (X : gset nat) x y z :
  length (filter (λ y, y ∈ X) [x; y; z])
  = indicator X x + indicator X y + indicator X z.
Proof.
  unfold indicator. rewrite !filter_cons, filter_nil.
  repeat case_decide; done.
Qed.

Lemma four_teams_candidate (teams : list Team.t) w p a b c :
  played_ok 4 teams →
  [p; a; b; c] ≡ₚ seq 0 4 →
  (∀ x, x ∈ [p; a; b; c] → size (played teams x) = w) →
  w < 3 →
  ∃ m, m ∈ [a; b; c] ∧ (m ∉ played teams p) ∧
       ¬ strands teams m (list_to_set [a; b; c]).
Proof.
  intros Hok Hperm Hsize Hw.
  assert (Hnd : NoDup [p; a; b; c]) by (rewrite Hperm; apply NoDup_seq).
  assert (Hin : ∀ y, y < 4 → y ∈ [p; a; b; c]).
  { intros y Hy. rewrite Hperm. apply elem_of_seq. lia. }
  assert (Hsym : ∀ x y,
            indicator (played teams x) y = indicator (played teams y) x).
  { intros x y. unfold indicator. repeat case_decide; try done; exfalso.
    - match goal with H : y ∈ _ |- _ => apply Hok in H as (_ & _ & _ & ?) end.
      done.
    - match goal with H : x ∈ _ |- _ => apply Hok in H as (_ & _ & _ & ?) end.
      done. }
  assert (Hdist : p ≠ a ∧ p ≠ b ∧ p ≠ c ∧ a ≠ b ∧ a ≠ c ∧ b ≠ c).
  { repeat (apply NoDup_cons in Hnd as [? Hnd]). set_solver. }
  destruct Hdist as (Hpa & Hpb & Hpc & Hab & Hac & Hbc).
  (* the size of each set, counted over the other three teams *)
  assert (Hcount : ∀ x y1 y2 y3, [x; y1; y2; y3] ≡ₚ [p; a; b; c] →
            w = indicator (played teams x) y1 + indicator (played teams x) y2
                + indicator (played teams x) y3).
  { intros x y1 y2 y3 Hl.
    assert (Hndl : NoDup [x; y1; y2; y3]) by (by rewrite Hl).
    apply NoDup_cons in Hndl as [Hxl Hndl].
    rewrite <-length_filter_three, <-(Hsize x) by (rewrite <-Hl; left).
    apply size_within; [done|]. intros y Hy. apply elem_of_list_to_set.
    pose proof Hy as Hy'. apply Hok in Hy' as (_ & Hy4 & Hxy & _).
    apply Hin in Hy4. rewrite <-Hl in Hy4.
    apply elem_of_cons in Hy4 as [?|?]; done. }
  pose proof (Hcount p a b c (reflexivity _)) as Hp.
  assert (Ha := Hcount a p b c (Permutation_swap _ _ _)).
  assert (Hb : w = indicator (played teams b) p + indicator (played teams b) a
                   + indicator (played teams b) c).
  { apply Hcount. etrans; [apply Permutation_swap|].
    apply perm_skip, Permutation_swap. }
  assert (Hc : w = indicator (played teams c) p + indicator (played teams c) a
                   + indicator (played teams c) b).
  { apply Hcount. etrans; [apply Permutation_swap|]. apply perm_skip.
    etrans; [apply Permutation_swap|]. apply perm_skip, Permutation_swap. }
  rewrite (Hsym a p) in Ha.
  rewrite (Hsym b p), (Hsym b a) in Hb.
  rewrite (Hsym c p), (Hsym c a), (Hsym c b) in Hc.
  assert (Hno : ∀ m t1 t2, [m; t1; t2] ≡ₚ [a; b; c] →
            indicator (played teams t1) t2 = 0 →
            ¬ strands teams m (list_to_set [a; b; c])).
  { intros m t1 t2 Hl Hnot (t & Ht & Hsub).
    assert (Hnot1 : t2 ∉ played teams t1).
    { unfold indicator in Hnot. by case_decide. }
    assert (Hnot2 : t1 ∉ played teams t2).
    { rewrite Hsym in Hnot. unfold indicator in Hnot. by case_decide. }
    assert (Hndm : NoDup [m; t1; t2]).
    { rewrite Hl. by apply NoDup_cons in Hnd as [_ ?]. }
    assert (m ≠ t1 ∧ m ≠ t2 ∧ t1 ≠ t2) as (? & ? & ?).
    { repeat (apply NoDup_cons in Hndm as [? Hndm]). set_solver. }
    assert (HR : (list_to_set [a; b; c] ∖ {[m]} : gset nat) = {[t1; t2]}).
    { rewrite <-Hl. apply set_eq. intros y. set_solver. }
    rewrite HR in Ht, Hsub.
    apply elem_of_union in Ht as [Ht|Ht]; apply elem_of_singleton in Ht; subst t.
    - assert (t2 ∈ played teams t1 ∪ {[t1]}) by set_solver. set_solver.
    - assert (t1 ∈ played teams t2 ∪ {[t2]}) by set_solver. set_solver. }
  assert (Hbit : ∀ X y, indicator X y = 0 ∨ indicator X y = 1).
  { intros X y. unfold indicator. case_decide; auto. }
  assert (Hout : ∀ y, indicator (played teams p) y = 0 → y ∉ played teams p).
  { intros y Hy. unfold indicator in Hy. by case_decide. }
  destruct (Hbit (played teams p) a) as [Hpa'|Hpa'].
  { exists a. split_and!; [set_solver|by apply Hout|].
    apply (Hno a b c); [done|].
    destruct (Hbit (played teams p) b), (Hbit (played teams p) c),
      (Hbit (played teams a) b), (Hbit (played teams a) c),
      (Hbit (played teams b) c); lia. }
  destruct (Hbit (played teams p) b) as [Hpb'|Hpb'].
  { exists b. split_and!; [set_solver|by apply Hout|].
    apply (Hno b a c); [apply Permutation_swap|].
    destruct (Hbit (played teams p) c),
      (Hbit (played teams a) b), (Hbit (played teams a) c),
      (Hbit (played teams b) c); lia. }
  destruct (Hbit (played teams p) c) as [Hpc'|Hpc']; [|lia].
  exists c. split_and!; [set_solver|by apply Hout|].
  apply (Hno c a b).
  { etrans; [apply Permutation_swap|]. apply perm_skip, Permutation_swap. }
  destruct (Hbit (played teams a) b), (Hbit (played teams a) c),
    (Hbit (played teams b) c); lia.
Qed.

Section four.

Context {G : Type} `{!RandomGen G}.

Implicit Types (st : Sched G).

Lemma matchups_four_Done names teams0 base w st :
  week_inv names teams0 base w (seq 0 4) [] (teams st) (s st) →
  length names = 4 → w < 3 →
  ∃ lists st', matchups w (seq 0 2) (seq 0 4, []) st = Done lists st'.
Proof.
  intros Hinv Hn Hw. cbn [seq]. rewrite matchups_cons.
  destruct (matchup w 0 ([0; 1; 2; 3], []) st) as [[U1 S1] st1|e1 st1] eqn:Hm.
  - apply (matchup_Done names teams0 base) in Hm as [Hinv1 Hlen1]; [|done].
    rewrite matchups_cons.
    destruct (matchup w 1 (U1, S1) st1) as [[U2 S2] st2|e2 st2] eqn:Hm2.
    + by eexists _, _.
    + exfalso.
      apply (matchup_Raise names teams0 base) in Hm2
        as (_ & p & U & Hsh & Hl1 & _); [|done|].
      2:{ intros ->. simpl in Hlen1. lia. }
      pose proof (shuffle_Permutation (rng st1) U1) as Hperm.
      rewrite Hsh in Hperm. apply Permutation_length in Hperm.
      rewrite length_app in Hperm. simpl in *. lia.
  - exfalso.
    apply (matchup_Raise names teams0 base) in Hm
      as (_ & p & U2 & Hsh & Hl1 & Hcand); [|done|done].
    pose proof (shuffle_Permutation (rng st) [0; 1; 2; 3]) as Hperm.
    rewrite Hsh in Hperm.
    assert (HU : p :: U2 ≡ₚ seq 0 4).
    { by rewrite <-Hperm, <-Permutation_cons_append. }
    assert (Hl : length U2 = 3).
    { apply Permutation_length in HU. simpl in HU. lia. }
    destruct U2 as [|a [|b [|c [|??]]]]; simplify_eq/=.
    destruct (four_teams_candidate (teams st) w p a b c)
      as (m & Hm & Hmp & Hstr); [|done| |done|].
    + rewrite <-Hn. apply Hinv.
    + intros x Hx. rewrite HU in Hx. eapply cycle_ok_size, Hinv. exact Hx.
    + assert (Hin : m ∈ candidates (teams st) w p [a; b; c]).
      { unfold candidates. rewrite decide_False by (simpl; lia).
        destruct (viability_guard [a; b; c] w);
          rewrite ?list_elem_of_filter; done. }
      rewrite Hcand in Hin. by apply elem_of_nil in Hin.
Qed.

Lemma week_four_Done names teams0 base w st :
  pass_inv names teams0 base w (teams st) (s st) →
  length names = 4 → w < 3 →
  ∃ st', week w st = Done () st'.
Proof.
  intros Hinv Hn Hw. rewrite week_eq.
  assert (Hlen : length (teams st) = 4).
  { by rewrite <-Hn, <-(pi_names _ _ _ _ _ _ Hinv), length_fmap. }
  rewrite Hlen. change (4 / 2) with 2.
  edestruct (matchups_four_Done names teams0 base w) as (lists & st' & ->);
    [|done..|by eexists].
  pose proof (week_inv_start names teams0 base w (teams st) (s st) Hinv) as H.
  rewrite Hlen in H. apply H. lia.
Qed.

Lemma week_loop_four_Done names teams0 base w k st :
  pass_inv names teams0 base w (teams st) (s st) →
  length names = 4 → w + k ≤ 3 →
  ∃ st', week_loop (seq w k) st = Done () st'.
Proof.
  revert w st. induction k as [|k IH]; intros w st Hinv Hn Hk; cbn [seq].
  - by eexists.
  - rewrite week_loop_cons.
    destruct (week_four_Done names teams0 base w st) as [st1 Hweek];
      [done..|lia|].
    rewrite Hweek. apply (IH (S w)); [|done|lia].
    eapply (week_Done names teams0 base); [done|by rewrite Hn|lia|done].
Qed.

Lemma runScheduler_four names teams0 base weeks st :
  pass_inv names teams0 base 0 (teams st) (s st) →
  length names = 4 → weeks ≤ 3 →
  ∃ st', runScheduler weeks st = Done true st'.
Proof.
  intros Hinv Hn Hw. unfold runScheduler.
  destruct (week_loop_four_Done names teams0 base 0 weeks st) as [st' ->];
    [done..|lia|]. by eexists.
Qed.

Lemma passes_four names weeks i k rv retry st :
  let d := length names - 1 in
  let np := ceil_div weeks d in
  attempt_inv names d (i * d) (teams st) (s st) →
  length names = 4 →
  i + k = np → 1 ≤ k →
  ∃ st', passes weeks d np (seq i k) rv retry st = Done (Some true, false) st'.
Proof.
  intros d np. revert i rv retry st.
  induction k as [|k IH]; intros i rv retry st Hinv Hn Hik Hk; [lia|].
  assert (Heven : length names mod 2 = 0) by (by rewrite Hn).
  assert (Hd : d = 3) by (unfold d; lia).
  cbn [seq]. rewrite passes_cons.
  pose proof (pass_inv_reset _ _ _ _ _ Hinv) as Hpass.
  assert (Hle : pass_weeks weeks d np i ≤ d) by (apply pass_weeks_le; lia).
  destruct (runScheduler_four names _ _ (pass_weeks weeks d np i) (reset st)
              Hpass Hn) as [st1 Hrun]; [lia|].
  rewrite Hrun.
  eapply (runScheduler_Done names) in Hrun; [|done..].
  eapply attempt_inv_pass in Hrun; [|done..].
  case_decide as Hi.
  - rewrite pass_weeks_full in Hrun by done.
    apply IH; [|done|lia|lia].
    by replace (S i * d) with (i * d + d) by lia.
  - destruct k; [|lia]. by eexists.
Qed.

(** X20.  With four teams [main] succeeds at its first attempt for every
    number of weeks, whatever is drawn: in each of the three weeks of a
    cycle the picker of the first matchup has a candidate that [testMatch]
    accepts, and the last two teams have not played each other.  [main]
    returns with [retries_needed] unchanged and appended to [data].
    ([weeks] is below 2^53, where the floating-point quotient of line 262
    is exact.) *)
Theorem four_teams_never_retry fuel ambient entropy names weeks r data :
  length names = 4 → 1 ≤ weeks →
  (Z.of_nat weeks < 2 ^ 53)%Z →
  ∃ ts ws g,
    main (S fuel) ambient entropy names weeks r data
    = Success ts ws r (data ++ [r]) g.
Proof.
  intros Hn Hw _. unfold main. rewrite length_fmap.
  rewrite !decide_False by lia. cbn [main_loop].
  edestruct (passes_four names weeks 0) as [st' ->]; [..|by eexists _, _, _].
  - simpl. apply attempt_inv_new.
  - done.
  - done.
  - apply ceil_div_pos; lia.
Qed.

End four.

(** * Examples for the properties of the whole program *)

Lemma main_crashes_iff_witness :
  (Z.of_nat 5 < 2 ^ 53)%Z ∧ (Z.of_nat 0 < 2 ^ 53)%Z ∧
  (∀ e, main 3 [] [2; 0; 1; 3] six_names 5 0 [] ≠ Crashed e) ∧
  main 3 [] [2; 0; 1; 3] six_names 0 0 [] = Crashed UnboundLocalError ∧
  main 3 [] [2; 0; 1; 3] ["A"%string] 5 0 [] = Crashed ZeroDivisionError.
Proof.
  assert (H5 : (Z.of_nat 5 < 2 ^ 53)%Z) by lia.
  assert (H0 : (Z.of_nat 0 < 2 ^ 53)%Z) by lia.
  split_and!; [exact H5|exact H0| | |].
  - intros e He.
    apply (main_crashes_iff 2 [] [2; 0; 1; 3] six_names 5 0 [] e H5) in He.
    destruct He as [[Hl _]|(_ & [Hl|Hl] & _)]; simpl in Hl; lia.
  - apply (main_crashes_iff 2 [] [2; 0; 1; 3] six_names 0 0 [] _ H0).
    right. split_and!; [simpl; lia|by right|done].
  - apply (main_crashes_iff 2 [] [2; 0; 1; 3] ["A"%string] 5 0 [] _ H5).
    by left.
Defined.

Lemma odd_teams_never_finish_witness :
  length ["A"; "B"; "C"]%string mod 2 = 1 ∧ 3 ≤ length ["A"; "B"; "C"]%string ∧
  1 ≤ 2 ∧ (Z.of_nat 2 < 2 ^ 53)%Z ∧
  main 9 [] [1; 2] ["A"; "B"; "C"]%string 2 0 [] = OutOfFuel.
Proof.
  assert (H1 : length ["A"; "B"; "C"]%string mod 2 = 1) by reflexivity.
  assert (H2 : 3 ≤ length ["A"; "B"; "C"]%string) by (simpl; lia).
  assert (H3 : 1 ≤ 2) by lia.
  assert (H4 : (Z.of_nat 2 < 2 ^ 53)%Z) by lia.
  split_and!; [exact H1|exact H2|exact H3|exact H4|].
  exact (odd_teams_never_finish 9 [] [1; 2] _ 2 0 [] H1 H2 H3 H4).
Defined.

Lemma single_week_cycles_succeed_witness :
  length ["A"; "B"]%string mod 2 = 0 ∧ 2 ≤ length ["A"; "B"]%string ∧ 1 ≤ 3 ∧
  (length ["A"; "B"]%string = 2 ∨ 3 = 1) ∧ (Z.of_nat 3 < 2 ^ 53)%Z ∧
  ∃ ts ws g,
    main 1 [] [1] ["A"; "B"]%string 3 0 [] = Success ts ws 0 ([] ++ [0]) g.
Proof.
  assert (H1 : length ["A"; "B"]%string mod 2 = 0) by reflexivity.
  assert (H2 : 2 ≤ length ["A"; "B"]%string) by (simpl; lia).
  assert (H3 : 1 ≤ 3) by lia.
  assert (H4 : length ["A"; "B"]%string = 2 ∨ 3 = 1) by (by left).
  assert (H5 : (Z.of_nat 3 < 2 ^ 53)%Z) by lia.
  split_and!; [exact H1|exact H2|exact H3|exact H4|exact H5|].
  exact (single_week_cycles_succeed 0 [] [1] _ 3 0 [] H1 H2 H3 H4 H5).
Defined.

Lemma first_week_never_fails_witness :
  length six_names mod 2 = 0 ∧ 2 ≤ length six_names ∧
  ∃ st, pass_entry six_names 7 (fresh six_names [2; 0; 1; 3]) 1 st ∧
        ∃ st', week 0 (reset st) = Done () st'.
Proof.
  assert (H1 : length six_names mod 2 = 0) by reflexivity.
  assert (H2 : 2 ≤ length six_names) by (simpl; lia).
  split_and!; [exact H1|exact H2|].
  eassert (Hentry : pass_entry six_names 7 (fresh six_names [2; 0; 1; 3]) 1 _).
  { eapply entry_next.
    - apply entry_first; [reflexivity|reflexivity|vm_compute; lia].
    - vm_compute; lia.
    - vm_compute. reflexivity. }
  eexists. split; [exact Hentry|].
  exact (first_week_never_fails _ _ _ _ _ Hentry H1 H2).
Defined.

Lemma unscheduled_teams_have_opponents_witness :
  length six_names mod 2 = 0 ∧
  ∃ st,
    turn_entry six_names 5 (fresh six_names []) 0 1 1 ([0; 2; 3; 4], [5; 1]) st ∧
    (∀ t, t ∈ [0; 2; 3; 4] →
       ∃ u, u ∈ [0; 2; 3; 4] ∧ u ≠ t ∧ u ∉ played (teams st) t) ∧
    (shuffle (rng st) [0; 2; 3; 4]).2 = [0; 2; 3] ++ [4] ∧
    filter (λ a, a ∉ played (teams st) 4) [0; 2; 3] ≠ [].
Proof.
  split; [reflexivity|].
  eassert (Hreach : turn_entry six_names 5 (fresh six_names []) 0 1 1
                      ([0; 2; 3; 4], [5; 1]) _).
  { eapply turn_next.
    - eapply (turn_first _ _ _ 0 1).
      + apply entry_first; [reflexivity|reflexivity|vm_compute; lia].
      + vm_compute; lia.
      + vm_compute. reflexivity.
      + vm_compute; lia.
      + vm_compute. reflexivity.
    - vm_compute; lia.
    - vm_compute. reflexivity. }
  at_turn Hreach ltac:(fun U P st =>
    assert (Hsh : (shuffle (rng st) U).2 = [0; 2; 3] ++ [4])
      by (vm_compute; reflexivity)).
  destruct (unscheduled_teams_have_opponents _ _ _ _ _ _ _ _ _ Hreach eq_refl)
    as [Hall Hpick].
  eexists. split_and!; [exact Hreach|exact Hall|exact Hsh|exact (Hpick _ _ Hsh)].
Defined.

Lemma retries_count_failed_attempts_witness :
  ∃ ts ws data g,
    main 3 [] dead_end_tape eight_names 7 0 [] = Success ts ws 1 data g ∧
    data = [] ++ [1] ∧
    main 2 [] dead_end_tape eight_names 7 0 [] = Success ts ws 1 data g ∧
    main 1 [] dead_end_tape eight_names 7 0 [] = OutOfFuel.
Proof.
  eassert (Hrun : main 3 [] dead_end_tape eight_names 7 0 [] = Success _ _ 1 _ _)
    by (vm_compute; reflexivity).
  destruct (retries_count_failed_attempts _ _ _ _ _ _ _ _ _ _ _ _ Hrun)
    as (_ & Hdata & Hall).
  eexists _, _, _, _. split_and!; [exact Hrun|exact Hdata|exact (Hall 2)|exact (Hall 1)].
Defined.

Lemma opponents_are_other_teams_witness :
  NoDup six_names ∧ length six_names mod 2 = 0 ∧
  ∃ ts ws r data g,
    main 3 [] [2; 0; 1; 3] six_names 7 0 [] = Success ts ws r data g ∧
    ∀ x, x < length six_names →
      (name_of ts x ∉ schedule_of ts x) ∧
      ∀ nm, nm ∈ schedule_of ts x → nm ∈ delete x six_names.
Proof.
  split_and!; [apply six_names_NoDup|reflexivity|].
  eassert (Hrun : main 3 [] [2; 0; 1; 3] six_names 7 0 [] = Success _ _ _ _ _)
    by (vm_compute; reflexivity).
  eexists _, _, _, _, _. split; [exact Hrun|].
  exact (opponents_are_other_teams _ _ _ _ _ _ _ _ _ _ _ _
           six_names_NoDup eq_refl Hrun).
Defined.

Lemma full_cycle_is_round_robin_witness :
  NoDup six_names ∧ length six_names mod 2 = 0 ∧
  ∃ ts ws r data g,
    main 3 [] [2; 0; 1; 3] six_names 7 0 [] = Success ts ws r data g ∧
    ∀ x, x < length six_names →
      take 5 (schedule_of ts x) ≡ₚ delete x six_names.
Proof.
  split_and!; [apply six_names_NoDup|reflexivity|].
  eassert (Hrun : main 3 [] [2; 0; 1; 3] six_names 7 0 [] = Success _ _ _ _ _)
    by (vm_compute; reflexivity).
  eexists _, _, _, _, _. split; [exact Hrun|].
  intros x Hx.
  apply (full_cycle_is_round_robin _ _ _ _ _ _ _ _ _ _ _ _
           six_names_NoDup eq_refl Hrun x 0 Hx).
  simpl. lia.
Defined.

Lemma weekly_schedule_agrees_witness :
  length six_names mod 2 = 0 ∧
  ∃ ts ws r data g,
    main 3 [] [2; 0; 1; 3] six_names 7 0 [] = Success ts ws r data g ∧
    WeeklySchedule.next_index ws = 7 ∧
    ∃ weeks_pairs : list (list (nat * nat)),
      length weeks_pairs = 7 ∧
      WeeklySchedule.schedule ws = week_text ts <$> weeks_pairs ∧
      ∀ j pairs, weeks_pairs !! j = Some pairs →
        length pairs = length six_names / 2 ∧
        paired_teams pairs ≡ₚ seq 0 (length six_names) ∧
        ∀ p m, (p, m) ∈ pairs →
          schedule_of ts p !! j = Some (name_of ts m) ∧
          schedule_of ts m !! j = Some (name_of ts p).
Proof.
  split; [reflexivity|].
  eassert (Hrun : main 3 [] [2; 0; 1; 3] six_names 7 0 [] = Success _ _ _ _ _)
    by (vm_compute; reflexivity).
  eexists _, _, _, _, _. split; [exact Hrun|].
  exact (weekly_schedule_agrees 3 [] [2; 0; 1; 3] six_names 7 0 []
           _ _ _ _ _ eq_refl Hrun).
Defined.

Lemma getTeamByName_name_of_witness :
  NoDup (Team.name <$> (Team.new <$> six_names)) ∧
  3 < length (Team.new <$> six_names) ∧
  getTeamByName (Team.new <$> six_names) "D" (seq 0 6) = inl 3.
Proof.
  assert (Hnd : NoDup (Team.name <$> (Team.new <$> six_names))).
  { apply (bool_decide_unpack _). vm_compute. exact I. }
  assert (Hlt : 3 < length (Team.new <$> six_names)) by (simpl; lia).
  split_and!; [exact Hnd|exact Hlt|].
  exact (getTeamByName_name_of (Team.new <$> six_names) 3 Hnd Hlt).
Defined.

Lemma validatePosIntInput_asks_until_valid_witness :
  length (stdin {| stdin := ["0"; " 7 "; "x"]%string; stdout := [] |}) + 1 < 5 ∧
  validatePosIntInput 5 "abc" {| stdin := ["0"; " 7 "; "x"]%string; stdout := [] |}
  = Ret 7%Z
      {| stdin := ["x"%string];
         stdout := [printed ["Please enter a valid number greater than 0."%string] newline;
                    "Re-enter number --> "%string;
                    printed ["The number must be greater than 0, or there is no point."%string] newline;
                    "Re-enter number --> "%string] |}.
Proof.
  assert (Hfuel : length (stdin {| stdin := ["0"; " 7 "; "x"]%string;
                                    stdout := [] |}) + 1 < 5) by (simpl; lia).
  split; [exact Hfuel|].
  rewrite (validatePosIntInput_asks_until_valid 5 "abc" _ Hfuel).
  vm_compute. reflexivity.
Defined.

Lemma main_w_output_witness :
  length six_names mod 2 = 0 ∧
  ∃ w',
    main_w example_entropy 3 six_names 5 false (at_start []) = WRet () w' ∧
    retries_needed w' = 0 ∧ data w' = [] ++ [0] ∧ seeded w' = 1 ∧
    ∃ weeks_pairs : list (list (nat * nat)),
      length weeks_pairs = 5 ∧
      Forall (λ pairs, paired_teams pairs ≡ₚ seq 0 (length six_names))
        weeks_pairs ∧
      stdout (con w') =
        [] ++ transcript 0 (week_text (Team.new <$> six_names) <$> weeks_pairs).
Proof.
  split; [reflexivity|].
  eassert (Hrun : main_w example_entropy 3 six_names 5 false (at_start [])
                  = WRet () _) by (vm_compute; reflexivity).
  destruct (main_w_output example_entropy 3 six_names 5 false _ _ eq_refl Hrun)
    as (_ & _ & Hdata & Hseed & Hout).
  eexists. split_and!; [exact Hrun|reflexivity|exact Hdata|exact Hseed|exact Hout].
Defined.

Lemma run_trials_data_witness :
  ∃ w',
    run_trials example_entropy 3 2 six_names 5 true (at_start []) = WRet () w' ∧
    ∃ counts, data w' = [] ++ counts ∧ length counts = 2 ∧
              Forall (λ r, r < 3) counts ∧ seeded w' = 0 + 2 ∧
              retries_needed w' = default 0 (last counts) ∧
              ∀ i n, counts !! i = Some n →
                ∃ ts ws g, ∀ ambient fuel',
                  main fuel' ambient (example_entropy (0 + i)) six_names 5 0
                    ([] ++ take i counts)
                  = if decide (n < fuel')
                    then Success ts ws n ([] ++ take (S i) counts) g
                    else OutOfFuel.
Proof.
  eassert (Hrun : run_trials example_entropy 3 2 six_names 5 true (at_start [])
                  = WRet () _) by (vm_compute; reflexivity).
  eexists. split; [exact Hrun|].
  exact (run_trials_data example_entropy 3 2 six_names 5 true _ _ Hrun).
Defined.

(** The lines of a standard run and of a debug round that is not repeated. *)
Lemma small_entries_standard :
  small_entries (con (at_start ["2"; "A B C D"; "x"]%string)).
Proof. apply (bool_decide_unpack _). vm_compute. exact I. Defined.

Lemma small_entries_debug :
  small_entries
    (con (at_start ["debug"; "7"; "A B C D E F G H"; "2"; "N"; ""]%string)).
Proof. apply (bool_decide_unpack _). vm_compute. exact I. Defined.

Lemma preMain_counts_its_runs_witness :
  small_entries
    (con (at_start ["debug"; "7"; "A B C D E F G H"; "2"; "N"; ""]%string)) ∧
  ∃ w',
    preMain example_entropy 9
      (at_start ["debug"; "7"; "A B C D E F G H"; "2"; "N"; ""]%string)
    = WRet false w' ∧
    1 ≤ length (data w') ∧ seeded w' = 0 + length (data w').
Proof.
  split; [exact small_entries_debug|].
  eassert (Hrun : preMain example_entropy 9
                    (at_start ["debug"; "7"; "A B C D E F G H"; "2"; "N"; ""]%string)
                  = WRet false _) by (vm_compute; reflexivity).
  destruct (preMain_counts_its_runs example_entropy 9 _ small_entries_debug)
    as [Hret _].
  eexists. split; [exact Hrun|]. exact (Hret _ _ Hrun).
Defined.

Lemma metaWrapper_ends_witness :
  small_entries (con (at_start ["2"; "A B C D"; "x"]%string)) ∧
  ∃ w',
    metaWrapper example_entropy 9 (at_start ["2"; "A B C D"; "x"]%string)
    = WRet () w' ∧
    ∃ out, stdout (con w')
           = out ++ ["Press any key to end"%string;
                     printed [newline +:+ "Goodbye."] newline].
Proof.
  split; [exact small_entries_standard|].
  eassert (Hrun : metaWrapper example_entropy 9
                    (at_start ["2"; "A B C D"; "x"]%string) = WRet () _)
    by (vm_compute; reflexivity).
  destruct (metaWrapper_ends example_entropy 9 _ small_entries_standard)
    as [Hret _].
  eexists. split; [exact Hrun|]. exact (Hret _ Hrun).
Defined.

Lemma every_week_is_a_round_witness :
  NoDup six_names ∧ length six_names mod 2 = 0 ∧
  ∃ ts ws r data g,
    main 3 [] [2; 0; 1; 3] six_names 7 0 [] = Success ts ws r data g ∧
    ∀ j, j < 7 →
      (λ x, schedule_of ts x !! j) <$> seq 0 (length six_names)
      ≡ₚ Some <$> six_names.
Proof.
  split_and!; [apply six_names_NoDup|reflexivity|].
  eassert (Hrun : main 3 [] [2; 0; 1; 3] six_names 7 0 [] = Success _ _ _ _ _)
    by (vm_compute; reflexivity).
  eexists _, _, _, _, _. split; [exact Hrun|].
  exact (every_week_is_a_round _ _ _ _ _ _ _ _ _ _ _ _
           six_names_NoDup eq_refl Hrun).
Defined.

Lemma four_teams_never_retry_witness :
  length ["A"; "B"; "C"; "D"]%string = 4 ∧ 1 ≤ 7 ∧ (Z.of_nat 7 < 2 ^ 53)%Z ∧
  ∃ ts ws g,
    main 1 [] [1] ["A"; "B"; "C"; "D"]%string 7 0 []
    = Success ts ws 0 ([] ++ [0]) g.
Proof.
  assert (H1 : length ["A"; "B"; "C"; "D"]%string = 4) by reflexivity.
  assert (H2 : 1 ≤ 7) by lia.
  assert (H3 : (Z.of_nat 7 < 2 ^ 53)%Z) by lia.
  split_and!; [exact H1|exact H2|exact H3|].
  exact (four_teams_never_retry 0 [] [1] _ 7 0 [] H1 H2 H3).
Defined.
